(** * bloqade: the builder-chain parser and the constant-waveform analysis

    A shallow embedding of
      - [src/bloqade/builder/parse/builder.py]  (class [Parser]) and
      - [src/bloqade/ir/analysis/is_constant.py]
        (classes [IsConstantWaveform] and [IsConstantAnalogCircuit]),
    followed by the properties of the specification stated over it.

    Python objects are modelled by their data: a builder object is its
    node together with its [__parent__]; a [BuilderNode] linked list is
    the list of the builder objects from the cursor on; the attributes
    of a [Parser] instance are the fields of a record; a raised
    exception is the [Raise] outcome of a call, and ends it: the state
    that a parser is left in by a call that raised is not followed. *)

From Stdlib Require Import List String Bool Arith ZArith QArith Lia Lqa.
Import ListNotations.

Set Warnings "-register-all".
Local Open Scope string_scope.
Local Open Scope list_scope.

(* ================================================================== *)
(** ** Exceptions and the error monad *)

Inductive ValueErrorKind : Type :=
| DuplicateNames (dup : list string)
    (* ValueError(f"Cannot have duplicate names {dup}.") *)
| RunTimeVectorArguments (vector_names : list string).
    (* ValueError(f"Cannot have RunTimeVectors: {vector_names} as an argument.") *)

Inductive Error : Type :=
| AttributeError (attr : string)   (* the object has no attribute [attr] *)
| TypeError (what : string)        (* an operation applied to None *)
| ValueError (kind : ValueErrorKind)
| ValidationError (what : string)  (* a typed IR constructor refused its argument *)
| EvaluationError (name : string)  (* a free variable without a binding *)
| Unevaluated (what : string)      (* raised only by the instance [spec_layer] *)
| OutOfFuel.                       (* the bound of a [while] loop was reached *)

Inductive Res (A : Type) : Type :=
| Ok (a : A)
| Raise (e : Error).
Arguments Ok {A} a.
Arguments Raise {A} e.

Definition bind {A B : Type} (m : Res A) (k : A -> Res B) : Res B :=
  match m with
  | Ok a => k a
  | Raise e => Raise e
  end.

Declare Scope res_scope.
Delimit Scope res_scope with res.
Notation "x <- m ;; k" := (bind m (fun x => k))
  (at level 100, m at next level, right associativity) : res_scope.
Notation "' p <- m ;; k" := (bind m (fun x => match x with p => k end))
  (at level 100, p pattern, m at next level, right associativity) : res_scope.
Local Open Scope res_scope.

Fixpoint mapM {A B : Type} (f : A -> Res B) (l : list A) : Res (list B) :=
  match l with
  | [] => Ok []
  | x :: xs => y <- f x ;; ys <- mapM f xs ;; Ok (y :: ys)
  end.

(* ================================================================== *)
(** ** Python dictionaries

    A [dict] keeps its keys in insertion order; [d[k] = v] replaces the
    value of a key that is present, at its place, and appends a key that
    is new.  Keys are compared by the boolean equality of their type. *)

Section Dict.
Context {K V : Type} (eqb : K -> K -> bool).

Fixpoint dict_get (d : list (K * V)) (k : K) : option V :=
  match d with
  | [] => None
  | (k', v) :: d' => if eqb k' k then Some v else dict_get d' k
  end.

Fixpoint dict_set (d : list (K * V)) (k : K) (v : V) : list (K * V) :=
  match d with
  | [] => [(k, v)]
  | (k', v') :: d' =>
      if eqb k' k then (k', v) :: d' else (k', v') :: dict_set d' k v
  end.

(** The keys of a dictionary are pairwise different. *)
Fixpoint unique_keys (d : list (K * V)) : bool :=
  match d with
  | [] => true
  | (k, _) :: d' =>
      forallb (fun kv => negb (eqb k (fst kv))) d' && unique_keys d'
  end.
End Dict.

(* ================================================================== *)
(** ** Scalars and assignments

    The scalar layer ([bloqade.ir.scalar]) is not among the sources. *)

(** Modelled from the spec: the "decimal-precision numbers" of the
    assignments.  A decimal number is the rational it denotes; [==] on
    decimals is [Qeq_bool]. *)
Definition Decimal : Type := Q.

(** Modelled from the spec: the scalar expressions of [bloqade.ir.scalar],
    which are missing; waveforms are "symbolically parameterized by named
    free variables". *)
Inductive Scalar : Type :=
| Literal (value : Decimal)
| Variable_ (name : string).

(** Modelled from the spec: "a map of free-variable names to
    decimal-precision numbers". *)
Definition Assignments : Type := list (string * Decimal).

(** Modelled from the spec: the call of a scalar with the assignments as
    keyword arguments, which is missing; "unresolved free variables are
    an evaluation failure". *)
Definition call (s : Scalar) (assignments : Assignments) : Res Decimal :=
  match s with
  | Literal v => Ok v
  | Variable_ x =>
      match dict_get String.eqb assignments x with
      | Some v => Ok v
      | None => Raise (EvaluationError x)
      end
  end.

(* ================================================================== *)
(** ** The intermediate representation

    The IR classes ([bloqade.ir]) are not among the sources; section 3 of
    the spec gives their variants and fields, and the two source files
    give the attribute names they read ([start], [stop], [coeffs],
    [waveforms], [left], [right], [waveform], [drives], [fields],
    [pulses], [register], [sequence]). *)

Module ir.

(** Modelled from the spec: the couplings [ir.rydberg] and [ir.hyperfine],
    "Coupling: enum {Rydberg, Hyperfine}". *)
Inductive LevelCoupling : Type := rydberg | hyperfine.

(** Modelled from the spec: the field names [ir.detuning],
    [ir.rabi.amplitude] and [ir.rabi.phase], "FieldName: enum {Detuning,
    RabiAmplitude, RabiPhase}". *)
Inductive FieldName : Type := detuning | rabi_amplitude | rabi_phase.

(** Modelled from the spec: the weights of a [Scale] modulation, "per-site
    weights, possibly symbolic": a named per-site vector that is bound at
    run time, or explicit per-site weights. *)
Inductive ScaleValue : Type :=
| RunTimeVector (name : string)
| Weights (ws : list Decimal).

(** Modelled from the spec: the spatial modulations of the IR, "variant
    {Location(index), Uniform, Scale(per-site weights, possibly
    symbolic)}". *)
Inductive SpatialModulation : Type :=
| Location (index : nat)
| Uniform
| Scale (value : ScaleValue).

(** Modelled from the spec: [ir.Interpolation], with the two kinds that
    the parser names. *)
Inductive Interpolation : Type := Linear_ | Constant_.

(** Modelled from the spec: the waveform classes of
    [bloqade.ir.control.waveform], with the variants of section 3 under
    the class names that the analysis imports. *)
Inductive Waveform : Type :=
| Constant (value duration : Scalar)
| Linear (start stop duration : Scalar)
| Poly (coeffs : list Scalar) (duration : Scalar)
| PythonFn (fn : Decimal -> Decimal) (duration : Scalar)
| Append (waveforms : list Waveform)
| Add (left right : Waveform)
| AlignedWaveform (waveform : Waveform) (alignment : string)
| Negative (waveform : Waveform)
| Record_ (waveform : Waveform) (var : string)
| Sample (waveform : Waveform) (interpolation : Interpolation) (dt : Scalar)
| Scale_ (waveform : Waveform) (scalar : Scalar)
| Slice (waveform : Waveform) (start stop : option Scalar)
| Smooth (waveform : Waveform) (kernel : string).

(** Modelled from the spec: the equality of the keys of the three
    dictionaries, "map keys are unique per level". *)
Definition LevelCoupling_eqb (a b : LevelCoupling) : bool :=
  match a, b with
  | rydberg, rydberg | hyperfine, hyperfine => true
  | _, _ => false
  end.

Definition FieldName_eqb (a b : FieldName) : bool :=
  match a, b with
  | detuning, detuning
  | rabi_amplitude, rabi_amplitude
  | rabi_phase, rabi_phase => true
  | _, _ => false
  end.

Fixpoint Weights_eqb (a b : list Decimal) : bool :=
  match a, b with
  | [], [] => true
  | x :: a', y :: b' => Qeq_bool x y && Weights_eqb a' b'
  | _, _ => false
  end.

Definition SpatialModulation_eqb (a b : SpatialModulation) : bool :=
  match a, b with
  | Location i, Location j => Nat.eqb i j
  | Uniform, Uniform => true
  | Scale (RunTimeVector x), Scale (RunTimeVector y) => String.eqb x y
  | Scale (Weights x), Scale (Weights y) => Weights_eqb x y
  | _, _ => false
  end.

(** Modelled from the spec: "Field: mapping from SpatialModulation key to
    Waveform", "Pulse: mapping from FieldName to Field", "Sequence:
    mapping from Coupling to Pulse". *)
Record Field : Type := mkField { drives : list (SpatialModulation * Waveform) }.
Record Pulse : Type := mkPulse { fields : list (FieldName * Field) }.
Record Sequence : Type := mkSequence { pulses : list (LevelCoupling * Pulse) }.

(** Modelled from the spec: [waveform.append(other)], which is missing;
    "the new leaf is appended (placed after in time)", [Append(ordered
    list of Waveform)]. *)
Definition append (w other : Waveform) : Waveform := Append [w; other].

(** Modelled from the spec: [waveform.record(name)], which is missing;
    [Record(inner, name)] "tags the accumulated waveform's end value
    under name". *)
Definition record (w : Waveform) (name : string) : Waveform := Record_ w name.

(** Modelled from the spec: [waveform[start:stop]], which is missing;
    [Slice(inner, start, stop)] "crops the accumulated waveform's
    domain". *)
Definition getitem (w : Waveform) (start stop : option Scalar) : Waveform :=
  Slice w start stop.

(** Modelled from the spec: [field.add(other)], which is missing;
    "re-adding the same key merges via [Add]", "same key sums; distinct
    keys coexist". *)
Definition Field_add (self other : Field) : Field :=
  mkField
    (fold_left
       (fun out '(sm, wf) =>
          match dict_get SpatialModulation_eqb out sm with
          | Some w => dict_set SpatialModulation_eqb out sm (Add w wf)
          | None => dict_set SpatialModulation_eqb out sm wf
          end)
       (drives other) (drives self)).

End ir.

(* ================================================================== *)
(** ** Builder chains

    The builder classes ([bloqade.builder.*]) are not among the sources.
    The parser reads of them: the class of a node ([isinstance],
    [type(..) in ..]), its [__parent__], the attributes named below and
    its lowering [__bloqade_ir__()]. *)

Module builder.

(** Modelled from the spec: [ParamType] of [bloqade.ir.routine.params],
    the values of "static_params (name -> value)". *)
Definition ParamType : Type := Decimal.

(** Modelled from the spec: the builder classes that the parser imports,
    each with the attributes the parser reads.  Section 6: a builder
    object exposes "a node-kind tag distinguishing
    register/coupling/field/spatial/waveform-primitive/waveform-transform/pragma
    node kinds". *)
Inductive Node : Type :=
| AtomArrangement (sites : list (Decimal * Decimal))
| Rydberg
| Hyperfine
| Rabi
| Detuning
| RabiAmplitude
| RabiPhase
| Location (label : nat)
| Uniform
| Scale (value : ir.ScaleValue)
| WaveformPrimitive (waveform : ir.Waveform)
    (* a primitive shape other than [Fn] *)
| Fn (fn : Decimal -> Decimal) (duration : Scalar)
    (* [Fn] is a subclass of [WaveformPrimitive] *)
| Slice (_start _stop : option Scalar)
| Record_ (_name : string)
| Sample (_interpolation : option ir.Interpolation) (_dt : Scalar)
| Assign (_static_params : list (string * ParamType))
| BatchAssign (_batch_params : list (list (string * ParamType)))
| ListAssign (_batch_params : list (list (string * ParamType)))
| Args (_order : list string)
| Parallelize (_cluster_spacing : Scalar)
| SequenceBuilder (_sequence : ir.Sequence).

(** Modelled from the spec: a builder object, which is its own data and
    "a back-reference to its immediate predecessor in the chain", its
    [__parent__]. *)
Inductive Builder : Type :=
| Build (node : Node) (__parent__ : option Builder).

Definition node_of (b : Builder) : Node :=
  match b with Build n _ => n end.

Definition parent_of (b : Builder) : option Builder :=
  match b with Build _ p => p end.

(** [type(x)] of an optional builder; [type(None)] is in no list. *)
Definition type_in (types : Node -> bool) (x : option Builder) : bool :=
  match x with
  | Some b => types (node_of b)
  | None => false
  end.

(** [Location, Uniform, Scale]; these are the subclasses of
    [SpatialModulation]. *)
Definition SpatialModulation (n : Node) : bool :=
  match n with
  | Location _ | Uniform | Scale _ => true
  | _ => false
  end.

(** [Detuning, RabiAmplitude, RabiPhase] *)
Definition is_field (n : Node) : bool :=
  match n with
  | Detuning | RabiAmplitude | RabiPhase => true
  | _ => false
  end.

(** [RabiAmplitude, RabiPhase] *)
Definition is_rabi_field (n : Node) : bool :=
  match n with
  | RabiAmplitude | RabiPhase => true
  | _ => false
  end.

(** [Rydberg, Hyperfine] *)
Definition is_coupling (n : Node) : bool :=
  match n with
  | Rydberg | Hyperfine => true
  | _ => false
  end.

Definition is_Sample (n : Node) : bool :=
  match n with
  | Sample _ _ => true
  | _ => false
  end.

Definition is_SequenceBuilder (n : Node) : bool :=
  match n with
  | SequenceBuilder _ => true
  | _ => false
  end.

(** [Assign, BatchAssign, ListAssign, Args, Parallelize] *)
Definition pragma_types (n : Node) : bool :=
  match n with
  | Assign _ | BatchAssign _ | ListAssign _ | Args _ | Parallelize _ => true
  | _ => false
  end.

(** Modelled from the spec: the values of [__bloqade_ir__()], one for
    each kind of node that the parser lowers. *)
Inductive IR : Type :=
| IRCoupling (c : ir.LevelCoupling)
| IRFieldName (f : ir.FieldName)
| IRSpatial (sm : ir.SpatialModulation)
| IRWaveform (w : ir.Waveform).

(** Modelled from the spec: [node.__bloqade_ir__()], which is missing.
    Couplings, fields, spatial modulations ("lowers to an IR key") and
    waveform primitives ("lowers to a Waveform leaf") lower to their IR;
    the other classes have no such method. *)
Definition __bloqade_ir__ (b : Builder) : Res IR :=
  match node_of b with
  | Rydberg => Ok (IRCoupling ir.rydberg)
  | Hyperfine => Ok (IRCoupling ir.hyperfine)
  | Detuning => Ok (IRFieldName ir.detuning)
  | RabiAmplitude => Ok (IRFieldName ir.rabi_amplitude)
  | RabiPhase => Ok (IRFieldName ir.rabi_phase)
  | Location label => Ok (IRSpatial (ir.Location label))
  | Uniform => Ok (IRSpatial ir.Uniform)
  | Scale value => Ok (IRSpatial (ir.Scale value))
  | WaveformPrimitive w => Ok (IRWaveform w)
  | Fn fn duration => Ok (IRWaveform (ir.PythonFn fn duration))
  | _ => Raise (AttributeError "__bloqade_ir__")
  end.

End builder.

(* ================================================================== *)
(** ** Circuits and routines

    [bloqade.ir.analog_circuit] and [bloqade.ir.routine] are not among
    the sources. *)

Module analog_circuit.
Import builder.

(** Modelled from the spec: [ir.AtomArrangement] and [ir.ParallelRegister],
    which are missing.  "The first node in the stream is always the
    register; read it directly": a register is the builder object at the
    head of a chain, and "ParallelRegister wraps a base register with a
    replication spacing": its [register] is the builder object of an
    arrangement, not another [ParallelRegister]. *)
Inductive Register : Type :=
| Arrangement (head : Builder)
| ParallelRegister (register : Builder) (cluster_spacing : Scalar).

(** Modelled from the spec: [ir.ParallelRegister(register,
    cluster_spacing)], which is missing; it "wraps a base register", and
    the typed constructor refuses [None] and a register that is wrapped
    already. *)
Definition ParallelRegister_of (register : option Register)
    (cluster_spacing : Scalar) : Res Register :=
  match register with
  | Some (Arrangement head) => Ok (ParallelRegister head cluster_spacing)
  | _ => Raise (ValidationError "ParallelRegister")
  end.

(** Modelled from the spec: "AnalogCircuit: pair (register, sequence)". *)
Record AnalogCircuit : Type := mkAnalogCircuit {
  register : Register;
  sequence : ir.Sequence
}.

(** Modelled from the spec: "Parameters: static_params, batch_params,
    args_list". *)
Record Params : Type := mkParams {
  static_params : list (string * ParamType);
  batch_params : list (list (string * ParamType));
  args_list : list string
}.

(** Modelled from the spec: the "compiled program bundle (builder +
    circuit + execution parameters)". *)
Record Routine : Type := mkRoutine {
  source : Builder;
  circuit : AnalogCircuit;
  params : Params
}.

End analog_circuit.

(* ================================================================== *)
(** ** BuilderStream

    [bloqade.builder.parse.stream] is not among the sources; section 4.1
    of the spec describes it. *)

Module BuilderStream.
Import builder.

(** Modelled from the spec: the class [BuilderNode], which is missing.  A
    node with its [next] links is the list of the builder objects from
    that node on: [node] is the head of the list and [next] its tail;
    [None] is the empty list. *)
Definition BuilderNode : Type := list Builder.

(** Modelled from the spec: the class [BuilderStream], which is missing:
    "an ordered, copyable, lookahead-capable cursor". *)
Record t : Type := mk { head : BuilderNode; curr : BuilderNode }.

(** Modelled from the spec: the walk of [create], "walking predecessor
    references back to the root". *)
Fixpoint ancestry (b : Builder) : list Builder :=
  match b with
  | Build _ None => [b]
  | Build _ (Some p) => b :: ancestry p
  end.

(** Modelled from the spec: [BuilderStream.create], which is missing; it
    "linearizes the ancestry of a terminal builder object (walking
    predecessor references back to the root, then reversing) into an
    ordered sequence of typed nodes". *)
Definition create (b : Builder) : t :=
  let nodes := rev (ancestry b) in mk nodes nodes.

(** Modelled from the spec: [copy], which is missing; it "produces an
    independent cursor over the same underlying sequence". *)
Definition copy (s : t) : t := s.

(** Modelled from the spec: [read], which is missing; it "returns the node
    at the cursor and advances it by one; fails (returns an
    empty/terminal result) at end of stream". *)
Definition read (s : t) : BuilderNode * t :=
  match curr s with
  | [] => ([], s)
  | _ :: next => (curr s, mk (head s) next)
  end.

(** Modelled from the spec: [read_next], which is missing; it "advances the
    cursor past any nodes not matching one of the given node-kind tags
    and returns the first match, or a terminal none marker if the stream
    is exhausted".  On the cursor: the first matching node and the
    cursor behind it. *)
Fixpoint read_next (types : Node -> bool) (curr : BuilderNode)
  : BuilderNode * BuilderNode :=
  match curr with
  | [] => ([], [])
  | b :: next =>
      if types (node_of b) then (curr, next) else read_next types next
  end.

End BuilderStream.

(* ================================================================== *)
(** ** class Parser  (builder/parse/builder.py) *)

Module Parser.
Import builder.
Import BuilderStream.
Import analog_circuit.

(** The attributes of a [Parser] instance.  [coupling_name] and
    [field_name] are not declared by the class and not assigned by
    [reset]: they exist on an instance only once [read_sequence] has
    assigned them; [None] stands for the attribute that is missing,
    and reading it raises [AttributeError]. *)
Record Parser : Type := mkParser {
  stream : option BuilderStream.t;
  vector_node_names : list string;
  sequence : ir.Sequence;
  register : option analog_circuit.Register;
  batch_params : list (list (string * ParamType));
  static_params : list (string * ParamType);
  order : list string;
  coupling_name : option ir.LevelCoupling;
  field_name : option ir.FieldName
}.

(** [Parser()]: the class attributes, lines 21 to 27. *)
Definition new : Parser :=
  mkParser None [] (ir.mkSequence []) None [[]] [] [] None None.

Definition set_sequence (self : Parser) (s : ir.Sequence) : Parser :=
  mkParser (stream self) (vector_node_names self) s (register self)
    (batch_params self) (static_params self) (order self)
    (coupling_name self) (field_name self).

Definition set_stream (self : Parser) (s : option BuilderStream.t) : Parser :=
  mkParser s (vector_node_names self) (sequence self) (register self)
    (batch_params self) (static_params self) (order self)
    (coupling_name self) (field_name self).

Definition set_register (self : Parser) (r : option Register) : Parser :=
  mkParser (stream self) (vector_node_names self) (sequence self) r
    (batch_params self) (static_params self) (order self)
    (coupling_name self) (field_name self).

Definition set_batch_params (self : Parser)
    (b : list (list (string * ParamType))) : Parser :=
  mkParser (stream self) (vector_node_names self) (sequence self)
    (register self) b (static_params self) (order self)
    (coupling_name self) (field_name self).

Definition set_static_params (self : Parser)
    (s : list (string * ParamType)) : Parser :=
  mkParser (stream self) (vector_node_names self) (sequence self)
    (register self) (batch_params self) s (order self)
    (coupling_name self) (field_name self).

Definition set_order (self : Parser) (o : list string) : Parser :=
  mkParser (stream self) (vector_node_names self) (sequence self)
    (register self) (batch_params self) (static_params self) o
    (coupling_name self) (field_name self).

Definition set_coupling_name (self : Parser) (c : ir.LevelCoupling) : Parser :=
  mkParser (stream self) (vector_node_names self) (sequence self)
    (register self) (batch_params self) (static_params self) (order self)
    (Some c) (field_name self).

Definition set_field_name (self : Parser) (f : ir.FieldName) : Parser :=
  mkParser (stream self) (vector_node_names self) (sequence self)
    (register self) (batch_params self) (static_params self) (order self)
    (coupling_name self) (Some f).

(** [self.attr] for an attribute that may be missing. *)
Definition getattr {A : Type} (attr : string) (x : option A) : Res A :=
  match x with
  | Some a => Ok a
  | None => Raise (AttributeError attr)
  end.

(** Lines 29 to 36. *)
Definition reset (self : Parser) (builder : Builder) : Parser :=
  mkParser (Some (BuilderStream.create builder)) [] (ir.mkSequence []) None
    [[]] [] [] (coupling_name self) (field_name self).

(** Lines 38 to 62.  The stream is passed as its cursor and returned as
    the cursor behind the node that was read.  The [while] loop of lines
    45 to 48 only moves the local [curr], which is not read again. *)
Definition read_address (stream_curr : BuilderNode)
  : Res ((option Builder * option Builder * BuilderNode) * BuilderNode) :=
  let '(spatial, stream_curr') :=
    BuilderStream.read_next SpatialModulation stream_curr in
  match spatial with
  | [] => Ok ((None, None, []), stream_curr')
  | spatial_node :: _ =>
      if type_in is_field (parent_of spatial_node) then
        match parent_of spatial_node with
        | None => Ok ((None, None, spatial), stream_curr')
        | Some field =>
            coupling <-
              (if is_rabi_field (node_of field) then
                 (* field.__parent__.__parent__ *)
                 rabi <- getattr "__parent__" (parent_of field) ;;
                 Ok (parent_of rabi)
               else Ok (parent_of field)) ;;
            let coupling :=
              if negb (type_in is_coupling coupling) then None else coupling in
            Ok ((coupling, Some field, spatial), stream_curr')
        end
      else Ok ((None, None, spatial), stream_curr')
  end.

(** Modelled from the spec: the typed constructors of the IR, which are
    missing, accept a value of [__bloqade_ir__()] of their own kind. *)
Definition as_waveform (v : IR) : Res ir.Waveform :=
  match v with
  | IRWaveform w => Ok w
  | _ => Raise (ValidationError "Waveform")
  end.

Definition as_spatial (v : IR) : Res ir.SpatialModulation :=
  match v with
  | IRSpatial sm => Ok sm
  | _ => Raise (ValidationError "SpatialModulation")
  end.

Definition as_coupling (v : IR) : Res ir.LevelCoupling :=
  match v with
  | IRCoupling c => Ok c
  | _ => Raise (ValidationError "LevelCoupling")
  end.

Definition as_field_name (v : IR) : Res ir.FieldName :=
  match v with
  | IRFieldName f => Ok f
  | _ => Raise (ValidationError "FieldName")
  end.

(** Lines 93 to 97: the branch of a waveform primitive. *)
Definition read_primitive (waveform : option ir.Waveform) (b : Builder)
  : Res (option ir.Waveform) :=
  v <- __bloqade_ir__ b ;;
  w <- as_waveform v ;;
  match waveform with
  | None => Ok (Some w)
  | Some acc => Ok (Some (ir.append acc w))
  end.

(** Lines 74 to 86: the branch of a [Sample] node. *)
Definition read_sample (self : Parser) (waveform : option ir.Waveform)
    (b : Builder) (_interpolation : option ir.Interpolation) (_dt : Scalar)
  : Res (option ir.Waveform) :=
  interpolation <-
    match _interpolation with
    | Some i => Ok i
    | None =>
        f <- getattr "field_name" (field_name self) ;;
        if ir.FieldName_eqb f ir.rabi_phase
        then Ok ir.Constant_ else Ok ir.Linear_
    end ;;
  p <- getattr "__bloqade_ir__" (parent_of b) ;;
  v <- __bloqade_ir__ p ;;
  fn_waveform <- as_waveform v ;;
  let sample_waveform := ir.Sample fn_waveform interpolation _dt in
  match waveform with
  | None => Ok (Some sample_waveform)
  | Some acc => Ok (Some (ir.append acc sample_waveform))
  end.

(** Lines 67 to 101: the loop of [read_waveform], from the accumulated
    [waveform] and the node [curr]. *)
Fixpoint read_waveform_loop (self : Parser) (waveform : option ir.Waveform)
    (curr : BuilderNode) : Res (option ir.Waveform * BuilderNode) :=
  match curr with
  | [] => Ok (waveform, [])
  | b :: next =>
      match node_of b with
      | Slice _start _stop =>
          match waveform with
          | None => Raise (TypeError "NoneType is not subscriptable")
          | Some w =>
              read_waveform_loop self (Some (ir.getitem w _start _stop)) next
          end
      | Record_ _name =>
          match waveform with
          | None => Raise (AttributeError "record")
          | Some w => read_waveform_loop self (Some (ir.record w _name)) next
          end
      | Sample _interpolation _dt =>
          waveform' <- read_sample self waveform b _interpolation _dt ;;
          read_waveform_loop self waveform' next
      | Fn _ _ =>
          if type_in is_Sample (hd_error next) then
            (* pass *)
            read_waveform_loop self waveform next
          else
            waveform' <- read_primitive waveform b ;;
            read_waveform_loop self waveform' next
      | WaveformPrimitive _ =>
          waveform' <- read_primitive waveform b ;;
          read_waveform_loop self waveform' next
      | _ => Ok (waveform, curr)
      end
  end.

(** Lines 64 to 103. *)
Definition read_waveform (self : Parser) (head : BuilderNode)
  : Res (option ir.Waveform * BuilderNode) :=
  read_waveform_loop self None head.

(** Modelled from the spec: [ir.Field({sm: wf})], which is missing; a field
    is a "mapping from SpatialModulation key to Waveform", and the typed
    constructor refuses another key and [None]. *)
Definition Field_singleton (sm : IR) (wf : option ir.Waveform)
  : Res ir.Field :=
  sm <- as_spatial sm ;;
  match wf with
  | Some w => Ok (ir.mkField [(sm, w)])
  | None => Raise (ValidationError "Field.drives")
  end.

(** Lines 105 to 112. *)
Definition read_drive (self : Parser) (head : BuilderNode) : Res ir.Field :=
  match head with
  | [] => Ok (ir.mkField [])
  | b :: next =>
      sm <- __bloqade_ir__ b ;;
      '(wf, _) <- read_waveform self next ;;
      Field_singleton sm wf
  end.

(** Lines 124 to 130: the sticky state takes what [read_address] found. *)
Definition update_names (self : Parser)
    (coupling_builder field_builder : option Builder) : Res Parser :=
  self <-
    match coupling_builder with
    | Some c =>
        v <- __bloqade_ir__ c ;; c' <- as_coupling v ;;
        Ok (set_coupling_name self c')
    | None => Ok self
    end ;;
  match field_builder with
  | Some f =>
      v <- __bloqade_ir__ f ;; f' <- as_field_name v ;;
      Ok (set_field_name self f')
  | None => Ok self
  end.

(** Lines 135 to 142: one drive is read at [spatial_head] and merged
    into the running sequence under the current coupling and field. *)
Definition merge_drive (self : Parser) (spatial_head : BuilderNode)
  : Res Parser :=
  c <- getattr "coupling_name" (coupling_name self) ;;
  let pulse :=
    match dict_get ir.LevelCoupling_eqb (ir.pulses (sequence self)) c with
    | Some p => p
    | None => ir.mkPulse []
    end in
  f <- getattr "field_name" (field_name self) ;;
  let field :=
    match dict_get ir.FieldName_eqb (ir.fields pulse) f with
    | Some fd => fd
    | None => ir.mkField []
    end in
  drive <- read_drive self spatial_head ;;
  let field := ir.Field_add field drive in
  let pulse := ir.mkPulse (dict_set ir.FieldName_eqb (ir.fields pulse) f field) in
  Ok (set_sequence self
        (ir.mkSequence
           (dict_set ir.LevelCoupling_eqb (ir.pulses (sequence self)) c pulse))).

(** Lines 121 to 142: the [while] loop of [read_sequence] over the copy
    of the stream.  Every turn reads at least one node, so the loop takes
    at most as many turns as the stream has nodes; [fuel] bounds them. *)
Fixpoint read_sequence_loop (fuel : nat) (self : Parser)
    (stream_curr : BuilderNode) : Res Parser :=
  match stream_curr with
  | [] => Ok self
  | _ :: _ =>
      match fuel with
      | O => Raise OutOfFuel
      | S fuel' =>
          '((coupling_builder, field_builder, spatial_head), stream_curr') <-
            read_address stream_curr ;;
          self <- update_names self coupling_builder field_builder ;;
          match spatial_head with
          | [] => Ok self
          | _ :: _ =>
              self <- merge_drive self spatial_head ;;
              read_sequence_loop fuel' self stream_curr'
          end
      end
  end.

(** Lines 114 to 144. *)
Definition read_sequence (self : Parser) : Res Parser :=
  s <- getattr "curr" (stream self) ;;
  match BuilderStream.curr s with
  | [] => Raise (AttributeError "node")
  | b :: _ =>
      match node_of b with
      | SequenceBuilder _sequence =>
          let '(_, s') := BuilderStream.read s in
          Ok (set_sequence (set_stream self (Some s')) _sequence)
      | _ =>
          let stream_curr := BuilderStream.curr (BuilderStream.copy s) in
          read_sequence_loop (List.length stream_curr) self stream_curr
      end
  end.

(** Lines 146 to 151. *)
Definition read_register (self : Parser) : Res Parser :=
  s <- getattr "read" (stream self) ;;
  let '(register_node, s') := BuilderStream.read s in
  match register_node with
  | [] => Raise (AttributeError "node")
  | b :: _ => Ok (set_register (set_stream self (Some s')) (Some (Arrangement b)))
  end.

(** Lines 175 to 181: the names of [order] that were seen before. *)
Fixpoint duplicates (seen : list string) (order : list string) : list string :=
  match order with
  | [] => []
  | x :: order' =>
      if negb (existsb (String.eqb x) seen)
      then duplicates (x :: seen) order'
      else x :: duplicates seen order'
  end.

(** Lines 186 to 187: [set([*order]).intersection(vector_node_names)]. *)
Definition intersection (order_names vector_node_names : list string)
  : list string :=
  filter (fun x => existsb (String.eqb x) vector_node_names) order_names.

(** Lines 172 to 194: the branch of an [Args] node. *)
Definition read_args (self : Parser) (_order : list string) : Res Parser :=
  let dup := duplicates [] _order in
  match dup with
  | _ :: _ => Raise (ValueError (DuplicateNames dup))
  | [] =>
      let vector_names := intersection _order (vector_node_names self) in
      match vector_names with
      | _ :: _ => Raise (ValueError (RunTimeVectorArguments vector_names))
      | [] => Ok (set_order self _order)
      end
  end.

(** Lines 165 to 203: the loop of [read_pragmas]. *)
Fixpoint read_pragmas_loop (self : Parser) (curr : BuilderNode) : Res Parser :=
  match curr with
  | [] => Ok self
  | b :: next =>
      match node_of b with
      | Assign _static_params =>
          read_pragmas_loop (set_static_params self _static_params) next
      | BatchAssign _batch_params | ListAssign _batch_params =>
          read_pragmas_loop (set_batch_params self _batch_params) next
      | Args _order =>
          self <- read_args self _order ;;
          read_pragmas_loop self next
      | Parallelize _cluster_spacing =>
          r <- ParallelRegister_of (register self) _cluster_spacing ;;
          read_pragmas_loop (set_register self (Some r)) next
      | _ => Ok self
      end
  end.

(** Lines 153 to 203. *)
Definition read_pragmas (self : Parser) : Res Parser :=
  s <- getattr "copy" (stream self) ;;
  let '(curr, _) :=
    BuilderStream.read_next pragma_types
      (BuilderStream.curr (BuilderStream.copy s)) in
  read_pragmas_loop self curr.

(** Modelled from the spec: [AnalogCircuit(self.register, self.sequence)],
    which is missing; a circuit is the "pair (register, sequence)", and
    the typed constructor refuses [None]. *)
Definition make_circuit (self : Parser) : Res AnalogCircuit :=
  match register self with
  | Some r => Ok (mkAnalogCircuit r (sequence self))
  | None => Raise (ValidationError "AnalogCircuit.register")
  end.

(** Lines 205 to 211.  A call returns its value and leaves the parser
    in its new state. *)
Definition parse_register (self : Parser) (builder : Builder)
  : Res (option Register * Parser) :=
  let self := reset self builder in
  self <- read_register self ;;
  self <- read_pragmas self ;;
  Ok (register self, self).

(** Lines 213 to 216. *)
Definition parse_sequence (self : Parser) (builder : Builder)
  : Res (ir.Sequence * Parser) :=
  let self := reset self builder in
  self <- read_sequence self ;;
  Ok (sequence self, self).

(** Lines 218 to 227. *)
Definition parse_circuit (self : Parser) (builder : Builder)
  : Res (AnalogCircuit * Parser) :=
  let self := reset self builder in
  self <- read_register self ;;
  self <- read_sequence self ;;
  circuit <- make_circuit self ;;
  Ok (circuit, self).

(** Lines 229 to 246. *)
Definition parse (self : Parser) (builder : Builder)
  : Res (Routine * Parser) :=
  let self := reset self builder in
  self <- read_register self ;;
  self <- read_sequence self ;;
  self <- read_pragmas self ;;
  let params := mkParams (static_params self) (batch_params self) (order self) in
  circuit <- make_circuit self ;;
  Ok (mkRoutine builder circuit params, self).

End Parser.

(* ================================================================== *)
(** ** The value layer of waveforms

    The methods [duration] and [eval_decimal] of the waveform classes
    ([bloqade.ir.control.waveform]) are not among the sources; the
    analysis calls them and passes their exceptions on.  They are an
    interface here, and the analysis is stated for every implementation
    of it. *)

Class WaveformLayer : Type := {
  duration : ir.Waveform -> Assignments -> Res Decimal;
  eval_decimal : ir.Waveform -> Decimal -> Assignments -> Res Decimal
}.

(* ================================================================== *)
(** ** class IsConstantWaveform  (ir/analysis/is_constant.py) *)

Module IsConstantWaveform.
Section Visitor.
Context {layer : WaveformLayer}.
Variable assignments : Assignments.

Record IsConstantWaveformResult : Type := mkResult {
  is_constant : bool;
  constant_waveform : ir.Waveform
}.

(** [waveform.Constant(value, duration)] on two decimals. *)
Definition Constant_of (value duration : Decimal) : ir.Waveform :=
  ir.Constant (Literal value) (Literal duration).

(** [self.visit(ast)], lines 26 to 86: the visitor dispatches on the
    class of [ast]; [is_constant] is the attribute [self.is_constant]
    before the call, the result is the attribute after it.  The loop of
    [visit_append] runs [emit] on a fresh visitor for every part, which
    is [visit] from [True] followed by the two calls of lines 90 and 91. *)
Fixpoint visit (ast : ir.Waveform) (is_constant : bool) {struct ast}
  : Res bool :=
  match ast with
  | ir.Constant _ _ => Ok is_constant
  | ir.Linear start stop _ =>
      stop_value <- call stop assignments ;;
      start_value <- call start assignments ;;
      let diff := (stop_value - start_value)%Q in
      Ok (is_constant && Qeq_bool diff 0)
  | ir.Poly coeffs _ =>
      coeffs <- mapM (fun coeff => call coeff assignments) coeffs ;;
      if existsb (fun coeff => negb (Qeq_bool coeff 0)) (tl coeffs)
      then Ok false
      else Ok is_constant
  | ir.PythonFn _ _ => Ok false
  | ir.Append waveforms =>
      (fix loop (wfs : list ir.Waveform) (value : option Decimal)
           (is_constant : bool) {struct wfs} : Res bool :=
         match wfs with
         | [] => Ok is_constant
         | wf :: wfs' =>
             result_is_constant <- visit wf true ;;
             d <- duration wf assignments ;;
             v <- eval_decimal wf d assignments ;;
             let value := match value with None => v | Some x => x end in
             let is_constant :=
               (is_constant && result_is_constant) && Qeq_bool v value in
             if negb is_constant then Ok is_constant
             else loop wfs' (Some value) is_constant
         end) waveforms None is_constant
  | ir.Add ast_left ast_right =>
      left_duration <- duration ast_left assignments ;;
      right_duration <- duration ast_right assignments ;;
      if negb (Qeq_bool left_duration right_duration) then Ok false
      else
        is_constant <- visit ast_left is_constant ;;
        visit ast_right is_constant
  | ir.AlignedWaveform waveform _
  | ir.Negative waveform
  | ir.Record_ waveform _
  | ir.Sample waveform _ _
  | ir.Scale_ waveform _
  | ir.Slice waveform _ _
  | ir.Smooth waveform _ => visit waveform is_constant
  end.

(** Lines 88 to 95, on a visitor whose [is_constant] is [self_is_constant]. *)
Definition emit_from (self_is_constant : bool) (ast : ir.Waveform)
  : Res IsConstantWaveformResult :=
  is_constant <- visit ast self_is_constant ;;
  d <- duration ast assignments ;;
  value <- eval_decimal ast d assignments ;;
  let wf := Constant_of value d in
  Ok (mkResult is_constant wf).

(** [IsConstantWaveform(assignments).emit(ast)]: line 24 starts the
    visitor at [is_constant = True]. *)
Definition emit (ast : ir.Waveform) : Res IsConstantWaveformResult :=
  emit_from true ast.

(** The [value] attribute of a folded constant. *)
Definition value_of (w : ir.Waveform) : Decimal :=
  match w with
  | ir.Constant (Literal v) _ => v
  | _ => 0%Q
  end.

(** Lines 42 to 54, with the inner call written as [emit]. *)
Fixpoint visit_append (wfs : list ir.Waveform) (value : option Decimal)
    (self_is_constant : bool) : Res bool :=
  match wfs with
  | [] => Ok self_is_constant
  | wf :: wfs' =>
      result <- emit wf ;;
      let v := value_of (constant_waveform result) in
      let value := match value with None => v | Some x => x end in
      let self_is_constant :=
        (self_is_constant && is_constant result) && Qeq_bool v value in
      if negb self_is_constant then Ok self_is_constant
      else visit_append wfs' (Some value) self_is_constant
  end.

End Visitor.
End IsConstantWaveform.

(* ================================================================== *)
(** ** class IsConstantAnalogCircuit  (ir/analysis/is_constant.py) *)

Module IsConstantAnalogCircuit.
Import analog_circuit.
Section Visitor.
Context {layer : WaveformLayer}.
Variable assignments : Assignments.

Record IsConstantAnalogCircuitResult : Type := mkResult {
  is_constant : bool;
  effective_analog_circuit : AnalogCircuit
}.

(** The attributes [is_constant] and [duration] of the visitor; the
    attributes [waveform], [field], [pulse], [sequence] and
    [analog_circuit] hold the value of the last visit and are returned
    by it here. *)
Record State : Type := mkState {
  self_is_constant : bool;
  self_duration : option Decimal
}.

(** Lines 109 to 112. *)
Definition init : State := mkState true None.

(** Lines 114 to 122. *)
Definition visit_waveform (self : State) (ast : ir.Waveform)
  : Res (State * ir.Waveform) :=
  result <- IsConstantWaveform.emit assignments ast ;;
  let is_constant :=
    self_is_constant self && IsConstantWaveform.is_constant result in
  let waveform := IsConstantWaveform.constant_waveform result in
  d <- duration waveform assignments ;;
  match self_duration self with
  | None => Ok (mkState is_constant (Some d), waveform)
  | Some d0 =>
      if negb (Qeq_bool d0 d)
      then Ok (mkState false (Some d0), waveform)
      else Ok (mkState is_constant (Some d0), waveform)
  end.

(** Lines 124 to 129: the loop over [ast.drives.items()]. *)
Fixpoint visit_drives (self : State) (field : ir.Field)
    (items : list (ir.SpatialModulation * ir.Waveform))
  : Res (State * ir.Field) :=
  match items with
  | [] => Ok (self, field)
  | (sm, wf) :: items' =>
      '(self, waveform) <- visit_waveform self wf ;;
      visit_drives self (ir.Field_add field (ir.mkField [(sm, waveform)])) items'
  end.

Definition visit_field (self : State) (ast : ir.Field)
  : Res (State * ir.Field) :=
  visit_drives self (ir.mkField []) (ir.drives ast).

(** Lines 131 to 135. *)
Fixpoint visit_fields (self : State) (pulse : ir.Pulse)
    (items : list (ir.FieldName * ir.Field)) : Res (State * ir.Pulse) :=
  match items with
  | [] => Ok (self, pulse)
  | (fn, fd) :: items' =>
      '(self, field) <- visit_field self fd ;;
      visit_fields self
        (ir.mkPulse (dict_set ir.FieldName_eqb (ir.fields pulse) fn field))
        items'
  end.

Definition visit_pulse (self : State) (ast : ir.Pulse)
  : Res (State * ir.Pulse) :=
  visit_fields self (ir.mkPulse []) (ir.fields ast).

(** Lines 137 to 141. *)
Fixpoint visit_pulses (self : State) (sequence : ir.Sequence)
    (items : list (ir.LevelCoupling * ir.Pulse)) : Res (State * ir.Sequence) :=
  match items with
  | [] => Ok (self, sequence)
  | (pn, ps) :: items' =>
      '(self, pulse) <- visit_pulse self ps ;;
      visit_pulses self
        (ir.mkSequence
           (dict_set ir.LevelCoupling_eqb (ir.pulses sequence) pn pulse))
        items'
  end.

Definition visit_sequence (self : State) (ast : ir.Sequence)
  : Res (State * ir.Sequence) :=
  visit_pulses self (ir.mkSequence []) (ir.pulses ast).

(** Lines 143 to 145. *)
Definition visit_analog_circuit (self : State) (ast : AnalogCircuit)
  : Res (State * AnalogCircuit) :=
  '(self, sequence) <- visit_sequence self (analog_circuit.sequence ast) ;;
  Ok (self, mkAnalogCircuit (analog_circuit.register ast) sequence).

(** Lines 147 to 149, on a new visitor. *)
Definition emit (ast : AnalogCircuit) : Res IsConstantAnalogCircuitResult :=
  '(self, analog_circuit) <- visit_analog_circuit init ast ;;
  Ok (mkResult (self_is_constant self) analog_circuit).

End Visitor.
End IsConstantAnalogCircuit.

(* ================================================================== *)
(** ** An implementation of the value layer

    The value layer of the waveform classes is not among the sources.
    The layer below follows section 3 of the spec; the analysis is
    stated for every layer, and evaluated on this one. *)

Module spec_layer.

(** Modelled from the spec: [waveform.duration], which is missing.
    [Constant(value, duration)], [Linear(start, stop, duration)],
    [Poly(coeffs, duration)] and [OpaqueFn(duration)] have their duration
    field; [Append] is the "sequential concatenation in time"; [Slice]
    "crops the domain"; [Negative], [Record] and [Scale] keep the
    duration of the inner waveform.  For an [Add] of operands of
    different durations section 9 leaves open whether the layer raises;
    property P6 expects the analysis to return, and this layer returns
    the longer duration.  The spec gives no rule to evaluate [Aligned],
    [Sample] and [Smooth]; this layer raises [Unevaluated] on them. *)
Fixpoint duration_of (a : Assignments) (w : ir.Waveform) : Res Decimal :=
  match w with
  | ir.Constant _ d | ir.Linear _ _ d | ir.Poly _ d | ir.PythonFn _ d =>
      call d a
  | ir.Append ws =>
      (fix total (ws : list ir.Waveform) : Res Decimal :=
         match ws with
         | [] => Ok 0%Q
         | w :: ws' =>
             d <- duration_of a w ;; ds <- total ws' ;; Ok (Qred (d + ds))
         end) ws
  | ir.Add l r =>
      dl <- duration_of a l ;; dr <- duration_of a r ;;
      Ok (if Qle_bool dl dr then dr else dl)
  | ir.Negative w | ir.Record_ w _ | ir.Scale_ w _ => duration_of a w
  | ir.Slice w start stop =>
      hi <- match stop with
            | Some s => call s a
            | None => duration_of a w
            end ;;
      lo <- match start with
            | Some s => call s a
            | None => Ok 0%Q
            end ;;
      Ok (Qred (hi - lo))
  | ir.AlignedWaveform _ _ => Raise (Unevaluated "AlignedWaveform")
  | ir.Sample _ _ _ => Raise (Unevaluated "Sample")
  | ir.Smooth _ _ => Raise (Unevaluated "Smooth")
  end.

(** Modelled from the spec: [waveform.eval_decimal], which is missing: the
    value of [Constant], the ramp of [Linear] from [start] to [stop],
    the polynomial of [Poly], the "externally supplied function of time"
    of [OpaqueFn], the part of an [Append] that holds the time, the
    "pointwise sum" of [Add], and the inner value negated, scaled or
    shifted for [Negative], [Scale] and [Slice].  Results are kept in
    lowest terms. *)
Fixpoint value_at (a : Assignments) (w : ir.Waveform) (t : Decimal)
  : Res Decimal :=
  match w with
  | ir.Constant v _ => v <- call v a ;; Ok (Qred v)
  | ir.Linear start stop d =>
      start <- call start a ;; stop <- call stop a ;; d <- call d a ;;
      if Qeq_bool d 0 then Raise (Unevaluated "division by zero")
      else Ok (Qred (((stop - start) / d) * t + start))
  | ir.Poly coeffs _ =>
      cs <- mapM (fun c => call c a) coeffs ;;
      Ok (Qred (fold_right (fun c acc => c + t * acc) 0 cs))%Q
  | ir.PythonFn fn _ => Ok (Qred (fn t))
  | ir.Append ws =>
      (fix part (ws : list ir.Waveform) (t : Decimal) : Res Decimal :=
         match ws with
         | [] => Ok 0%Q
         | w :: ws' =>
             d <- duration_of a w ;;
             if Qle_bool t d then value_at a w t else part ws' (Qred (t - d))
         end) ws t
  | ir.Add l r =>
      x <- value_at a l t ;; y <- value_at a r t ;; Ok (Qred (x + y))
  | ir.Negative w => x <- value_at a w t ;; Ok (Qred (- x))
  | ir.Record_ w _ => value_at a w t
  | ir.Scale_ w s => s <- call s a ;; x <- value_at a w t ;; Ok (Qred (s * x))
  | ir.Slice w start _ =>
      lo <- match start with
            | Some s => call s a
            | None => Ok 0%Q
            end ;;
      value_at a w (Qred (t + lo))
  | ir.AlignedWaveform _ _ => Raise (Unevaluated "AlignedWaveform")
  | ir.Sample _ _ _ => Raise (Unevaluated "Sample")
  | ir.Smooth _ _ => Raise (Unevaluated "Smooth")
  end.

(** Modelled from the spec: the value layer made of the two functions
    above. *)
Definition layer : WaveformLayer :=
  {| duration := fun w a => duration_of a w;
     eval_decimal := fun w t a => value_at a w t |}.

End spec_layer.

(* ================================================================== *)
(** ** Definitions that follow the words of the specification *)

Module Spec.
Import builder BuilderStream analog_circuit.

(** "[a new current coupling only when that field is RabiAmplitude or
    RabiPhase]": whenever [read_address] reports a coupling, the field
    it reports is one of the two Rabi fields. *)
Definition coupling_only_under_rabi (stream_curr : BuilderNode) : Prop :=
  forall coupling field spatial rest c,
    Parser.read_address stream_curr = Ok ((coupling, field, spatial), rest) ->
    coupling = Some c ->
    exists f, field = Some f /\ is_rabi_field (node_of f) = true.

(** The node kinds that [read_waveform] folds into a waveform. *)
Definition is_waveform_node (n : Node) : bool :=
  match n with
  | Slice _ _ | Record_ _ | Sample _ _ | Fn _ _ | WaveformPrimitive _ => true
  | _ => false
  end.

(** A primitive waveform node and the waveform it lowers to: a
    primitive shape, or a function that no [Sample] node follows. *)
Definition primitive_lowering (b : Builder) (next : BuilderNode)
  : option ir.Waveform :=
  match node_of b with
  | WaveformPrimitive w => Some w
  | Fn fn d =>
      if type_in is_Sample (hd_error next) then None
      else Some (ir.PythonFn fn d)
  | _ => None
  end.

(** "appended if a waveform is already accumulated, else becomes the
    initial one" *)
Definition accumulate (acc : option ir.Waveform) (w : ir.Waveform)
  : ir.Waveform :=
  match acc with
  | None => w
  | Some a => ir.Append [a; w]
  end.

(** "default to Constant when current field is RabiPhase, else Linear" *)
Definition default_interpolation (f : ir.FieldName) : ir.Interpolation :=
  match f with
  | ir.rabi_phase => ir.Constant_
  | _ => ir.Linear_
  end.



(** The stream position of a sequence pass whose first drive is not
    scoped by a field: the pass scans (the node at the cursor is not a
    precomputed sequence), a spatial node remains, and its parent is
    none of [Detuning], [RabiAmplitude], [RabiPhase]. *)
Definition first_drive_unscoped (stream_curr : BuilderNode) : Prop :=
  type_in is_SequenceBuilder (hd_error stream_curr) = false /\
  exists spatial next rest,
    read_next SpatialModulation stream_curr = (spatial :: next, rest) /\
    type_in is_field (parent_of spatial) = false.

(** The waveforms of a circuit, in the order of the dictionaries. *)
Definition waveforms_of_field (fd : ir.Field) : list ir.Waveform :=
  map snd (ir.drives fd).

Definition waveforms_of_pulse (p : ir.Pulse) : list ir.Waveform :=
  flat_map (fun kv => waveforms_of_field (snd kv)) (ir.fields p).

Definition waveforms_of_sequence (s : ir.Sequence) : list ir.Waveform :=
  flat_map (fun kv => waveforms_of_pulse (snd kv)) (ir.pulses s).

(** A circuit with every waveform leaf replaced by its image under [g]. *)
Definition map_field (g : ir.Waveform -> ir.Waveform) (fd : ir.Field)
  : ir.Field :=
  ir.mkField (map (fun kv => (fst kv, g (snd kv))) (ir.drives fd)).

Definition map_pulse (g : ir.Waveform -> ir.Waveform) (p : ir.Pulse)
  : ir.Pulse :=
  ir.mkPulse (map (fun kv => (fst kv, map_field g (snd kv))) (ir.fields p)).

Definition map_sequence (g : ir.Waveform -> ir.Waveform) (s : ir.Sequence)
  : ir.Sequence :=
  ir.mkSequence (map (fun kv => (fst kv, map_pulse g (snd kv))) (ir.pulses s)).

Definition map_circuit (g : ir.Waveform -> ir.Waveform) (c : AnalogCircuit)
  : AnalogCircuit :=
  mkAnalogCircuit (register c) (map_sequence g (sequence c)).

(** The keys of every dictionary of a sequence are pairwise different,
    as the keys of a Python dictionary are. *)
Definition unique_field (fd : ir.Field) : bool :=
  unique_keys ir.SpatialModulation_eqb (ir.drives fd).

Definition unique_pulse (p : ir.Pulse) : bool :=
  unique_keys ir.FieldName_eqb (ir.fields p)
  && forallb (fun kv => unique_field (snd kv)) (ir.fields p).

Definition unique_sequence (s : ir.Sequence) : bool :=
  unique_keys ir.LevelCoupling_eqb (ir.pulses s)
  && forallb (fun kv => unique_pulse (snd kv)) (ir.pulses s).

Section Folding.
Context {layer : WaveformLayer}.
Variable assignments : Assignments.

(** The folded representative of a waveform, its verdict and its total
    duration, as [IsConstantWaveform(assignments).emit] gives them. *)
Definition folded (w : ir.Waveform) : ir.Waveform :=
  match IsConstantWaveform.emit assignments w with
  | Ok r => IsConstantWaveform.constant_waveform r
  | Raise _ => w
  end.

Definition individually_constant (w : ir.Waveform) : bool :=
  match IsConstantWaveform.emit assignments w with
  | Ok r => IsConstantWaveform.is_constant r
  | Raise _ => false
  end.

Definition total_duration (w : ir.Waveform) : Decimal :=
  match duration w assignments with
  | Ok d => d
  | Raise _ => 0%Q
  end.

(** The analysis of every waveform of the list returns. *)
Definition emits (ws : list ir.Waveform) : Prop :=
  forall w, In w ws -> exists r, IsConstantWaveform.emit assignments w = Ok r.

(** The verdict and the reference duration of the circuit visitor after
    one more waveform: the verdict stays true when the waveform is
    individually constant and has the duration of the first waveform
    that was visited. *)
Definition step (self : IsConstantAnalogCircuit.State) (w : ir.Waveform)
  : IsConstantAnalogCircuit.State :=
  let is_constant :=
    IsConstantAnalogCircuit.self_is_constant self && individually_constant w in
  match IsConstantAnalogCircuit.self_duration self with
  | None => IsConstantAnalogCircuit.mkState is_constant (Some (total_duration w))
  | Some d0 =>
      IsConstantAnalogCircuit.mkState
        (is_constant && Qeq_bool d0 (total_duration w)) (Some d0)
  end.

Definition run (self : IsConstantAnalogCircuit.State)
    (ws : list ir.Waveform) : IsConstantAnalogCircuit.State :=
  fold_left step ws self.

End Folding.

(** The exceptions that reading the register and the sequence can
    raise: a missing attribute, an operation on [None], a typed
    constructor that refuses its argument. *)
Definition reading_error (e : Error) : Prop :=
  match e with
  | AttributeError _ | TypeError _ | ValidationError _ => True
  | _ => False
  end.

(** The names of the per-site symbolic scale variables that the drives
    of a chain use. *)
Definition scale_variables (chain : BuilderNode) : list string :=
  flat_map
    (fun b =>
       match node_of b with
       | Scale (ir.RunTimeVector name) => [name]
       | _ => []
       end)
    chain.

End Spec.

(* ================================================================== *)
(** ** Builder chains used as concrete inputs *)

Module Examples.
Import builder BuilderStream analog_circuit.

Definition linear01 : ir.Waveform :=
  ir.Linear (Literal 0) (Literal 1) (Literal 1).

Definition linear10 : ir.Waveform :=
  ir.Linear (Literal 1) (Literal 0) (Literal 1).

(** start *)
Definition start : Builder := Build (AtomArrangement [(0, 0)%Q]) None.

(** start.rydberg.detuning.uniform *)
Definition rydberg_detuning_uniform : Builder :=
  Build Uniform (Some (Build Detuning (Some (Build Rydberg (Some start))))).

(** start.rydberg.rabi.amplitude.uniform *)
Definition rydberg_amplitude_uniform : Builder :=
  Build Uniform
    (Some (Build RabiAmplitude
       (Some (Build Rabi (Some (Build Rydberg (Some start))))))).

(** start.rydberg.detuning.uniform.linear(0, 1, 1) *)
Definition chain_scoped : Builder :=
  Build (WaveformPrimitive linear01) (Some rydberg_detuning_uniform).

(** Uniform(start).linear(0, 1, 1): the spatial node has the register as
    its parent. *)
Definition chain_unscoped : Builder :=
  Build (WaveformPrimitive linear01) (Some (Build Uniform (Some start))).

(** [chain_unscoped] followed by .hyperfine.detuning.uniform.linear(1, 0, 1) *)
Definition chain_unscoped_then_hyperfine : Builder :=
  Build (WaveformPrimitive linear10)
    (Some (Build Uniform
       (Some (Build Detuning (Some (Build Hyperfine (Some chain_unscoped))))))).

(** start.rydberg.detuning.uniform.linear(0, 1, 1).uniform.linear(0, 1, 1) *)
Definition chain_same_key : Builder :=
  Build (WaveformPrimitive linear01) (Some (Build Uniform (Some chain_scoped))).

(** start.rydberg.detuning.uniform.linear(0, 1, 1).linear(1, 0, 1) *)
Definition chain_two_primitives : Builder :=
  Build (WaveformPrimitive linear10) (Some chain_scoped).

(** start.rydberg.rabi.phase.uniform.fn(f, 1) *)
Definition chain_phase_fn : Builder :=
  Build (Fn (fun t => t) (Literal 1))
    (Some (Build Uniform
       (Some (Build RabiPhase
          (Some (Build Rabi (Some (Build Rydberg (Some start))))))))).

(** start.rydberg.rabi.phase.uniform.fn(f, 1).sample(dt) *)
Definition chain_phase_sample : Builder :=
  Build (Sample None (Literal (1 # 10))) (Some chain_phase_fn).

(** start.rydberg.detuning.scale("a").linear(0, 1, 1).args(["a"]) *)
Definition chain_scale_args : Builder :=
  Build (Args ["a"])
    (Some (Build (WaveformPrimitive linear01)
       (Some (Build (Scale (ir.RunTimeVector "a"))
          (Some (Build Detuning (Some (Build Rydberg (Some start))))))))).

(** start.args(["a", "b", "a"]) *)
Definition chain_duplicate_args : Builder :=
  Build (Args ["a"; "b"; "a"]) (Some start).

(** start.<coupling>.detuning.<spatial>.<a>.<spatial>.<b>: two drives
    on one spatial key under one coupling; the second spatial node has
    the first waveform as its parent. *)
Definition two_drives (coupling spatial : Node) (a b : ir.Waveform) : Builder :=
  Build (WaveformPrimitive b)
    (Some (Build spatial
       (Some (Build (WaveformPrimitive a)
          (Some (Build spatial
             (Some (Build Detuning
                (Some (Build coupling (Some start))))))))))).

Definition coupling_of (n : Node) : ir.LevelCoupling :=
  match n with
  | Hyperfine => ir.hyperfine
  | _ => ir.rydberg
  end.

Definition key_of (n : Node) : ir.SpatialModulation :=
  match n with
  | Location label => ir.Location label
  | Scale value => ir.Scale value
  | _ => ir.Uniform
  end.

(** A circuit of two constant drives of the duration 2, and a circuit
    whose second drive has the duration 3. *)
Definition constant_circuit : AnalogCircuit :=
  mkAnalogCircuit (Arrangement start)
    (ir.mkSequence
       [(ir.rydberg,
         ir.mkPulse
           [(ir.detuning,
             ir.mkField
               [(ir.Uniform, ir.Linear (Literal 1) (Literal 1) (Literal 2))]);
            (ir.rabi_amplitude,
             ir.mkField
               [(ir.Uniform, ir.Constant (Literal 3) (Literal 2))])])]).

Definition uneven_circuit : AnalogCircuit :=
  mkAnalogCircuit (Arrangement start)
    (ir.mkSequence
       [(ir.rydberg,
         ir.mkPulse
           [(ir.detuning,
             ir.mkField
               [(ir.Uniform, ir.Linear (Literal 1) (Literal 1) (Literal 2))]);
            (ir.rabi_amplitude,
             ir.mkField
               [(ir.Uniform, ir.Constant (Literal 3) (Literal 3))])])]).

Definition folded_circuit (d : Decimal) : AnalogCircuit :=
  mkAnalogCircuit (Arrangement start)
    (ir.mkSequence
       [(ir.rydberg,
         ir.mkPulse
           [(ir.detuning,
             ir.mkField
               [(ir.Uniform, ir.Constant (Literal 1) (Literal 2))]);
            (ir.rabi_amplitude,
             ir.mkField
               [(ir.Uniform, ir.Constant (Literal 3) (Literal d))])])]).

(** The sequence a call returns, and the parser it leaves. *)
Definition sequence_of (r : Res (Routine * Parser.Parser)) : Res ir.Sequence :=
  '(routine, _) <- r ;; Ok (sequence (circuit routine)).

Definition args_of (r : Res (Routine * Parser.Parser)) : Res (list string) :=
  '(routine, _) <- r ;; Ok (args_list (params routine)).

Definition parser_after {A : Type} (r : Res (A * Parser.Parser))
  : Parser.Parser :=
  match r with
  | Ok (_, p) => p
  | Raise _ => Parser.new
  end.

Definition one_drive (c : ir.LevelCoupling) (f : ir.FieldName)
    (k : ir.SpatialModulation) (w : ir.Waveform) : ir.Sequence :=
  ir.mkSequence [(c, ir.mkPulse [(f, ir.mkField [(k, w)])])].

End Examples.

(* ================================================================== *)
(** ** Remote tasks  (task/braket.py, submission/braket.py) *)

Module braket.

(** The status codes of [bloqade.submission.ir.task_results], which is
    not among the sources: the members that the source names, and any
    other member under its name. *)
Inductive QuEraTaskStatusCode : Type :=
| Unsubmitted
| Enqueued
| Completed
| Partial
| Failed
| Unaccepted
| Cancelled
| OtherCode (name : string).

Definition QuEraTaskStatusCode_eqb (a b : QuEraTaskStatusCode) : bool :=
  match a, b with
  | Unsubmitted, Unsubmitted
  | Enqueued, Enqueued
  | Completed, Completed
  | Partial, Partial
  | Failed, Failed
  | Unaccepted, Unaccepted
  | Cancelled, Cancelled => true
  | OtherCode x, OtherCode y => String.eqb x y
  | _, _ => false
  end.

(** The exceptions of the two files: the two [ValueError]s of the task,
    the [ValidationError] that [validate] catches, the [AttributeError]
    of an attribute read on [None], and what the service raises. *)
Inductive Exception : Type :=
| ValueError (message : string)
| ValidationError (message : string)
| AttributeError (attr : string)
| ServiceError (message : string).

(** The types that the two files take from modules that are not among
    the sources: the task specification, the metadata, the decoder and
    the task results.  Of the results the source reads [task_status],
    and it builds the results of a status alone. *)
Class TaskTypes : Type := {
  QuEraTaskSpecification : Type;
  Metadata : Type;
  ParallelDecoder : Type;
  QuEraTaskResults : Type;
  task_status : QuEraTaskResults -> QuEraTaskStatusCode;
  results_of_status : QuEraTaskStatusCode -> QuEraTaskResults;
  task_status_of_status :
    forall status, task_status (results_of_status status) = status
}.

(** What the backend calls outside the repository: the conversion of a
    task and the run on the device of an arn, and the result, the
    cancellation and the state of the quantum task of an id.  A call
    replies or raises, and leaves the service in a new state. *)
Class Service `{TaskTypes} : Type := {
  World : Type;
  device_run :
    string -> QuEraTaskSpecification -> World -> (Exception + string) * World;
  quantum_task_result :
    string -> World -> (Exception + QuEraTaskResults) * World;
  quantum_task_cancel : string -> World -> (Exception + unit) * World;
  quantum_task_state :
    string -> World -> (Exception + QuEraTaskStatusCode) * World
}.

Section Task.
Context `{service : Service}.

(** class BraketBackend, submission/braket.py lines 15 to 16. *)
Record BraketBackend : Type := mkBackend { device_arn : string }.

(** Lines 22 to 25. *)
Definition submit_task (self : BraketBackend) (task_ir : QuEraTaskSpecification)
    (w : World) : (Exception + string) * World :=
  device_run (device_arn self) task_ir w.

(** Lines 27 to 28. *)
Definition task_results (self : BraketBackend) (task_id : string) (w : World)
  : (Exception + QuEraTaskResults) * World :=
  quantum_task_result task_id w.

(** Lines 30 to 31. *)
Definition cancel_task (self : BraketBackend) (task_id : string) (w : World)
  : (Exception + unit) * World :=
  quantum_task_cancel task_id w.

(** Lines 33 to 34. *)
Definition task_status_of (self : BraketBackend) (task_id : string) (w : World)
  : (Exception + QuEraTaskStatusCode) * World :=
  quantum_task_state task_id w.

(** Lines 36 to 37: [pass]. *)
Definition validate_task (self : BraketBackend)
    (task_ir : QuEraTaskSpecification) (w : World)
  : (Exception + unit) * World :=
  (inr tt, w).

(** class BraketTask, task/braket.py lines 20 to 30. *)
Record BraketTask : Type := mkTask {
  task_id : option string;
  backend : BraketBackend;
  task_ir : QuEraTaskSpecification;
  metadata : Metadata;
  parallel_decoder : option ParallelDecoder;
  task_result_ir : option QuEraTaskResults
}.

(** [BraketTask(task_id, backend, task_ir, metadata)]: the two defaults
    of lines 25 to 30. *)
Definition new_task (task_id : option string) (backend : BraketBackend)
    (task_ir : QuEraTaskSpecification) (metadata : Metadata) : BraketTask :=
  mkTask task_id backend task_ir metadata None
    (Some (results_of_status Unsubmitted)).

Definition set_task_id (self : BraketTask) (id : option string) : BraketTask :=
  mkTask id (backend self) (task_ir self) (metadata self)
    (parallel_decoder self) (task_result_ir self).

Definition set_task_result_ir (self : BraketTask)
    (r : option QuEraTaskResults) : BraketTask :=
  mkTask (task_id self) (backend self) (task_ir self) (metadata self)
    (parallel_decoder self) r.

(** The outcome of a method call: the value it returns or the exception
    it raises, the task and the service as the call leaves them. *)
Inductive Outcome (A : Type) : Type :=
| Return (a : A) (self : BraketTask) (w : World)
| Raise (e : Exception) (self : BraketTask) (w : World).
Arguments Return {A} a self w.
Arguments Raise {A} e self w.

(** Lines 32 to 42. *)
Definition submit (self : BraketTask) (force : bool) (w : World)
  : Outcome unit :=
  let submitted :=
    match submit_task (backend self) (task_ir self) w with
    | (inl e, w') => Raise e self w'
    | (inr id, w') =>
        let self := set_task_id self (Some id) in
        let self :=
          set_task_result_ir self (Some (results_of_status Enqueued)) in
        Return tt self w'
    end in
  if negb force then
    match task_id self with
    | Some id =>
        Raise (ValueError ("the task is already submitted with " ++ id)) self w
    | None => submitted
    end
  else submitted.

(** Lines 44 to 50. *)
Definition validate (self : BraketTask) (w : World) : Outcome string :=
  match validate_task (backend self) (task_ir self) w with
  | (inl (ValidationError message), w') => Return message self w'
  | (inl e, w') => Raise e self w'
  | (inr _, w') => Return "" self w'
  end.

(** Lines 97 to 101. *)
Definition status (self : BraketTask) (w : World)
  : Outcome QuEraTaskStatusCode :=
  match task_id self with
  | None => Return Unaccepted self w
  | Some id =>
      match task_status_of (backend self) id w with
      | (inl e, w') => Raise e self w'
      | (inr code, w') => Return code self w'
      end
  end.

(** Lines 57 to 63: the statuses at which [fetch] returns at once. *)
Definition settled (code : QuEraTaskStatusCode) : bool :=
  match code with
  | Completed | Partial | Failed | Unaccepted | Cancelled => true
  | _ => false
  end.

(** Lines 52 to 72. *)
Definition fetch (self : BraketTask) (w : World) : Outcome unit :=
  match task_result_ir self with
  | None => Raise (AttributeError "task_status") self w
  | Some r =>
      if QuEraTaskStatusCode_eqb (task_status r) Unsubmitted then
        Raise (ValueError "Task ID not found.") self w
      else if settled (task_status r) then Return tt self w
      else
        match status self w with
        | Raise e self w' => Raise e self w'
        | Return code self w' =>
            match code with
            | Completed | Partial =>
                 match task_id self with
                 | None =>
                     (* not reached: [status] returns [Unaccepted] for a
                        task without an id *)
                     Raise (ServiceError "task_results(None)") self w'
                 | Some id =>
                     match task_results (backend self) id w' with
                     | (inl e, w'') => Raise e self w''
                     | (inr r', w'') =>
                         Return tt (set_task_result_ir self (Some r')) w''
                     end
                 end
            | _ =>
                Return tt
                  (set_task_result_ir self (Some (results_of_status code))) w'
            end
        end
  end.

(** Lines 74 to 81. *)
Definition pull (self : BraketTask) (w : World) : Outcome unit :=
  match task_id self with
  | None => Raise (ValueError "Task ID not found.") self w
  | Some id =>
      match task_results (backend self) id w with
      | (inl e, w') => Raise e self w'
      | (inr r, w') => Return tt (set_task_result_ir self (Some r)) w'
      end
  end.

(** Lines 83 to 95. *)
Definition result (self : BraketTask) (w : World)
  : Outcome (option QuEraTaskResults) :=
  match task_result_ir self with
  | None => Return (task_result_ir self) self w
  | Some r =>
      match task_id self with
      | Some _ =>
          if negb (QuEraTaskStatusCode_eqb (task_status r) Completed) then
            match pull self w with
            | Raise e self w' => Raise e self w'
            | Return _ self w' => Return (task_result_ir self) self w'
            end
          else Return (task_result_ir self) self w
      | None => Return (task_result_ir self) self w
      end
  end.

(** Lines 103 to 108.  The value is the warning of line 105, if any. *)
Definition cancel (self : BraketTask) (w : World) : Outcome (option string) :=
  match task_id self with
  | None => Return (Some "Cannot cancel task, missing task id.") self w
  | Some id =>
      match cancel_task (backend self) id w with
      | (inl e, w') => Raise e self w'
      | (inr _, w') => Return None self w'
      end
  end.

(** Lines 121 to 128. *)
Definition _result_exists (self : BraketTask) : bool :=
  match task_result_ir self with
  | None => false
  | Some r => QuEraTaskStatusCode_eqb (task_status r) Completed
  end.

(** The task, the service and the exception that a call leaves. *)
Definition task_after {A : Type} (o : Outcome A) : BraketTask :=
  match o with
  | Return _ self _ | Raise _ self _ => self
  end.

Definition world_after {A : Type} (o : Outcome A) : World :=
  match o with
  | Return _ _ w | Raise _ _ w => w
  end.

Definition raised {A : Type} (o : Outcome A) : option Exception :=
  match o with
  | Return _ _ _ => None
  | Raise e _ _ => Some e
  end.

(** The attributes of a task that only the constructor assigns. *)
Definition fixed_attributes (self : BraketTask) :=
  (backend self, task_ir self, metadata self, parallel_decoder self).

(** The methods of a task that reach the backend, and a call of one of
    them with its value dropped. *)
Inductive Method : Type :=
| Submit (force : bool)
| Validate
| Fetch
| Pull
| Result
| Status
| Cancel.

Definition drop_value {A : Type} (o : Outcome A) : Outcome unit :=
  match o with
  | Return _ self w => Return tt self w
  | Raise e self w => Raise e self w
  end.

Definition call_method (m : Method) (self : BraketTask) (w : World)
  : Outcome unit :=
  match m with
  | Submit force => submit self force w
  | Validate => drop_value (validate self w)
  | Fetch => fetch self w
  | Pull => pull self w
  | Result => drop_value (result self w)
  | Status => drop_value (status self w)
  | Cancel => drop_value (cancel self w)
  end.

Definition is_Submit (m : Method) : bool :=
  match m with
  | Submit _ => true
  | _ => false
  end.

End Task.

Arguments Return {H service A} a self w.
Arguments Raise {H service A} e self w.

(** A service to run the calls on: a task specification is a number of
    shots, the results are a status and the shots; the service holds
    the tasks it has accepted, the last one first, names them by their
    number and completes each at once; it knows no other task. *)
Definition example_types : TaskTypes :=
  {| QuEraTaskSpecification := nat;
     Metadata := unit;
     ParallelDecoder := unit;
     QuEraTaskResults := QuEraTaskStatusCode * nat;
     task_status := fst;
     results_of_status := fun status => (status, O);
     task_status_of_status := fun status => eq_refl |}.

Definition example_id (n : nat) : string :=
  String (Ascii.ascii_of_nat (48 + n)) EmptyString.

Definition example_lookup (task_id : string) (w : list (string * nat))
  : option nat :=
  dict_get String.eqb w task_id.

Definition example_device_run (arn : string) (shots : nat)
    (w : list (string * nat)) : (Exception + string) * list (string * nat) :=
  let id := example_id (List.length w) in (inr id, (id, shots) :: w).

Definition example_task_result (task_id : string) (w : list (string * nat))
  : (Exception + QuEraTaskStatusCode * nat) * list (string * nat) :=
  match example_lookup task_id w with
  | Some shots => (inr (Completed, shots), w)
  | None => (inl (ServiceError "unknown task"), w)
  end.

Definition example_task_cancel (task_id : string) (w : list (string * nat))
  : (Exception + unit) * list (string * nat) :=
  match example_lookup task_id w with
  | Some _ => (inr tt, w)
  | None => (inl (ServiceError "unknown task"), w)
  end.

Definition example_task_state (task_id : string) (w : list (string * nat))
  : (Exception + QuEraTaskStatusCode) * list (string * nat) :=
  match example_lookup task_id w with
  | Some _ => (inr Completed, w)
  | None => (inl (ServiceError "unknown task"), w)
  end.

Definition example_service : @Service example_types :=
  @Build_Service example_types (list (string * nat))
    example_device_run example_task_result example_task_cancel
    example_task_state.

(** The service that has accepted the given tasks. *)
Definition example_world (tasks : list (string * nat))
  : @World example_types example_service := tasks.

(** A task of 100 shots that was not submitted. *)
Definition example_task : @BraketTask example_types :=
  @new_task example_types None (@mkBackend "arn") 100%nat tt.

End braket.

(* ================================================================== *)
(** ** Definitions for the passes of the parser *)

Module Passes.
Import builder BuilderStream analog_circuit.

(** The run of pragma nodes at the head of a cursor. *)
Fixpoint pragma_run (curr : BuilderNode) : BuilderNode :=
  match curr with
  | [] => []
  | b :: next =>
      if pragma_types (node_of b) then b :: pragma_run next else []
  end.

(** The cluster spacings of the [Parallelize] nodes of a run, in order. *)
Definition spacings (run : BuilderNode) : list Scalar :=
  flat_map
    (fun b =>
       match node_of b with
       | Parallelize _cluster_spacing => [_cluster_spacing]
       | _ => []
       end)
    run.

(** A register wrapped for every spacing in turn; none once a wrap is
    refused. *)
Definition tiled (r : option Register) (ss : list Scalar) : option Register :=
  fold_left
    (fun r s =>
       match ParallelRegister_of r s with
       | Ok r' => Some r'
       | Raise _ => None
       end)
    ss r.

(** The static parameters after a run: those of its last [Assign] node,
    or the ones before the run. *)
Definition assigned (run : BuilderNode)
    (before : list (string * ParamType)) : list (string * ParamType) :=
  fold_left
    (fun acc b =>
       match node_of b with
       | Assign _static_params => _static_params
       | _ => acc
       end)
    run before.

(** The batch parameters after a run: those of its last [BatchAssign]
    or [ListAssign] node, or the ones before the run. *)
Definition batched (run : BuilderNode)
    (before : list (list (string * ParamType)))
  : list (list (string * ParamType)) :=
  fold_left
    (fun acc b =>
       match node_of b with
       | BatchAssign _batch_params | ListAssign _batch_params => _batch_params
       | _ => acc
       end)
    run before.

(** The argument names after a run: those of its last [Args] node, or
    the ones before the run. *)
Definition ordered (run : BuilderNode) (before : list string) : list string :=
  fold_left
    (fun acc b =>
       match node_of b with
       | Args _order => _order
       | _ => acc
       end)
    run before.

(** The attributes of a parser that the sequence pass does not assign:
    all but [stream], [sequence], [coupling_name] and [field_name]. *)
Definition outside_sequence (self : Parser.Parser) :=
  (Parser.vector_node_names self, Parser.register self,
   Parser.batch_params self, Parser.static_params self, Parser.order self).

(** The attributes of a parser that the pragma pass does not assign. *)
Definition outside_pragmas (self : Parser.Parser) :=
  (Parser.stream self, Parser.vector_node_names self, Parser.sequence self,
   Parser.coupling_name self, Parser.field_name self).

(** The attributes of a parser that [reset] assigns. *)
Definition reset_attributes (self : Parser.Parser) :=
  (Parser.stream self, Parser.vector_node_names self, Parser.sequence self,
   Parser.register self, Parser.batch_params self, Parser.static_params self,
   Parser.order self).

(** What a call that returns a value and a parser shows of the parser,
    and what it returns. *)
Definition attributes_of (m : Res Parser.Parser) :=
  p <- m ;; Ok (reset_attributes p).

Definition returned {A : Type} (m : Res (A * Parser.Parser)) : Res A :=
  r <- m ;; Ok (fst r).

(** The first turn of the loop of the sequence pass at a cursor reads
    neither [coupling_name] nor [field_name] before it has assigned
    them: the first spatial node selects both, or there is none. *)
Definition first_drive_scoped (stream_curr : BuilderNode) : bool :=
  match Parser.read_address stream_curr with
  | Ok ((Some _, Some _, _), _) => true
  | Ok ((_, _, []), _) => true
  | Ok _ => false
  | Raise _ => true
  end.

(** start.apply(sequence).rydberg.detuning.uniform.linear(0, 1, 1) *)
Definition chain_applied (s : ir.Sequence) : Builder :=
  Build (WaveformPrimitive Examples.linear01)
    (Some (Build Uniform
       (Some (Build Detuning
          (Some (Build Rydberg
             (Some (Build (SequenceBuilder s) (Some Examples.start))))))))).

(** start.apply(sequence).parallelize(2) *)
Definition chain_applied_tiled (s : ir.Sequence) : Builder :=
  Build (Parallelize (Literal 2))
    (Some (Build (SequenceBuilder s) (Some Examples.start))).

(** start.rydberg.detuning.uniform.linear(0, 1, 1)
      .assign(x = 1).parallelize(2) *)
Definition chain_tiled : Builder :=
  Build (Parallelize (Literal 2))
    (Some (Build (Assign [("x", 1%Q)]) (Some Examples.chain_scoped))).

(** [chain_tiled].parallelize(3) *)
Definition chain_tiled_twice : Builder :=
  Build (Parallelize (Literal 3)) (Some chain_tiled).

(** [chain_tiled], a waveform node, and an [Args] pragma with a
    duplicate behind it. *)
Definition chain_split_pragmas : Builder :=
  Build (Args ["a"; "a"])
    (Some (Build (WaveformPrimitive Examples.linear10) (Some chain_tiled))).

End Passes.

(* ================================================================== *)
(** ** The leaves of a waveform *)

Module Leaves.

(** The waveforms without an inner waveform that a waveform is made
    of, from left to right. *)
Fixpoint leaves (w : ir.Waveform) : list ir.Waveform :=
  match w with
  | ir.Constant _ _ | ir.Linear _ _ _ | ir.Poly _ _ | ir.PythonFn _ _ => [w]
  | ir.Append waveforms =>
      (fix parts (wfs : list ir.Waveform) : list ir.Waveform :=
         match wfs with
         | [] => []
         | wf :: wfs' => leaves wf ++ parts wfs'
         end) waveforms
  | ir.Add ast_left ast_right => leaves ast_left ++ leaves ast_right
  | ir.AlignedWaveform waveform _
  | ir.Negative waveform
  | ir.Record_ waveform _
  | ir.Sample waveform _ _
  | ir.Scale_ waveform _
  | ir.Slice waveform _ _
  | ir.Smooth waveform _ => leaves waveform
  end.

(** A leaf that has one value over its whole duration, as far as its
    parameters show: a [Constant]; a [Linear] whose [start] and [stop]
    evaluate to equal numbers; a [Poly] whose coefficients evaluate and
    are zero above the order 0.  A [PythonFn] is none. *)
Definition constant_shape (assignments : Assignments) (leaf : ir.Waveform)
  : Prop :=
  match leaf with
  | ir.Constant _ _ => True
  | ir.Linear start stop _ =>
      exists s e,
        call start assignments = Ok s /\ call stop assignments = Ok e /\
        s == e
  | ir.Poly coeffs _ =>
      exists cs,
        mapM (fun coeff => call coeff assignments) coeffs = Ok cs /\
        Forall (fun c => c == 0) (tl cs)
  | _ => False
  end.

(** The end value of the folded constant of a result. *)
Definition end_value (r : IsConstantWaveform.IsConstantWaveformResult)
  : Decimal :=
  IsConstantWaveform.value_of (IsConstantWaveform.constant_waveform r).

(** A circuit whose second and third waveform have an unbound
    variable. *)
Definition unbound_circuit : analog_circuit.AnalogCircuit :=
  analog_circuit.mkAnalogCircuit (analog_circuit.Arrangement Examples.start)
    (ir.mkSequence
       [(ir.rydberg,
         ir.mkPulse
           [(ir.detuning,
             ir.mkField [(ir.Uniform, ir.Constant (Literal 3) (Literal 2))]);
            (ir.rabi_amplitude,
             ir.mkField
               [(ir.Uniform,
                 ir.Linear (Variable_ "x") (Literal 1) (Literal 2))])]);
        (ir.hyperfine,
         ir.mkPulse
           [(ir.detuning,
             ir.mkField
               [(ir.Uniform,
                 ir.Linear (Variable_ "y") (Literal 1) (Literal 2))])])]).

End Leaves.

(* ================================================================== *)
(** * Properties *)

Import builder BuilderStream analog_circuit.

(** ** The error monad *)

Lemma bind_Ok {A B : Type} (m : Res A) (k : A -> Res B) (b : B) :
  bind m k = Ok b -> exists a, m = Ok a /\ k a = Ok b.
Proof.
  destruct m as [a | e]; simpl; intros H.
  - exists a. split; [reflexivity | exact H].
  - discriminate H.
Qed.

(** ** [read_address] *)

Lemma read_next_none types (stream_curr : BuilderNode) :
  fst (read_next types stream_curr) = [] ->
  read_next types stream_curr = ([], []).
Proof.
  induction stream_curr as [| b next IH]; simpl; intros H.
  - reflexivity.
  - destruct (types (node_of b)); simpl in H.
    + discriminate H.
    + apply IH, H.
Qed.

(** The node [read_next] returns is of one of the given classes. *)
Lemma read_next_found types (stream_curr : BuilderNode) b next rest :
  read_next types stream_curr = (b :: next, rest) ->
  types (node_of b) = true /\ rest = next.
Proof.
  induction stream_curr as [| b' next' IH]; simpl; intros H.
  - discriminate H.
  - destruct (types (node_of b')) eqn:E.
    + inversion H; subst. split; [exact E | reflexivity].
    + apply IH, H.
Qed.

(** C2, as it is stated, does not hold for a drive under
    [start.rydberg.detuning]: the field is [Detuning] and the coupling
    [Rydberg] is reported. *)
Lemma read_address_detuning_reports_coupling :
  ~ Spec.coupling_only_under_rabi
      (curr (create Examples.rydberg_detuning_uniform)).
Proof.
  intros H.
  destruct (H _ _ _ _ _ eq_refl eq_refl) as [f [Hf Hr]].
  inversion Hf; subst f. discriminate Hr.
Qed.

Ltac address_cases :=
  repeat split; intros;
  repeat match goal with
    | H : exists _, _ |- _ => destruct H
    | H : _ /\ _ |- _ => destruct H
    | H : _ \/ _ |- _ => destruct H
    | H : Some _ = Some _ |- _ => inversion H; subst; clear H
    | H : Some _ = None |- _ => discriminate H
    | H : None = Some _ |- _ => discriminate H
    end;
  try match goal with
    | H : node_of ?x = Detuning, E : is_rabi_field (node_of ?x) = true |- _ =>
        rewrite H in E; discriminate E
    | H : is_field (node_of ?g) = false |- _ =>
        destruct (node_of g); simpl in *; congruence
    end;
  try congruence;
  try solve [eexists; split; [reflexivity |]; split; [eassumption |];
             (left + right); eauto].

(** C2 (amended).  [read_address] returns the next spatial-modulation
    node, or nothing when none remains.  With that node it reports its
    parent as the new field exactly when the parent is a [Detuning],
    [RabiAmplitude] or [RabiPhase] node, and it reports a new coupling
    exactly when that coupling is a [Rydberg] or [Hyperfine] node which
    is the parent of the parent of a Rabi field, or the parent of a
    [Detuning] field.  (A Rabi field is taken to have a parent.) *)
Theorem read_address_reports (stream_curr : BuilderNode) :
  (fst (read_next SpatialModulation stream_curr) = [] ->
   Parser.read_address stream_curr = Ok ((None, None, []), [])) /\
  (forall spatial next rest,
     read_next SpatialModulation stream_curr = (spatial :: next, rest) ->
     (forall f, parent_of spatial = Some f ->
                is_rabi_field (node_of f) = true -> parent_of f <> None) ->
     exists coupling field,
       Parser.read_address stream_curr
       = Ok ((coupling, field, spatial :: next), rest) /\
       (forall f, field = Some f <->
                  parent_of spatial = Some f /\ is_field (node_of f) = true) /\
       (forall c, coupling = Some c <->
          exists f, parent_of spatial = Some f /\
            is_coupling (node_of c) = true /\
            ((is_rabi_field (node_of f) = true /\
              exists rabi, parent_of f = Some rabi /\ parent_of rabi = Some c)
             \/ (node_of f = Detuning /\ parent_of f = Some c)))).
Proof.
  split.
  - intros H. unfold Parser.read_address.
    rewrite (read_next_none _ _ H). reflexivity.
  - intros spatial next rest Hn Hp. unfold Parser.read_address. rewrite Hn.
    destruct (parent_of spatial) as [f |] eqn:Ef; simpl;
      [| exists None, None; address_cases].
    destruct (is_field (node_of f)) eqn:Efield;
      [| exists None, None; address_cases].
    destruct (is_rabi_field (node_of f)) eqn:Erabi.
    + destruct (parent_of f) as [rabi |] eqn:Erp;
        [| exfalso; exact (Hp f eq_refl Erabi Erp)].
      simpl.
      destruct (parent_of rabi) as [c |] eqn:Ec; simpl;
        [| exists None, (Some f); address_cases].
      destruct (is_coupling (node_of c)) eqn:Ecoup; simpl;
        [exists (Some c), (Some f) | exists None, (Some f)]; address_cases.
    + assert (Hd : node_of f = Detuning)
        by (destruct (node_of f); simpl in *; congruence).
      simpl.
      destruct (parent_of f) as [c |] eqn:Ec; simpl;
        [| exists None, (Some f); address_cases].
      destruct (is_coupling (node_of c)) eqn:Ecoup; simpl;
        [exists (Some c), (Some f) | exists None, (Some f)]; address_cases.
Qed.

Lemma read_address_reports_witness :
  exists coupling field,
    Parser.read_address (curr (create Examples.rydberg_amplitude_uniform))
    = Ok ((coupling, field, [Examples.rydberg_amplitude_uniform]), []) /\
    (exists c, coupling = Some c /\ node_of c = Rydberg) /\
    (exists f, field = Some f /\ node_of f = RabiAmplitude).
Proof.
  destruct (proj2 (read_address_reports
                     (curr (create Examples.rydberg_amplitude_uniform)))
              Examples.rydberg_amplitude_uniform [] [] eq_refl)
    as (coupling & field & Heq & Hfield & Hcoupling).
  - intros f Hf _. inversion Hf; subst f. discriminate.
  - exists coupling, field. split; [exact Heq |].
    vm_compute in Heq. inversion Heq; subst coupling field.
    split; eexists; split; reflexivity.
Defined.

(** ** [read_waveform] *)

Lemma read_primitive_lowering self b next w acc :
  Spec.primitive_lowering b next = Some w ->
  Parser.read_waveform_loop self acc (b :: next)
  = Parser.read_waveform_loop self (Some (Spec.accumulate acc w)) next.
Proof.
  unfold Spec.primitive_lowering. intros H. simpl.
  destruct b as [n p]; simpl in *.
  destruct n; try discriminate H.
  - inversion H; subst. unfold Parser.read_primitive; simpl.
    destruct acc; reflexivity.
  - destruct (type_in is_Sample (hd_error next)); [discriminate H |].
    inversion H; subst. unfold Parser.read_primitive; simpl.
    destruct acc; reflexivity.
Qed.

Lemma read_waveform_halts self acc rest :
  type_in Spec.is_waveform_node (hd_error rest) = false ->
  Parser.read_waveform_loop self acc rest = Ok (acc, rest).
Proof.
  destruct rest as [| b next]; simpl; intros H.
  - reflexivity.
  - destruct (node_of b); simpl in H; try discriminate H; reflexivity.
Qed.

(** C4.  Two consecutive primitive waveform nodes [a] then [b], lowering
    to [wa] and [wb]: the second is appended to what is accumulated
    with the first, whatever was accumulated before; at the head of a
    drive [read_waveform] goes on from the accumulated waveform
    [Append([wa, wb])], and returns it when the node behind [b] is not a
    waveform node. *)
Theorem read_waveform_appends_primitives self a b rest wa wb :
  Spec.primitive_lowering a (b :: rest) = Some wa ->
  Spec.primitive_lowering b rest = Some wb ->
  (forall acc,
     Parser.read_waveform_loop self acc (a :: b :: rest)
     = Parser.read_waveform_loop self
         (Some (ir.Append [Spec.accumulate acc wa; wb])) rest) /\
  Parser.read_waveform self (a :: b :: rest)
  = Parser.read_waveform_loop self (Some (ir.Append [wa; wb])) rest /\
  (type_in Spec.is_waveform_node (hd_error rest) = false ->
   Parser.read_waveform self (a :: b :: rest)
   = Ok (Some (ir.Append [wa; wb]), rest)).
Proof.
  intros Ha Hb.
  assert (H : forall acc,
             Parser.read_waveform_loop self acc (a :: b :: rest)
             = Parser.read_waveform_loop self
                 (Some (ir.Append [Spec.accumulate acc wa; wb])) rest).
  { intros acc.
    rewrite (read_primitive_lowering _ _ _ _ _ Ha).
    rewrite (read_primitive_lowering _ _ _ _ _ Hb). reflexivity. }
  split; [exact H |]. unfold Parser.read_waveform. rewrite H. simpl.
  split; [reflexivity |].
  intros Hrest. apply read_waveform_halts, Hrest.
Qed.

Lemma read_waveform_appends_primitives_witness :
  Parser.read_waveform Parser.new
    (skipn 4 (curr (create Examples.chain_two_primitives)))
  = Ok (Some (ir.Append [Examples.linear01; Examples.linear10]), []).
Proof.
  exact (proj2 (proj2 (read_waveform_appends_primitives Parser.new
                         Examples.chain_scoped Examples.chain_two_primitives
                         [] Examples.linear01 Examples.linear10
                         eq_refl eq_refl))
           eq_refl).
Defined.

(** Property P2 of the specification, on the whole chain. *)
Lemma parse_two_primitives :
  Examples.sequence_of
    (Parser.parse Parser.new Examples.chain_two_primitives)
  = Ok (Examples.one_drive ir.rydberg ir.detuning ir.Uniform
          (ir.Append [Examples.linear01; Examples.linear10])).
Proof. reflexivity. Qed.

(** C5.  A [Sample] node whose interpolation is not given, on a parser
    whose current field is [f]: [read_waveform] folds it into the sample
    of the waveform that the parent of the node lowers to, appended to
    the accumulated waveform or starting it, with [Constant]
    interpolation when [f] is the Rabi phase and [Linear] interpolation
    for the other two fields; before a node at which the fold stops it
    returns that waveform and the cursor behind the [Sample] node.  A
    function node before the [Sample] node is passed over: with it
    [read_waveform] returns the same, and when it is the parent of the
    [Sample] node, the sampled waveform is its function. *)
Theorem read_waveform_sample_default self acc parent sample_node rest
    fn_waveform dt f :
  node_of sample_node = Sample None dt ->
  parent_of sample_node = Some parent ->
  __bloqade_ir__ parent = Ok (IRWaveform fn_waveform) ->
  Parser.field_name self = Some f ->
  type_in Spec.is_waveform_node (hd_error rest) = false ->
  let interpolation :=
    match f with
    | ir.rabi_phase => ir.Constant_
    | _ => ir.Linear_
    end in
  let sampled :=
    Spec.accumulate acc (ir.Sample fn_waveform interpolation dt) in
  Parser.read_waveform_loop self acc (sample_node :: rest)
  = Ok (Some sampled, rest) /\
  (forall fn_node fn d,
     node_of fn_node = Fn fn d ->
     Parser.read_waveform_loop self acc (fn_node :: sample_node :: rest)
     = Ok (Some sampled, rest)) /\
  (forall fn d, node_of parent = Fn fn d -> fn_waveform = ir.PythonFn fn d) /\
  (forall behind,
     Parser.read_waveform_loop self acc (sample_node :: behind)
     = Parser.read_waveform_loop self (Some sampled) behind) /\
  (interpolation = ir.Constant_ <-> f = ir.rabi_phase) /\
  (interpolation = ir.Linear_ <-> f <> ir.rabi_phase) /\
  interpolation = Spec.default_interpolation f.
Proof.
  intros Hs Hp Hir Hf Hrest interpolation sampled.
  assert (Hstep : forall behind,
            Parser.read_waveform_loop self acc (sample_node :: behind)
            = Parser.read_waveform_loop self (Some sampled) behind).
  { intros behind. cbn [Parser.read_waveform_loop]. rewrite Hs.
    unfold Parser.read_sample. rewrite Hf, Hp. cbn [Parser.getattr bind].
    rewrite Hir. cbn [bind Parser.as_waveform].
    replace (if ir.FieldName_eqb f ir.rabi_phase
             then Ok ir.Constant_ else Ok ir.Linear_)
      with (@Ok ir.Interpolation interpolation)
      by (unfold interpolation; destruct f; reflexivity).
    cbn [bind]. unfold sampled. destruct acc; reflexivity. }
  assert (Hsample :
            Parser.read_waveform_loop self acc (sample_node :: rest)
            = Ok (Some sampled, rest)).
  { rewrite Hstep. exact (read_waveform_halts self _ rest Hrest). }
  split; [exact Hsample |].
  split; [| split; [| split; [exact Hstep | split; [| split]]]].
  - intros fn_node fn d Hfn. rewrite <- Hsample.
    cbn [Parser.read_waveform_loop]. rewrite Hfn.
    cbn [hd_error type_in]. rewrite Hs. reflexivity.
  - intros fn d Hfn. unfold __bloqade_ir__ in Hir. rewrite Hfn in Hir.
    inversion Hir. reflexivity.
  - unfold interpolation. destruct f; split; congruence.
  - unfold interpolation. destruct f; split; congruence.
  - unfold interpolation. destruct f; reflexivity.
Qed.

Lemma read_waveform_sample_default_witness :
  Parser.read_waveform_loop
    (Parser.set_field_name Parser.new ir.rabi_phase) None
    (skipn 5 (curr (create Examples.chain_phase_sample)))
  = Ok (Some (ir.Sample (ir.PythonFn (fun t => t) (Literal 1))
                ir.Constant_ (Literal (1 # 10))), []).
Proof.
  destruct (read_waveform_sample_default
              (Parser.set_field_name Parser.new ir.rabi_phase) None
              Examples.chain_phase_fn Examples.chain_phase_sample []
              (ir.PythonFn (fun t => t) (Literal 1))
              (Literal (1 # 10)) ir.rabi_phase
              eq_refl eq_refl eq_refl eq_refl eq_refl) as (_ & H & _).
  exact (H Examples.chain_phase_fn (fun t => t) (Literal 1) eq_refl).
Defined.

(** ** The sticky names across calls *)

(** [reset] leaves the two sticky attributes as they are. *)
Lemma reset_keeps_sticky_names self b :
  Parser.coupling_name (Parser.reset self b) = Parser.coupling_name self /\
  Parser.field_name (Parser.reset self b) = Parser.field_name self.
Proof. split; reflexivity. Qed.

Lemma create_curr b : curr (create b) = rev (ancestry b).
Proof. reflexivity. Qed.

Lemma ancestry_cons b : exists l, ancestry b = b :: l.
Proof.
  destruct b as [n [p |]]; simpl; eexists; reflexivity.
Qed.

(** The stream of a chain starts at its root and is not empty. *)
Lemma create_not_empty b : curr (create b) <> [].
Proof.
  rewrite create_curr. destruct (ancestry_cons b) as [l ->]. simpl.
  intros H. apply app_eq_nil in H. destruct H as [_ H]. discriminate H.
Qed.

Lemma read_address_unscoped stream_curr spatial next rest :
  read_next SpatialModulation stream_curr = (spatial :: next, rest) ->
  type_in is_field (parent_of spatial) = false ->
  Parser.read_address stream_curr = Ok ((None, None, spatial :: next), rest).
Proof.
  intros Hn Hp. unfold Parser.read_address. rewrite Hn, Hp. reflexivity.
Qed.

(** The first turn of the loop on a parser without a current coupling,
    at a drive that selects none. *)
Lemma read_sequence_loop_unscoped fuel self stream_curr spatial next rest :
  Parser.coupling_name self = None ->
  read_next SpatialModulation stream_curr = (spatial :: next, rest) ->
  type_in is_field (parent_of spatial) = false ->
  Parser.read_sequence_loop (S fuel) self stream_curr
  = Raise (AttributeError "coupling_name").
Proof.
  intros Hc Hn Hp.
  destruct stream_curr as [| b l]; [discriminate Hn |].
  cbn [Parser.read_sequence_loop].
  rewrite (read_address_unscoped _ _ _ _ Hn Hp).
  cbn [bind Parser.update_names]. unfold Parser.merge_drive.
  rewrite Hc. reflexivity.
Qed.

(** [read_sequence] scans when the node at the cursor is not a
    precomputed sequence. *)
Lemma read_sequence_scans self s b l :
  Parser.stream self = Some s ->
  curr s = b :: l ->
  is_SequenceBuilder (node_of b) = false ->
  Parser.read_sequence self
  = Parser.read_sequence_loop (S (List.length l)) self (b :: l).
Proof.
  intros Hs Hc Hb. unfold Parser.read_sequence. rewrite Hs. simpl.
  unfold copy. rewrite Hc.
  destruct (node_of b); try reflexivity. discriminate Hb.
Qed.

Lemma read_sequence_unscoped self s :
  Parser.stream self = Some s ->
  Parser.coupling_name self = None ->
  Spec.first_drive_unscoped (curr s) ->
  Parser.read_sequence self = Raise (AttributeError "coupling_name").
Proof.
  intros Hs Hc [Hb (spatial & next & rest & Hn & Hp)].
  destruct (curr s) as [| b l] eqn:E; [discriminate Hn |].
  rewrite (read_sequence_scans self s b l Hs E Hb).
  apply (read_sequence_loop_unscoped _ _ _ _ _ _ Hc Hn Hp).
Qed.

(** With a precomputed sequence at the cursor the sequence pass adopts
    it and reads no drive, whatever follows in the chain. *)
Lemma read_sequence_adopts self s b l _sequence :
  Parser.stream self = Some s ->
  curr s = b :: l ->
  node_of b = SequenceBuilder _sequence ->
  exists self',
    Parser.read_sequence self = Ok self' /\
    Parser.sequence self' = _sequence /\
    Parser.coupling_name self' = Parser.coupling_name self /\
    Parser.field_name self' = Parser.field_name self.
Proof.
  intros Hs Hc Hb. unfold Parser.read_sequence. rewrite Hs. simpl.
  rewrite Hc, Hb. unfold read. rewrite Hc.
  eexists. split; [reflexivity |]. repeat split.
Qed.

(** C10.  On a parser on which no coupling was selected yet, as a new
    parser is, [parse_sequence] and [parse] raise the attribute error
    of [coupling_name] when the first drive that the sequence pass
    reads is not scoped by a field: no default coupling or field takes
    the place of the missing attribute.  ([parse] reads the register
    first, so its sequence pass starts at the second node.) *)
Theorem unscoped_first_drive_raises self b :
  Parser.coupling_name self = None ->
  (Spec.first_drive_unscoped (curr (create b)) ->
   Parser.parse_sequence self b = Raise (AttributeError "coupling_name")) /\
  (Spec.first_drive_unscoped (tl (curr (create b))) ->
   Parser.parse self b = Raise (AttributeError "coupling_name")).
Proof.
  intros Hc. split; intros H.
  - unfold Parser.parse_sequence.
    rewrite (read_sequence_unscoped (Parser.reset self b) (create b)
               eq_refl Hc H).
    reflexivity.
  - unfold Parser.parse, Parser.read_register, Parser.reset; simpl.
    unfold read. simpl.
    destruct (rev (ancestry b)) as [| r l] eqn:E.
    + exfalso. apply (create_not_empty b). rewrite create_curr. exact E.
    + simpl. erewrite read_sequence_unscoped.
      * reflexivity.
      * reflexivity.
      * exact Hc.
      * simpl. rewrite create_curr, E in H. exact H.
Qed.

Lemma unscoped_first_drive_raises_witness :
  Parser.parse_sequence Parser.new Examples.chain_unscoped
  = Raise (AttributeError "coupling_name") /\
  Parser.parse Parser.new Examples.chain_unscoped
  = Raise (AttributeError "coupling_name").
Proof.
  destruct (unscoped_first_drive_raises Parser.new Examples.chain_unscoped
              eq_refl) as [H1 H2].
  split.
  - apply H1. split; [reflexivity |].
    exists (Build Uniform (Some Examples.start)),
      [Examples.chain_unscoped], [Examples.chain_unscoped].
    split; reflexivity.
  - apply H2. split; [reflexivity |].
    exists (Build Uniform (Some Examples.start)),
      [Examples.chain_unscoped], [Examples.chain_unscoped].
    split; reflexivity.
Defined.

(** When the first drive of the sequence pass selects a coupling and a
    field, the names of an earlier parse are replaced before they are
    read: the sequence pass gives the same parser, whatever the two
    names were. *)
Lemma update_names_replaces self cb fb c f :
  Parser.update_names (Parser.set_field_name (Parser.set_coupling_name self c) f)
    (Some cb) (Some fb)
  = Parser.update_names self (Some cb) (Some fb).
Proof.
  unfold Parser.update_names.
  destruct (__bloqade_ir__ cb) as [v |]; [| reflexivity]. cbn [bind].
  destruct (Parser.as_coupling v) as [c' |]; [| reflexivity]. cbn [bind].
  destruct (__bloqade_ir__ fb) as [v' |]; [| reflexivity]. cbn [bind].
  destruct (Parser.as_field_name v') as [f' |]; reflexivity.
Qed.

Lemma read_sequence_loop_replaces fuel self stream_curr cb fb sp rest c f :
  Parser.read_address stream_curr = Ok ((Some cb, Some fb, sp), rest) ->
  Parser.read_sequence_loop fuel
    (Parser.set_field_name (Parser.set_coupling_name self c) f) stream_curr
  = Parser.read_sequence_loop fuel self stream_curr.
Proof.
  intros Ha. destruct stream_curr as [| b l]; [discriminate Ha |].
  destruct fuel as [| fuel]; [reflexivity |].
  cbn [Parser.read_sequence_loop]. rewrite Ha. cbn [bind].
  rewrite update_names_replaces. reflexivity.
Qed.

(** For a chain whose first drive selects a coupling and a field,
    [parse_sequence] returns on a used parser what it returns on a new
    one. *)
Lemma parse_sequence_of_scoped_chain self b c f cb fb sp rest :
  Parser.coupling_name self = Some c ->
  Parser.field_name self = Some f ->
  Parser.read_address (curr (create b)) = Ok ((Some cb, Some fb, sp), rest) ->
  bind (Parser.parse_sequence self b) (fun r => Ok (fst r))
  = bind (Parser.parse_sequence Parser.new b) (fun r => Ok (fst r)).
Proof.
  intros Hc Hf Ha.
  assert (E : Parser.reset self b
              = Parser.set_field_name
                  (Parser.set_coupling_name (Parser.reset Parser.new b) c) f).
  { unfold Parser.reset. rewrite Hc, Hf. reflexivity. }
  unfold Parser.parse_sequence. rewrite E. clear E.
  unfold Parser.read_sequence. cbn [Parser.stream Parser.set_field_name
    Parser.set_coupling_name Parser.reset Parser.getattr bind].
  unfold copy.
  destruct (curr (create b)) as [| b0 l] eqn:Ecurr; [reflexivity |].
  destruct (node_of b0);
    try (rewrite (read_sequence_loop_replaces _ _ _ _ _ _ _ c f Ha);
         reflexivity).
  unfold read. rewrite Ecurr. reflexivity.
Qed.

(** C1 fails on the code.  [chain_unscoped] raises on a new parser and
    returns a sequence on the parser that has parsed [chain_scoped],
    under the coupling and the field the earlier chain selected.
    Parsed twice on that parser, [chain_unscoped_then_hyperfine] gives
    two different sequences: its first drive goes under the names the
    parser had before the call, which the first call changes. *)
Theorem parse_keeps_names_of_earlier_parse :
  let used :=
    Examples.parser_after (Parser.parse Parser.new Examples.chain_scoped) in
  let once := Parser.parse used Examples.chain_unscoped_then_hyperfine in
  let twice :=
    Parser.parse (Examples.parser_after once)
      Examples.chain_unscoped_then_hyperfine in
  Examples.sequence_of (Parser.parse Parser.new Examples.chain_unscoped)
  = Raise (AttributeError "coupling_name") /\
  Examples.sequence_of (Parser.parse used Examples.chain_unscoped)
  = Ok (Examples.one_drive ir.rydberg ir.detuning ir.Uniform Examples.linear01)
  /\
  Examples.sequence_of once
  = Ok (ir.mkSequence
          [(ir.rydberg,
            ir.mkPulse
              [(ir.detuning, ir.mkField [(ir.Uniform, Examples.linear01)])]);
           (ir.hyperfine,
            ir.mkPulse
              [(ir.detuning, ir.mkField [(ir.Uniform, Examples.linear10)])])])
  /\
  Examples.sequence_of twice
  = Ok (Examples.one_drive ir.hyperfine ir.detuning ir.Uniform
          (ir.Add Examples.linear01 Examples.linear10)).
Proof. vm_compute. repeat split; reflexivity. Qed.

(** ** The pragma pass *)

Lemma existsb_eqb_In x (l : list string) :
  existsb (String.eqb x) l = true <-> In x l.
Proof.
  rewrite existsb_exists. split.
  - intros [y [Hy He]]. apply String.eqb_eq in He. subst y. exact Hy.
  - intros H. exists x. split; [exact H | apply String.eqb_refl].
Qed.

(** The duplicates are names of the list that occur in it more than
    once or were seen before. *)
Lemma duplicates_In seen order x :
  In x (Parser.duplicates seen order) -> In x order.
Proof.
  revert seen. induction order as [| y order IH]; simpl; intros seen H.
  - exact H.
  - destruct (existsb (String.eqb y) seen); simpl in H.
    + destruct H as [H | H]; [left; exact H | right; exact (IH _ H)].
    + right. exact (IH _ H).
Qed.

(** No duplicate is found exactly when the names are pairwise different
    and none was seen before. *)
Lemma duplicates_nil seen order :
  Parser.duplicates seen order = [] <->
  NoDup order /\ (forall x, In x order -> ~ In x seen).
Proof.
  revert seen. induction order as [| y order IH]; simpl; intros seen.
  - split; [intros _; split; [constructor | intros x []] | reflexivity].
  - destruct (existsb (String.eqb y) seen) eqn:E; simpl.
    + split; [discriminate |].
      intros [_ H]. exfalso. apply (H y (or_introl eq_refl)).
      apply existsb_eqb_In, E.
    + rewrite IH. split.
      * intros [Hnd Hseen]. split.
        -- constructor; [| exact Hnd].
           intros Hy. apply (Hseen y Hy). left. reflexivity.
        -- intros x [Hx | Hx] Hs.
           ++ subst x. apply existsb_eqb_In in Hs. congruence.
           ++ apply (Hseen x Hx). right. exact Hs.
      * intros [Hnd Hseen]. inversion Hnd as [| ? ? Hy Hnd']; subst.
        split; [exact Hnd' |].
        intros x Hx [Hs | Hs].
        -- subst x. exact (Hy Hx).
        -- exact (Hseen x (or_intror Hx) Hs).
Qed.

(** A list of names with a duplicate is refused with all the repeated
    names, whatever the names of the vector nodes are. *)
Lemma read_args_duplicates self order :
  ~ NoDup order ->
  Parser.read_args self order
  = Raise (ValueError (DuplicateNames (Parser.duplicates [] order))) /\
  Parser.duplicates [] order <> [].
Proof.
  intros H. unfold Parser.read_args.
  destruct (Parser.duplicates [] order) as [| d ds] eqn:E.
  - exfalso. apply H. apply (duplicates_nil [] order). exact E.
  - split; [reflexivity | discriminate].
Qed.

(** Pairwise different names, one of which is in [vector_node_names],
    are refused with the names in both. *)
Lemma read_args_vector_names self order :
  NoDup order ->
  Parser.intersection order (Parser.vector_node_names self) <> [] ->
  Parser.read_args self order
  = Raise (ValueError
             (RunTimeVectorArguments
                (Parser.intersection order (Parser.vector_node_names self)))).
Proof.
  intros Hnd Hi. unfold Parser.read_args.
  assert (E : Parser.duplicates [] order = []).
  { apply duplicates_nil. split; [exact Hnd | intros x _ []]. }
  rewrite E.
  destruct (Parser.intersection order (Parser.vector_node_names self));
    [contradiction | reflexivity].
Qed.

(** Pairwise different names, none of which is in [vector_node_names],
    are recorded. *)
Lemma read_args_records self order :
  NoDup order ->
  Parser.intersection order (Parser.vector_node_names self) = [] ->
  Parser.read_args self order = Ok (Parser.set_order self order).
Proof.
  intros Hnd Hi. unfold Parser.read_args.
  assert (E : Parser.duplicates [] order = []).
  { apply duplicates_nil. split; [exact Hnd | intros x _ []]. }
  rewrite E, Hi. reflexivity.
Qed.

(** Property P7 of the specification. *)
Lemma parse_duplicate_args :
  Parser.parse Parser.new Examples.chain_duplicate_args
  = Raise (ValueError (DuplicateNames ["a"])).
Proof. reflexivity. Qed.

(** No method of the parser adds a name to [vector_node_names]: when
    the pragma pass of [parse] starts, the set is as [reset] left it. *)
Lemma read_sequence_loop_vector_names fuel :
  forall self stream_curr self',
    Parser.read_sequence_loop fuel self stream_curr = Ok self' ->
    Parser.vector_node_names self' = Parser.vector_node_names self.
Proof.
  induction fuel as [| fuel IH]; intros self stream_curr self' H.
  - destruct stream_curr; simpl in H; [| discriminate H].
    inversion H; reflexivity.
  - destruct stream_curr as [| b l]; [inversion H; reflexivity |].
    cbn [Parser.read_sequence_loop] in H.
    apply bind_Ok in H. destruct H as ([[[cb fb] sp] rest] & _ & H).
    apply bind_Ok in H. destruct H as (self1 & H1 & H).
    assert (E1 : Parser.vector_node_names self1
                 = Parser.vector_node_names self).
    { unfold Parser.update_names in H1.
      apply bind_Ok in H1. destruct H1 as (self0 & H0 & H1).
      assert (E0 : Parser.vector_node_names self0
                   = Parser.vector_node_names self).
      { destruct cb as [c |]; [| inversion H0; reflexivity].
        apply bind_Ok in H0. destruct H0 as (v & _ & H0).
        apply bind_Ok in H0. destruct H0 as (c' & _ & H0).
        inversion H0; reflexivity. }
      destruct fb as [f |]; [| inversion H1; subst; exact E0].
      apply bind_Ok in H1. destruct H1 as (v & _ & H1).
      apply bind_Ok in H1. destruct H1 as (f' & _ & H1).
      inversion H1; subst; exact E0. }
    destruct sp as [| s sp'].
    + inversion H; subst. exact E1.
    + apply bind_Ok in H. destruct H as (self2 & H2 & H).
      rewrite (IH _ _ _ H).
      unfold Parser.merge_drive in H2.
      apply bind_Ok in H2. destruct H2 as (c & _ & H2).
      apply bind_Ok in H2. destruct H2 as (f & _ & H2).
      apply bind_Ok in H2. destruct H2 as (drive & _ & H2).
      inversion H2; subst. exact E1.
Qed.

Lemma read_sequence_vector_names self self' :
  Parser.read_sequence self = Ok self' ->
  Parser.vector_node_names self' = Parser.vector_node_names self.
Proof.
  unfold Parser.read_sequence. intros H.
  apply bind_Ok in H. destruct H as (s & _ & H).
  destruct (curr s) as [| b l]; [discriminate H |].
  destruct (node_of b);
    try exact (read_sequence_loop_vector_names _ _ _ _ H).
  unfold read in H. destruct (curr s); inversion H; reflexivity.
Qed.

(** With no vector-node name recorded, the pragma pass does not raise
    the error of line 190. *)
Lemma read_pragmas_loop_no_vector_names curr :
  forall self names,
    Parser.vector_node_names self = [] ->
    Parser.read_pragmas_loop self curr
    <> Raise (ValueError (RunTimeVectorArguments names)).
Proof.
  induction curr as [| b next IH]; intros self names Hv; simpl.
  - discriminate.
  - destruct (node_of b); try discriminate;
      try (apply IH; exact Hv).
    + unfold Parser.read_args. rewrite Hv.
      destruct (Parser.duplicates [] _order); [| discriminate].
      replace (Parser.intersection _order []) with (@nil string).
      * simpl. apply IH. exact Hv.
      * unfold Parser.intersection. induction _order; simpl; auto.
    + unfold ParallelRegister_of.
      destruct (Parser.register self) as [[head | r s] |]; simpl;
        try discriminate.
      apply IH. exact Hv.
Qed.

(** C9 fails on the code.  The chain uses the per-site scale variable
    [a] for its drive and names [a] again in its [Args] pragma: [parse]
    raises nothing and records [a] in [args_list], because the pragma
    pass finds [vector_node_names] empty. *)
Theorem parse_accepts_used_vector_name :
  In "a" (Spec.scale_variables (curr (create Examples.chain_scale_args))) /\
  Examples.args_of (Parser.parse Parser.new Examples.chain_scale_args)
  = Ok ["a"] /\
  Parser.vector_node_names
    (Examples.parser_after (Parser.parse Parser.new Examples.chain_scale_args))
  = [].
Proof. vm_compute. repeat split; auto. Qed.

(** ** Dictionaries *)

Section DictFacts.
Context {K V : Type} (eqb : K -> K -> bool).
Hypothesis eqb_refl : forall k, eqb k k = true.
Hypothesis eqb_sym : forall k k', eqb k k' = true -> eqb k' k = true.
Hypothesis eqb_trans :
  forall k k' k'', eqb k k' = true -> eqb k' k'' = true -> eqb k k'' = true.




End DictFacts.

(** A key that equals no key of the dictionary is appended. *)
Lemma dict_set_new {K V : Type} (eqb : K -> K -> bool) (d : list (K * V)) k v :
  forallb (fun kv => negb (eqb (fst kv) k)) d = true ->
  dict_set eqb d k v = d ++ [(k, v)] /\ dict_get eqb d k = None.
Proof.
  induction d as [| [k' v'] d IH]; simpl; intros H.
  - split; reflexivity.
  - apply andb_true_iff in H. destruct H as [H1 H2].
    apply negb_true_iff in H1. rewrite H1.
    destruct (IH H2) as [-> ->]. split; reflexivity.
Qed.



Lemma Weights_eqb_refl a : ir.Weights_eqb a a = true.
Proof.
  induction a as [| x a IH]; simpl; [reflexivity |].
  rewrite Qeq_bool_refl, IH. reflexivity.
Qed.












(** ** Merging drives into the running sequence *)


(** Adding a field of one drive: the key takes the waveform, or the sum
    of the waveform it had and the new one. *)
Lemma Field_add_single field k w' :
  ir.Field_add field (ir.mkField [(k, w')])
  = ir.mkField
      (dict_set ir.SpatialModulation_eqb (ir.drives field) k
         match dict_get ir.SpatialModulation_eqb (ir.drives field) k with
         | Some w => ir.Add w w'
         | None => w'
         end).
Proof.
  unfold ir.Field_add; simpl.
  destruct (dict_get ir.SpatialModulation_eqb (ir.drives field) k);
    reflexivity.
Qed.








(** Two drives on one key under one coupling and the field
    [Detuning], for every coupling, spatial key and pair of waveforms:
    the sequence holds the sum of the two waveforms under the key. *)
Lemma parse_sequence_two_drives coupling spatial a b :
  is_coupling coupling = true ->
  SpatialModulation spatial = true ->
  bind (Parser.parse_sequence Parser.new
          (Examples.two_drives coupling spatial a b))
       (fun r => Ok (fst r))
  = Ok (Examples.one_drive (Examples.coupling_of coupling) ir.detuning
          (Examples.key_of spatial) (ir.Add a b)).
Proof.
  intros Hc Hs.
  destruct coupling; try discriminate Hc;
    destruct spatial as [| | | | | | | label | | [name | ws] | | | | | | | | | | |];
    try discriminate Hs; cbn; unfold ir.Field_add; cbn;
    rewrite ?Nat.eqb_refl, ?String.eqb_refl, ?Weights_eqb_refl; reflexivity.
Qed.

Lemma parse_sequence_same_key :
  Parser.parse_sequence Parser.new Examples.chain_same_key
  = Ok (Examples.one_drive ir.rydberg ir.detuning ir.Uniform
          (ir.Add Examples.linear01 Examples.linear01),
        Examples.parser_after
          (Parser.parse_sequence Parser.new Examples.chain_same_key)).
Proof. reflexivity. Qed.

(** ** The constant-waveform analysis *)

Section Analysis.
Context {layer : WaveformLayer}.
Variable assignments : Assignments.

Lemma Qeq_bool_diff (s e : Decimal) :
  Qeq_bool (e - s) 0 = true <-> s == e.
Proof.
  rewrite Qeq_bool_iff. split; intros H; lra.
Qed.

(** The loop of [visit_append] inside [visit] is the loop over [emit]
    of the source. *)
Lemma visit_Append waveforms is_constant :
  IsConstantWaveform.visit assignments (ir.Append waveforms) is_constant
  = IsConstantWaveform.visit_append assignments waveforms None is_constant.
Proof.
  cbn [IsConstantWaveform.visit].
  generalize (@None Decimal) as value. revert is_constant.
  induction waveforms as [| wf wfs IH]; intros is_constant value.
  - reflexivity.
  - cbn [IsConstantWaveform.visit_append].
    unfold IsConstantWaveform.emit, IsConstantWaveform.emit_from.
    destruct (IsConstantWaveform.visit assignments wf true) as [b | e];
      [| reflexivity].
    cbn [bind].
    destruct (duration wf assignments) as [d | e]; [| reflexivity].
    cbn [bind].
    destruct (eval_decimal wf d assignments) as [v | e]; [| reflexivity].
    cbn [bind IsConstantWaveform.constant_waveform
           IsConstantWaveform.is_constant IsConstantWaveform.value_of
           IsConstantWaveform.Constant_of].
    destruct (negb _); [reflexivity |]. apply IH.
Qed.

(** C6.  For a [Linear] waveform whose [start] and [stop] evaluate to
    [s] and [e], whose total duration is [d] and whose value at [d] is
    [v]: [emit] returns the verdict that is true exactly when [s]
    equals [e], and with either verdict the folded waveform
    [Constant(v, d)]. *)
Theorem emit_linear start stop dur s e d v :
  call start assignments = Ok s ->
  call stop assignments = Ok e ->
  duration (ir.Linear start stop dur) assignments = Ok d ->
  eval_decimal (ir.Linear start stop dur) d assignments = Ok v ->
  exists verdict,
    IsConstantWaveform.emit assignments (ir.Linear start stop dur)
    = Ok (IsConstantWaveform.mkResult verdict
            (ir.Constant (Literal v) (Literal d))) /\
    (verdict = true <-> s == e).
Proof.
  intros Hs He Hd Hv.
  exists (Qeq_bool (e - s) 0). split.
  - unfold IsConstantWaveform.emit, IsConstantWaveform.emit_from.
    cbn [IsConstantWaveform.visit]. rewrite He, Hs. cbn [bind andb].
    rewrite Hd. cbn [bind]. rewrite Hv. reflexivity.
  - apply Qeq_bool_diff.
Qed.

(** C7.  For an [Add] whose operands have the durations [dl] and [dr]
    that differ: the visit ends with the verdict false from the two
    durations alone, whatever a visit of the operands would give or
    raise, and [emit] returns false with the folded waveform of the
    duration [d] and the end value [v] of the sum. *)
Theorem emit_add_duration_mismatch ast_left ast_right dl dr d v :
  duration ast_left assignments = Ok dl ->
  duration ast_right assignments = Ok dr ->
  ~ dl == dr ->
  duration (ir.Add ast_left ast_right) assignments = Ok d ->
  eval_decimal (ir.Add ast_left ast_right) d assignments = Ok v ->
  (forall is_constant,
     IsConstantWaveform.visit assignments (ir.Add ast_left ast_right)
       is_constant = Ok false) /\
  IsConstantWaveform.emit assignments (ir.Add ast_left ast_right)
  = Ok (IsConstantWaveform.mkResult false
          (ir.Constant (Literal v) (Literal d))).
Proof.
  intros Hl Hr Hne Hd Hv.
  assert (Hvisit : forall is_constant,
             IsConstantWaveform.visit assignments
               (ir.Add ast_left ast_right) is_constant = Ok false).
  { intros is_constant. cbn [IsConstantWaveform.visit].
    rewrite Hl, Hr. cbn [bind].
    destruct (Qeq_bool dl dr) eqn:E; [| reflexivity].
    exfalso. apply Hne. apply Qeq_bool_iff, E. }
  split; [exact Hvisit |].
  unfold IsConstantWaveform.emit, IsConstantWaveform.emit_from.
  rewrite Hvisit. cbn [bind]. rewrite Hd. cbn [bind]. rewrite Hv.
  reflexivity.
Qed.

End Analysis.

(** Property P4 of the specification, on the layer [spec_layer]. *)
Lemma emit_linear_witness :
  @IsConstantWaveform.emit spec_layer.layer []
    (ir.Linear (Literal 1) (Literal 1) (Literal 2))
  = Ok (IsConstantWaveform.mkResult true (ir.Constant (Literal 1) (Literal 2))).
Proof.
  destruct (@emit_linear spec_layer.layer [] (Literal 1) (Literal 1)
              (Literal 2) 1%Q 1%Q 2%Q 1%Q eq_refl eq_refl eq_refl eq_refl)
    as (verdict & Hemit & Hverdict).
  rewrite Hemit.
  assert (E : verdict = true) by (apply Hverdict; reflexivity).
  rewrite E. reflexivity.
Defined.

(** Property P6 of the specification, on the layer [spec_layer]. *)
Lemma emit_add_duration_mismatch_witness :
  exists wf,
    @IsConstantWaveform.emit spec_layer.layer []
      (ir.Add (ir.Constant (Literal 1) (Literal 1))
              (ir.Constant (Literal 1) (Literal 2)))
    = Ok (IsConstantWaveform.mkResult false wf).
Proof.
  eexists.
  apply (proj2 (@emit_add_duration_mismatch spec_layer.layer []
                  (ir.Constant (Literal 1) (Literal 1))
                  (ir.Constant (Literal 1) (Literal 2))
                  1%Q 2%Q 2%Q 2%Q eq_refl eq_refl
                  (fun H => Qeq_bool_neq 1 2 eq_refl H) eq_refl eq_refl)).
Defined.

(** Property P5 of the specification, on the layer [spec_layer]. *)
Lemma emit_linear_not_constant :
  @IsConstantWaveform.emit spec_layer.layer []
    (ir.Linear (Literal 0) (Literal 1) (Literal 2))
  = Ok (IsConstantWaveform.mkResult false (ir.Constant (Literal 1) (Literal 2))).
Proof. reflexivity. Qed.

(** The visit of an [Add] with a duration mismatch does not visit the
    operands: the visit of the left operand alone raises here. *)
Lemma visit_add_skips_operands :
  let unbound := ir.Linear (Variable_ "x") (Literal 1) (Literal 1) in
  @IsConstantWaveform.visit spec_layer.layer [] unbound true
  = Raise (EvaluationError "x") /\
  @IsConstantWaveform.visit spec_layer.layer []
    (ir.Add unbound (ir.Constant (Literal 1) (Literal 2))) true
  = Ok false.
Proof. split; reflexivity. Qed.

(** On the layer [spec_layer] the analysis of a [Linear] waveform with
    bound scalars and a duration other than zero returns, and the value
    of the folded constant is the value of [stop]. *)
Lemma linear_end_value a start stop dur s e d :
  call start a = Ok s ->
  call stop a = Ok e ->
  call dur a = Ok d ->
  ~ d == 0 ->
  exists v,
    @IsConstantWaveform.emit spec_layer.layer a (ir.Linear start stop dur)
    = Ok (IsConstantWaveform.mkResult (Qeq_bool (e - s) 0)
            (ir.Constant (Literal v) (Literal d))) /\
    v == e.
Proof.
  intros Hs He Hd Hne.
  unfold IsConstantWaveform.emit, IsConstantWaveform.emit_from.
  cbn [IsConstantWaveform.visit]. rewrite He, Hs. cbn [bind andb].
  cbn [duration eval_decimal spec_layer.layer spec_layer.duration_of
         spec_layer.value_at].
  rewrite Hd. cbn [bind]. rewrite Hs, He. cbn [bind].
  destruct (Qeq_bool d 0) eqn:E.
  - exfalso. apply Hne. apply Qeq_bool_iff, E.
  - eexists. split; [reflexivity |].
    rewrite Qred_correct. field. exact Hne.
Qed.

(** ** The constant-circuit analysis *)

Lemma unique_keys_same_keys {K V V' : Type} (eqb : K -> K -> bool)
    (d : list (K * V)) : forall (d' : list (K * V')),
  map fst d = map fst d' -> unique_keys eqb d = unique_keys eqb d'.
Proof.
  induction d as [| [k v] d IH]; intros [| [k' v'] d'] H; simpl in *;
    try discriminate H; [reflexivity |].
  inversion H as [[Hk Hd]]. subst k'. rewrite (IH d' Hd). f_equal.
  clear IH H. revert d' Hd.
  induction d as [| [k1 v1] d IH]; intros [| [k1' v1'] d'] H; simpl in *;
    try discriminate H; [reflexivity |].
  inversion H as [[Hk Hd]]. subst k1'. rewrite (IH d' Hd). reflexivity.
Qed.

(** In a dictionary with pairwise different keys, a key equals none of
    the keys before it. *)
Lemma unique_keys_before {K V : Type} (eqb : K -> K -> bool)
    (acc : list (K * V)) k v rest :
  unique_keys eqb (acc ++ (k, v) :: rest) = true ->
  forallb (fun kv => negb (eqb (fst kv) k)) acc = true.
Proof.
  induction acc as [| [k' v'] acc IH]; simpl; intros H.
  - reflexivity.
  - apply andb_true_iff in H. destruct H as [H1 H2].
    rewrite (IH H2), andb_true_r.
    rewrite forallb_app in H1. apply andb_true_iff in H1.
    destruct H1 as [_ H1]. simpl in H1.
    apply andb_true_iff in H1. destruct H1 as [H1 _]. exact H1.
Qed.

Lemma unique_keys_snoc {K V : Type} (eqb : K -> K -> bool)
    (acc : list (K * V)) k v v' rest :
  unique_keys eqb (acc ++ (k, v) :: rest) = true ->
  unique_keys eqb ((acc ++ [(k, v')]) ++ rest) = true.
Proof.
  intros H. rewrite <- H. apply unique_keys_same_keys.
  rewrite <- app_assoc, !map_app. reflexivity.
Qed.

Section CircuitAnalysis.
Context {layer : WaveformLayer}.
Variable assignments : Assignments.

(** The law of the value layer that the circuit visitor relies on: the
    duration of a folded constant is its duration field. *)
Hypothesis duration_Constant :
  forall v d,
    duration (ir.Constant (Literal v) (Literal d)) assignments = Ok d.

Lemma visit_waveform_step self w r :
  IsConstantWaveform.emit assignments w = Ok r ->
  IsConstantAnalogCircuit.visit_waveform assignments self w
  = Ok (Spec.step assignments self w, Spec.folded assignments w).
Proof.
  intros Hr. unfold IsConstantAnalogCircuit.visit_waveform, Spec.step,
    Spec.folded, Spec.individually_constant, Spec.total_duration.
  rewrite Hr. cbn [bind].
  unfold IsConstantWaveform.emit, IsConstantWaveform.emit_from in Hr.
  apply bind_Ok in Hr. destruct Hr as (b & _ & Hr).
  apply bind_Ok in Hr. destruct Hr as (d & Hd & Hr).
  apply bind_Ok in Hr. destruct Hr as (v & _ & Hr).
  inversion Hr; subst r. clear Hr.
  cbn [IsConstantWaveform.constant_waveform IsConstantWaveform.is_constant
         IsConstantWaveform.Constant_of].
  unfold IsConstantWaveform.Constant_of.
  rewrite duration_Constant, Hd. cbn [bind].
  destruct (IsConstantAnalogCircuit.self_duration self) as [d0 |];
    [| reflexivity].
  destruct (Qeq_bool d0 d); cbn [negb]; rewrite ?andb_true_r, ?andb_false_r;
    reflexivity.
Qed.

Lemma visit_drives_run items : forall self acc,
  Spec.emits assignments (map snd items) ->
  unique_keys ir.SpatialModulation_eqb (ir.drives acc ++ items) = true ->
  IsConstantAnalogCircuit.visit_drives assignments self acc items
  = Ok (Spec.run assignments self (map snd items),
        ir.mkField
          (ir.drives acc
           ++ map (fun kv => (fst kv, Spec.folded assignments (snd kv)))
                items)).
Proof.
  induction items as [| [k w] items IH]; intros self acc He Hu.
  - simpl. rewrite app_nil_r. destruct acc; reflexivity.
  - cbn [IsConstantAnalogCircuit.visit_drives].
    destruct (He w (or_introl eq_refl)) as [r Hr].
    rewrite (visit_waveform_step self w r Hr). cbn [bind].
    rewrite Field_add_single.
    destruct (dict_set_new ir.SpatialModulation_eqb (ir.drives acc) k
                (Spec.folded assignments w)
                (unique_keys_before _ _ _ _ _ Hu)) as [Hset Hget].
    rewrite Hget, Hset.
    rewrite IH.
    + cbn [ir.drives map fst snd]. rewrite <- app_assoc. reflexivity.
    + intros w' Hw'. apply He. right. exact Hw'.
    + cbn [ir.drives]. exact (unique_keys_snoc _ _ _ _ _ _ Hu).
Qed.

Lemma visit_field_run self fd :
  Spec.emits assignments (Spec.waveforms_of_field fd) ->
  Spec.unique_field fd = true ->
  IsConstantAnalogCircuit.visit_field assignments self fd
  = Ok (Spec.run assignments self (Spec.waveforms_of_field fd),
        Spec.map_field (Spec.folded assignments) fd).
Proof.
  intros He Hu. unfold IsConstantAnalogCircuit.visit_field.
  rewrite visit_drives_run; [reflexivity | exact He | exact Hu].
Qed.

Lemma emits_app l1 l2 :
  Spec.emits assignments (l1 ++ l2) ->
  Spec.emits assignments l1 /\ Spec.emits assignments l2.
Proof.
  intros H. split; intros w Hw; apply H, in_or_app; [left | right]; exact Hw.
Qed.

Lemma run_app self l1 l2 :
  Spec.run assignments self (l1 ++ l2)
  = Spec.run assignments (Spec.run assignments self l1) l2.
Proof. apply fold_left_app. Qed.

Lemma visit_fields_run items : forall self acc,
  Spec.emits assignments
    (flat_map (fun kv => Spec.waveforms_of_field (snd kv)) items) ->
  unique_keys ir.FieldName_eqb (ir.fields acc ++ items) = true ->
  forallb (fun kv => Spec.unique_field (snd kv)) items = true ->
  IsConstantAnalogCircuit.visit_fields assignments self acc items
  = Ok (Spec.run assignments self
          (flat_map (fun kv => Spec.waveforms_of_field (snd kv)) items),
        ir.mkPulse
          (ir.fields acc
           ++ map (fun kv =>
                     (fst kv, Spec.map_field (Spec.folded assignments) (snd kv)))
                items)).
Proof.
  induction items as [| [k fd] items IH]; intros self acc He Hu Hf.
  - simpl. rewrite app_nil_r. destruct acc; reflexivity.
  - cbn [IsConstantAnalogCircuit.visit_fields].
    cbn [flat_map snd] in He. apply emits_app in He. destruct He as [He1 He2].
    cbn [forallb snd] in Hf. apply andb_true_iff in Hf.
    destruct Hf as [Hf1 Hf2].
    rewrite (visit_field_run self fd He1 Hf1). cbn [bind].
    destruct (dict_set_new ir.FieldName_eqb (ir.fields acc) k
                (Spec.map_field (Spec.folded assignments) fd)
                (unique_keys_before _ _ _ _ _ Hu)) as [Hset _].
    rewrite Hset, IH.
    + cbn [ir.fields map flat_map fst snd].
      rewrite <- app_assoc, run_app. reflexivity.
    + exact He2.
    + cbn [ir.fields]. exact (unique_keys_snoc _ _ _ _ _ _ Hu).
    + exact Hf2.
Qed.

Lemma visit_pulse_run self p :
  Spec.emits assignments (Spec.waveforms_of_pulse p) ->
  Spec.unique_pulse p = true ->
  IsConstantAnalogCircuit.visit_pulse assignments self p
  = Ok (Spec.run assignments self (Spec.waveforms_of_pulse p),
        Spec.map_pulse (Spec.folded assignments) p).
Proof.
  intros He Hu. unfold IsConstantAnalogCircuit.visit_pulse.
  unfold Spec.unique_pulse in Hu. apply andb_true_iff in Hu.
  destruct Hu as [Hu1 Hu2].
  rewrite visit_fields_run; [reflexivity | exact He | exact Hu1 | exact Hu2].
Qed.

Lemma visit_pulses_run items : forall self acc,
  Spec.emits assignments
    (flat_map (fun kv => Spec.waveforms_of_pulse (snd kv)) items) ->
  unique_keys ir.LevelCoupling_eqb (ir.pulses acc ++ items) = true ->
  forallb (fun kv => Spec.unique_pulse (snd kv)) items = true ->
  IsConstantAnalogCircuit.visit_pulses assignments self acc items
  = Ok (Spec.run assignments self
          (flat_map (fun kv => Spec.waveforms_of_pulse (snd kv)) items),
        ir.mkSequence
          (ir.pulses acc
           ++ map (fun kv =>
                     (fst kv, Spec.map_pulse (Spec.folded assignments) (snd kv)))
                items)).
Proof.
  induction items as [| [k p] items IH]; intros self acc He Hu Hf.
  - simpl. rewrite app_nil_r. destruct acc; reflexivity.
  - cbn [IsConstantAnalogCircuit.visit_pulses].
    cbn [flat_map snd] in He. apply emits_app in He. destruct He as [He1 He2].
    cbn [forallb snd] in Hf. apply andb_true_iff in Hf.
    destruct Hf as [Hf1 Hf2].
    rewrite (visit_pulse_run self p He1 Hf1). cbn [bind].
    destruct (dict_set_new ir.LevelCoupling_eqb (ir.pulses acc) k
                (Spec.map_pulse (Spec.folded assignments) p)
                (unique_keys_before _ _ _ _ _ Hu)) as [Hset _].
    rewrite Hset, IH.
    + cbn [ir.pulses map flat_map fst snd].
      rewrite <- app_assoc, run_app. reflexivity.
    + exact He2.
    + cbn [ir.pulses]. exact (unique_keys_snoc _ _ _ _ _ _ Hu).
    + exact Hf2.
Qed.

Lemma run_cons self w ws :
  Spec.run assignments self (w :: ws)
  = Spec.run assignments (Spec.step assignments self w) ws.
Proof. reflexivity. Qed.

Lemma step_from_duration b d0 w :
  Spec.step assignments (IsConstantAnalogCircuit.mkState b (Some d0)) w
  = IsConstantAnalogCircuit.mkState
      (b && Spec.individually_constant assignments w
       && Qeq_bool d0 (Spec.total_duration assignments w))
      (Some d0).
Proof. reflexivity. Qed.

Lemma step_init w :
  Spec.step assignments IsConstantAnalogCircuit.init w
  = IsConstantAnalogCircuit.mkState
      (Spec.individually_constant assignments w)
      (Some (Spec.total_duration assignments w)).
Proof. reflexivity. Qed.

Lemma run_from_duration ws : forall b d0,
  IsConstantAnalogCircuit.self_is_constant
    (Spec.run assignments (IsConstantAnalogCircuit.mkState b (Some d0)) ws)
  = true <->
  b = true /\
  forall w, In w ws ->
    Spec.individually_constant assignments w = true /\
    d0 == Spec.total_duration assignments w.
Proof.
  induction ws as [| w ws IH]; intros b d0.
  - simpl. split; [intros H; split; [exact H | intros w []] | intros [H _]; exact H].
  - rewrite run_cons, step_from_duration, IH.
    rewrite !andb_true_iff, Qeq_bool_iff. split.
    + intros [[[Hb Hc] Hd] Hrest]. split; [exact Hb |].
      intros w' [Hw' | Hw']; [subst w'; split; assumption | exact (Hrest w' Hw')].
    + intros [Hb Hall]. split.
      * destruct (Hall w (or_introl eq_refl)) as [Hc Hd]. repeat split; assumption.
      * intros w' Hw'. exact (Hall w' (or_intror Hw')).
Qed.

(** The verdict of a new visitor after the waveforms [ws]. *)
Lemma run_verdict ws :
  IsConstantAnalogCircuit.self_is_constant
    (Spec.run assignments IsConstantAnalogCircuit.init ws) = true <->
  (forall w, In w ws -> Spec.individually_constant assignments w = true) /\
  (forall w1 w2, In w1 ws -> In w2 ws ->
     Spec.total_duration assignments w1 == Spec.total_duration assignments w2).
Proof.
  destruct ws as [| w ws].
  - simpl. split; [| reflexivity].
    intros _. split; [intros w [] | intros w1 w2 []].
  - rewrite run_cons, step_init, run_from_duration. split.
    + intros [Hc Hall]. split.
      * intros w' [Hw' | Hw']; [subst w'; exact Hc | exact (proj1 (Hall w' Hw'))].
      * assert (Hd : forall w', In w' (w :: ws) ->
                   Spec.total_duration assignments w
                   == Spec.total_duration assignments w').
        { intros w' [Hw' | Hw']; [subst w'; reflexivity |].
          exact (proj2 (Hall w' Hw')). }
        intros w1 w2 H1 H2. rewrite <- (Hd w1 H1), <- (Hd w2 H2). reflexivity.
    + intros [Hc Hd]. split; [apply Hc; left; reflexivity |].
      intros w' Hw'. split.
      * apply Hc. right. exact Hw'.
      * apply Hd; [left; reflexivity | right; exact Hw'].
Qed.

(** The folded representative is the constant of the end value and the
    total duration. *)
Lemma folded_Constant w r :
  IsConstantWaveform.emit assignments w = Ok r ->
  exists v d,
    Spec.folded assignments w = ir.Constant (Literal v) (Literal d) /\
    duration w assignments = Ok d /\
    eval_decimal w d assignments = Ok v.
Proof.
  intros Hr. unfold Spec.folded. rewrite Hr.
  unfold IsConstantWaveform.emit, IsConstantWaveform.emit_from in Hr.
  apply bind_Ok in Hr. destruct Hr as (b & _ & Hr).
  apply bind_Ok in Hr. destruct Hr as (d & Hd & Hr).
  apply bind_Ok in Hr. destruct Hr as (v & Hv & Hr).
  inversion Hr; subst r. exists v, d. repeat split; assumption.
Qed.

(** C8.  For a circuit whose waveforms the waveform analysis evaluates:
    [emit] returns the circuit with every waveform leaf replaced by its
    folded representative, which is the constant of the end value and
    the total duration of the leaf, whatever the verdict; and the
    verdict is true exactly when every waveform is individually
    constant and any two waveforms have the same total duration. *)
Theorem emit_circuit_folds (c : AnalogCircuit) :
  Spec.unique_sequence (sequence c) = true ->
  Spec.emits assignments (Spec.waveforms_of_sequence (sequence c)) ->
  exists verdict,
    IsConstantAnalogCircuit.emit assignments c
    = Ok (IsConstantAnalogCircuit.mkResult verdict
            (Spec.map_circuit (Spec.folded assignments) c)) /\
    (forall w, In w (Spec.waveforms_of_sequence (sequence c)) ->
       exists v d,
         Spec.folded assignments w = ir.Constant (Literal v) (Literal d) /\
         duration w assignments = Ok d /\
         eval_decimal w d assignments = Ok v) /\
    (verdict = true <->
     (forall w, In w (Spec.waveforms_of_sequence (sequence c)) ->
        Spec.individually_constant assignments w = true) /\
     (forall w1 w2,
        In w1 (Spec.waveforms_of_sequence (sequence c)) ->
        In w2 (Spec.waveforms_of_sequence (sequence c)) ->
        Spec.total_duration assignments w1
        == Spec.total_duration assignments w2)).
Proof.
  intros Hu He.
  unfold Spec.unique_sequence in Hu. apply andb_true_iff in Hu.
  destruct Hu as [Hu1 Hu2].
  eexists. split; [| split].
  - unfold IsConstantAnalogCircuit.emit,
      IsConstantAnalogCircuit.visit_analog_circuit,
      IsConstantAnalogCircuit.visit_sequence.
    rewrite visit_pulses_run; [| exact He | exact Hu1 | exact Hu2].
    cbn [bind]. reflexivity.
  - intros w Hw. destruct (He w Hw) as [r Hr]. exact (folded_Constant w r Hr).
  - cbn [IsConstantAnalogCircuit.self_is_constant]. apply run_verdict.
Qed.

End CircuitAnalysis.

Lemma emit_circuit_folds_witness :
  @IsConstantAnalogCircuit.emit spec_layer.layer [] Examples.constant_circuit
  = Ok (IsConstantAnalogCircuit.mkResult true (Examples.folded_circuit 2)).
Proof.
  destruct (@emit_circuit_folds spec_layer.layer [] (fun v d => eq_refl)
              Examples.constant_circuit eq_refl)
    as (verdict & Hemit & _ & _).
  - intros w [<- | [<- | []]]; eexists; reflexivity.
  - rewrite Hemit. vm_compute in Hemit.
    injection Hemit as Hverdict. rewrite <- Hverdict. reflexivity.
Defined.

(** With two drives of different durations the verdict is false and the
    leaves are folded all the same. *)
Lemma emit_uneven_circuit :
  @IsConstantAnalogCircuit.emit spec_layer.layer [] Examples.uneven_circuit
  = Ok (IsConstantAnalogCircuit.mkResult false (Examples.folded_circuit 3)).
Proof. reflexivity. Qed.

(** ** The exceptions of a parse *)

Lemma bind_Raise {A B : Type} (m : Res A) (k : A -> Res B) (e : Error) :
  bind m k = Raise e -> m = Raise e \/ exists a, m = Ok a /\ k a = Raise e.
Proof.
  destruct m as [a | e']; simpl; intros H.
  - right. exists a. split; [reflexivity | exact H].
  - left. inversion H. reflexivity.
Qed.

Ltac raise_cases :=
  repeat match goal with
    | H : bind _ _ = Raise _ |- _ =>
        apply bind_Raise in H; destruct H as [H | (? & ? & H)]
    | H : Raise _ = Raise _ |- _ => inversion H; subst; clear H
    | H : Ok _ = Raise _ |- _ => discriminate H
    | H : Parser.getattr _ ?x = Raise _ |- _ =>
        destruct x; simpl in H
    | H : __bloqade_ir__ ?b = Raise _ |- _ =>
        unfold __bloqade_ir__ in H; destruct (node_of b)
    | H : Parser.as_waveform ?v = Raise _ |- _ => destruct v; simpl in H
    | H : Parser.as_spatial ?v = Raise _ |- _ => destruct v; simpl in H
    | H : Parser.as_coupling ?v = Raise _ |- _ => destruct v; simpl in H
    | H : Parser.as_field_name ?v = Raise _ |- _ => destruct v; simpl in H
    | H : match ?x with _ => _ end = Raise _ |- _ => destruct x
    end;
  try exact I.

Lemma read_waveform_loop_raises self curr : forall acc e,
  Parser.read_waveform_loop self acc curr = Raise e -> Spec.reading_error e.
Proof.
  induction curr as [| b next IH]; intros acc e H; simpl in H.
  - discriminate H.
  - unfold Parser.read_sample, Parser.read_primitive in H.
    destruct (node_of b); raise_cases; try (eapply IH; eassumption).
Qed.

Lemma read_drive_raises self head e :
  Parser.read_drive self head = Raise e -> Spec.reading_error e.
Proof.
  destruct head as [| b next]; simpl; intros H; [discriminate H |].
  unfold Parser.read_waveform, Parser.Field_singleton in H.
  raise_cases; eapply read_waveform_loop_raises; eassumption.
Qed.

Lemma read_address_raises stream_curr e :
  Parser.read_address stream_curr = Raise e -> Spec.reading_error e.
Proof.
  unfold Parser.read_address.
  destruct (read_next SpatialModulation stream_curr) as [[| sp next] rest];
    intros H; [discriminate H |].
  destruct (type_in is_field (parent_of sp)); [| discriminate H].
  destruct (parent_of sp) as [f |]; [| discriminate H].
  destruct (is_rabi_field (node_of f)); raise_cases.
Qed.

Lemma update_names_raises self cb fb e :
  Parser.update_names self cb fb = Raise e -> Spec.reading_error e.
Proof.
  unfold Parser.update_names. intros H. raise_cases.
Qed.

Lemma merge_drive_raises self head e :
  Parser.merge_drive self head = Raise e -> Spec.reading_error e.
Proof.
  unfold Parser.merge_drive. intros H.
  raise_cases; eapply read_drive_raises; eassumption.
Qed.

(** [read_next] leaves a cursor that is shorter than the stream. *)
Lemma read_next_shorter types (stream_curr : BuilderNode) :
  stream_curr <> [] ->
  (List.length (snd (read_next types stream_curr))
   < List.length stream_curr)%nat.
Proof.
  induction stream_curr as [| b next IH]; intros H; [contradiction |].
  simpl. destruct (types (node_of b)); simpl; [lia |].
  destruct next as [| b' next']; [simpl; lia |].
  assert (Hn : b' :: next' <> []) by discriminate.
  specialize (IH Hn). simpl in *. lia.
Qed.

Lemma read_address_shorter stream_curr r rest :
  stream_curr <> [] ->
  Parser.read_address stream_curr = Ok (r, rest) ->
  (List.length rest < List.length stream_curr)%nat.
Proof.
  intros Hne H. pose proof (read_next_shorter SpatialModulation _ Hne) as Hs.
  unfold Parser.read_address in H.
  destruct (read_next SpatialModulation stream_curr) as [[| sp next] rest'];
    simpl in Hs.
  - inversion H; subst. exact Hs.
  - destruct (type_in is_field (parent_of sp));
      [| inversion H; subst; exact Hs].
    destruct (parent_of sp) as [f |]; [| inversion H; subst; exact Hs].
    apply bind_Ok in H. destruct H as (c & _ & H).
    inversion H; subst. exact Hs.
Qed.

(** The bound of the loop is never reached: with as many turns as the
    stream has nodes, the loop raises only what reading raises. *)
Lemma read_sequence_loop_raises fuel : forall self stream_curr e,
  (List.length stream_curr <= fuel)%nat ->
  Parser.read_sequence_loop fuel self stream_curr = Raise e ->
  Spec.reading_error e.
Proof.
  induction fuel as [| fuel IH]; intros self stream_curr e Hlen H.
  - destruct stream_curr; simpl in *; [discriminate H | lia].
  - destruct stream_curr as [| b l]; [discriminate H |].
    cbn [Parser.read_sequence_loop] in H.
    apply bind_Raise in H. destruct H as [H | ([[[cb fb] sp] rest] & Ha & H)].
    { exact (read_address_raises _ _ H). }
    apply bind_Raise in H. destruct H as [H | (self1 & _ & H)].
    { exact (update_names_raises _ _ _ _ H). }
    destruct sp as [| s sp']; [discriminate H |].
    apply bind_Raise in H. destruct H as [H | (self2 & _ & H)].
    { exact (merge_drive_raises _ _ _ H). }
    assert (Hne : b :: l <> []) by discriminate.
    pose proof (read_address_shorter (b :: l) _ _ Hne Ha) as Hs.
    apply (IH self2 rest e); [simpl in Hlen, Hs; lia | exact H].
Qed.

Lemma read_sequence_raises self e :
  Parser.read_sequence self = Raise e -> Spec.reading_error e.
Proof.
  unfold Parser.read_sequence. intros H.
  apply bind_Raise in H. destruct H as [H | (s & _ & H)].
  { destruct (Parser.stream self); [discriminate H |].
    inversion H; exact I. }
  destruct (curr s) as [| b l] eqn:E; [inversion H; exact I |].
  unfold copy in H. rewrite E in H.
  destruct (node_of b);
    try exact (read_sequence_loop_raises _ _ _ _ (Nat.le_refl _) H).
  unfold read in H. rewrite E in H. discriminate H.
Qed.

Lemma read_register_raises self e :
  Parser.read_register self = Raise e -> Spec.reading_error e.
Proof.
  unfold Parser.read_register. intros H.
  apply bind_Raise in H. destruct H as [H | (s & _ & H)].
  { destruct (Parser.stream self); [discriminate H |].
    inversion H; exact I. }
  unfold read in H. destruct (curr s); [inversion H; exact I | discriminate H].
Qed.

Lemma read_register_vector_names self self' :
  Parser.read_register self = Ok self' ->
  Parser.vector_node_names self' = Parser.vector_node_names self.
Proof.
  unfold Parser.read_register. intros H.
  apply bind_Ok in H. destruct H as (s & _ & H).
  unfold read in H. destruct (curr s); [discriminate H |].
  inversion H; reflexivity.
Qed.

(** The sequence pass of a parse returns or raises an exception of
    Python: the bound of its loop is not reached. *)
Lemma read_sequence_within_bound self :
  Parser.read_sequence self <> Raise OutOfFuel.
Proof.
  intros H. exact (read_sequence_raises _ _ H).
Qed.

(** For every chain and every parser, [parse] does not raise the error
    of line 190: its pragma pass runs with no vector-node name
    recorded. *)
Lemma parse_never_raises_vector_names self b names :
  Parser.parse self b <> Raise (ValueError (RunTimeVectorArguments names)).
Proof.
  unfold Parser.parse. intros H.
  apply bind_Raise in H. destruct H as [H | (self1 & H1 & H)].
  { exact (read_register_raises _ _ H). }
  apply bind_Raise in H. destruct H as [H | (self2 & H2 & H)].
  { exact (read_sequence_raises _ _ H). }
  apply bind_Raise in H. destruct H as [H | (self3 & _ & H)].
  - unfold Parser.read_pragmas in H.
    apply bind_Raise in H. destruct H as [H | (s & _ & H)].
    { destruct (Parser.stream self2); [discriminate H | inversion H]. }
    destruct (read_next pragma_types (curr (copy s))) as [c r].
    apply (read_pragmas_loop_no_vector_names c self2 names); [| exact H].
    rewrite (read_sequence_vector_names _ _ H2).
    rewrite (read_register_vector_names _ _ H1). reflexivity.
  - apply bind_Raise in H. destruct H as [H | (circuit & _ & H)].
    + unfold Parser.make_circuit in H.
      destruct (Parser.register self3); [discriminate H | inversion H].
    + discriminate H.
Qed.

(* ================================================================== *)
(** * Further properties of the parser *)

(** ** The fold of the waveform nodes *)

Lemma read_primitive_Some acc b w :
  Parser.read_primitive acc b = Ok w -> exists x, w = Some x.
Proof.
  unfold Parser.read_primitive. intros H.
  apply bind_Ok in H. destruct H as (v & _ & H).
  apply bind_Ok in H. destruct H as (fw & _ & H).
  destruct acc; inversion H; eexists; reflexivity.
Qed.

Lemma read_sample_Some self acc b i dt w :
  Parser.read_sample self acc b i dt = Ok w -> exists x, w = Some x.
Proof.
  unfold Parser.read_sample. intros H.
  apply bind_Ok in H. destruct H as (i' & _ & H).
  apply bind_Ok in H. destruct H as (p & _ & H).
  apply bind_Ok in H. destruct H as (v & _ & H).
  apply bind_Ok in H. destruct H as (fw & _ & H).
  destruct acc; inversion H; eexists; reflexivity.
Qed.

(** X1.  When [read_waveform] returns from a cursor, the nodes it has
    passed are waveform nodes only, the cursor it returns stands at the
    first node that is not one (or at the end of the stream), and what
    lies behind is untouched; it returns no waveform only when it has
    passed no node. *)
Theorem read_waveform_stops self curr : forall acc w rest,
  Parser.read_waveform_loop self acc curr = Ok (w, rest) ->
  (exists passed,
     curr = passed ++ rest /\
     Forall (fun b => Spec.is_waveform_node (node_of b) = true) passed /\
     type_in Spec.is_waveform_node (hd_error rest) = false) /\
  (w = None -> acc = None /\ rest = curr).
Proof.
  induction curr as [| b next IH]; intros acc w rest H.
  - inversion H; subst. split.
    + exists []. repeat split; constructor.
    + intros ->. split; reflexivity.
  - assert (Hstep : forall acc',
               Parser.read_waveform_loop self acc' next = Ok (w, rest) ->
               Spec.is_waveform_node (node_of b) = true ->
               (acc' = None -> acc = None /\
                  type_in Spec.is_waveform_node (hd_error next) = true) ->
               (exists passed,
                  b :: next = passed ++ rest /\
                  Forall (fun b => Spec.is_waveform_node (node_of b) = true)
                    passed /\
                  type_in Spec.is_waveform_node (hd_error rest) = false) /\
               (w = None -> acc = None /\ rest = b :: next)).
    { intros acc' H' Hb Hacc.
      destruct (IH _ _ _ H') as [(passed & Hp & Hall & Hhd) Hnone]. split.
      - exists (b :: passed). rewrite Hp. repeat split; auto.
      - intros Hw. destruct (Hnone Hw) as [Hacc' Hrest].
        destruct (Hacc Hacc') as [_ Hnext].
        subst rest. rewrite Hnext in Hhd. discriminate Hhd. }
    simpl in H.
    destruct (node_of b) eqn:Eb;
      try (inversion H; subst; split;
           [exists []; repeat split;
              [constructor | cbn [hd_error type_in]; rewrite Eb; reflexivity]
           | intros ->; split; reflexivity]).
    + apply bind_Ok in H. destruct H as (w1 & H1 & H).
      destruct (read_primitive_Some _ _ _ H1) as [x ->].
      apply (Hstep _ H); [reflexivity | discriminate].
    + destruct (type_in is_Sample (hd_error next)) eqn:Es.
      * apply (Hstep _ H); [reflexivity |].
        intros ->. split; [reflexivity |].
        destruct next as [| n next']; [discriminate Es |].
        cbn [hd_error type_in] in *.
        destruct (node_of n); try discriminate Es. reflexivity.
      * apply bind_Ok in H. destruct H as (w1 & H1 & H).
        destruct (read_primitive_Some _ _ _ H1) as [x ->].
        apply (Hstep _ H); [reflexivity | discriminate].
    + destruct acc as [a |]; [| discriminate H].
      apply (Hstep _ H); [reflexivity | discriminate].
    + destruct acc as [a |]; [| discriminate H].
      apply (Hstep _ H); [reflexivity | discriminate].
    + apply bind_Ok in H. destruct H as (w1 & H1 & H).
      destruct (read_sample_Some _ _ _ _ _ _ H1) as [x ->].
      apply (Hstep _ H); [reflexivity | discriminate].
Qed.

Lemma read_waveform_stops_witness :
  let curr0 := skipn 4 (curr (create Examples.chain_same_key)) in
  (exists passed,
     curr0 = passed ++ skipn 5 (curr (create Examples.chain_same_key)) /\
     Forall (fun b => Spec.is_waveform_node (node_of b) = true) passed /\
     type_in Spec.is_waveform_node
       (hd_error (skipn 5 (curr (create Examples.chain_same_key)))) = false) /\
  (Some Examples.linear01 = None ->
   @None ir.Waveform = None /\
   skipn 5 (curr (create Examples.chain_same_key)) = curr0).
Proof.
  exact (read_waveform_stops Parser.new
           (skipn 4 (curr (create Examples.chain_same_key)))
           None (Some Examples.linear01)
           (skipn 5 (curr (create Examples.chain_same_key))) eq_refl).
Defined.

(** ** Precomputed sequences and chains of one node *)

(** The register pass on the stream of a chain: the register is the
    root of the chain, and the cursor moves behind it. *)
Lemma read_register_root self b root l :
  curr (create b) = root :: l ->
  Parser.read_register (Parser.reset self b)
  = Ok (Parser.set_register
          (Parser.set_stream (Parser.reset self b)
             (Some (mk (head (create b)) l)))
          (Some (Arrangement root))).
Proof.
  intros Hc. unfold Parser.read_register.
  cbn [Parser.reset Parser.stream Parser.getattr bind].
  unfold read. rewrite Hc. reflexivity.
Qed.

(** X2.  With a precomputed sequence as the second node of a chain,
    [parse_circuit] returns the root of the chain as the register and
    that sequence as it is: the nodes behind it are not read as drives,
    and the sticky names of the parser stay as they were. *)
Theorem parse_circuit_adopts self b root sb l _sequence :
  curr (create b) = root :: sb :: l ->
  node_of sb = SequenceBuilder _sequence ->
  exists p,
    Parser.parse_circuit self b
    = Ok (mkAnalogCircuit (Arrangement root) _sequence, p) /\
    Parser.coupling_name p = Parser.coupling_name self /\
    Parser.field_name p = Parser.field_name self.
Proof.
  intros Hc Hsb.
  unfold Parser.parse_circuit.
  rewrite (read_register_root self b root (sb :: l) Hc). cbn [bind].
  match goal with
  | |- context [Parser.read_sequence ?s] =>
      destruct (read_sequence_adopts s (mk (head (create b)) (sb :: l))
                  sb l _sequence eq_refl eq_refl Hsb)
        as (self' & Hr & Hs & Hcn & Hfn);
      rewrite Hr
  end.
  cbn [bind]. unfold Parser.make_circuit.
  assert (Hreg : Parser.register self' = Some (Arrangement root)).
  { unfold Parser.read_sequence in Hr. cbn in Hr. rewrite Hsb in Hr.
    inversion Hr. reflexivity. }
  rewrite Hreg, Hs. cbn [bind]. eexists. split; [reflexivity |].
  split; [exact Hcn | exact Hfn].
Qed.

Lemma parse_circuit_adopts_witness :
  exists p,
    Parser.parse_circuit Parser.new
      (Passes.chain_applied
         (Examples.one_drive ir.hyperfine ir.rabi_phase ir.Uniform
            Examples.linear10))
    = Ok (mkAnalogCircuit (Arrangement Examples.start)
            (Examples.one_drive ir.hyperfine ir.rabi_phase ir.Uniform
               Examples.linear10), p) /\
    Parser.coupling_name p = None /\
    Parser.field_name p = None.
Proof.
  apply (parse_circuit_adopts Parser.new
           (Passes.chain_applied
              (Examples.one_drive ir.hyperfine ir.rabi_phase ir.Uniform
                 Examples.linear10))
           Examples.start
           (Build (SequenceBuilder
                     (Examples.one_drive ir.hyperfine ir.rabi_phase ir.Uniform
                        Examples.linear10))
              (Some Examples.start))
           (skipn 2 (curr (create
              (Passes.chain_applied
                 (Examples.one_drive ir.hyperfine ir.rabi_phase ir.Uniform
                    Examples.linear10)))))).
  - reflexivity.
  - reflexivity.
Defined.

(** X3.  A chain of one node has nothing behind its register: [parse]
    and [parse_circuit] raise the attribute error of the node that the
    sequence pass looks for at the cursor, whatever the node is, and
    [parse_register] returns the node as the register. *)
Theorem parse_one_node self n :
  Parser.parse self (Build n None) = Raise (AttributeError "node") /\
  Parser.parse_circuit self (Build n None) = Raise (AttributeError "node") /\
  exists p,
    Parser.parse_register self (Build n None)
    = Ok (Some (Arrangement (Build n None)), p).
Proof.
  repeat split. eexists. reflexivity.
Qed.

(** ** The pragma pass *)

(** The loop of the pragma pass stops at the first node that is no
    pragma: what lies behind that node is not read. *)
Lemma read_pragmas_loop_run run : forall self b rest,
  pragma_types (node_of b) = false ->
  Parser.read_pragmas_loop self (run ++ b :: rest)
  = Parser.read_pragmas_loop self run.
Proof.
  induction run as [| a run IH]; intros self b rest Hb.
  - simpl. destruct (node_of b); try reflexivity; discriminate Hb.
  - simpl. destruct (node_of a); try reflexivity;
      try (apply IH; exact Hb).
    + destruct (Parser.read_args self _order); simpl;
        [apply IH; exact Hb | reflexivity].
    + destruct (ParallelRegister_of (Parser.register self) _cluster_spacing);
        simpl; [apply IH; exact Hb | reflexivity].
Qed.

Lemma read_next_skips types (pre : BuilderNode) : forall l,
  Forall (fun x => types (node_of x) = false) pre ->
  read_next types (pre ++ l) = read_next types l.
Proof.
  induction pre as [| a pre IH]; intros l H; [reflexivity |].
  inversion H as [| ? ? Ha Hpre]; subst. simpl. rewrite Ha.
  apply IH. exact Hpre.
Qed.

(** X4.  The pragma pass reads one run of pragma nodes only: it skips
    to the first pragma node behind the cursor and stops at the first
    node behind it that is no pragma.  The pragma nodes behind that
    node are ignored, without an error. *)
Theorem read_pragmas_first_run self s pre p run b rest :
  Parser.stream self = Some s ->
  curr s = pre ++ p :: run ++ b :: rest ->
  Forall (fun x => pragma_types (node_of x) = false) pre ->
  pragma_types (node_of p) = true ->
  pragma_types (node_of b) = false ->
  Parser.read_pragmas self = Parser.read_pragmas_loop self (p :: run).
Proof.
  intros Hs Hc Hpre Hp Hb. unfold Parser.read_pragmas.
  rewrite Hs. cbn [Parser.getattr bind]. unfold copy. rewrite Hc.
  rewrite (read_next_skips _ _ _ Hpre). cbn [read_next]. rewrite Hp.
  apply (read_pragmas_loop_run (p :: run)). exact Hb.
Qed.

Lemma read_pragmas_first_run_witness :
  let self :=
    Parser.set_register
      (Parser.set_stream Parser.new
         (Some (create Passes.chain_split_pragmas)))
      (Some (Arrangement Examples.start)) in
  Parser.read_pragmas self
  = Parser.read_pragmas_loop self
      (firstn 2 (skipn 5 (curr (create Passes.chain_split_pragmas)))) /\
  exists p, Parser.read_pragmas self = Ok p /\ Parser.order p = [].
Proof.
  split.
  - apply (read_pragmas_first_run _
             (create Passes.chain_split_pragmas)
             (firstn 5 (curr (create Passes.chain_split_pragmas)))
             _ _
             (Build (WaveformPrimitive Examples.linear10)
                (Some Passes.chain_tiled))
             [Passes.chain_split_pragmas]).
    + reflexivity.
    + reflexivity.
    + repeat constructor.
    + reflexivity.
    + reflexivity.
  - eexists. split; reflexivity.
Defined.

(** What one run of pragma nodes leaves behind: the register wrapped
    for its [Parallelize] nodes, the parameters of the last node of
    each kind, and every other attribute as it was. *)
Lemma read_pragmas_loop_frame curr : forall self self',
  Parser.read_pragmas_loop self curr = Ok self' ->
  Passes.outside_pragmas self' = Passes.outside_pragmas self /\
  Parser.register self'
  = Passes.tiled (Parser.register self)
      (Passes.spacings (Passes.pragma_run curr)) /\
  Parser.static_params self'
  = Passes.assigned (Passes.pragma_run curr) (Parser.static_params self) /\
  Parser.batch_params self'
  = Passes.batched (Passes.pragma_run curr) (Parser.batch_params self) /\
  Parser.order self'
  = Passes.ordered (Passes.pragma_run curr) (Parser.order self).
Proof.
  induction curr as [| b next IH]; intros self self' H.
  - inversion H; subst. repeat split.
  - simpl in H. unfold Passes.spacings, Passes.tiled, Passes.assigned,
      Passes.batched, Passes.ordered in *.
    cbn [Passes.pragma_run].
    destruct (node_of b) eqn:Eb; cbn [pragma_types];
      try (inversion H; subst; repeat split; fail);
      cbn [flat_map fold_left app]; rewrite Eb.
    + destruct (IH _ _ H) as (H0 & H1 & H2 & H3 & H4).
      repeat split; assumption.
    + destruct (IH _ _ H) as (H0 & H1 & H2 & H3 & H4).
      repeat split; assumption.
    + destruct (IH _ _ H) as (H0 & H1 & H2 & H3 & H4).
      repeat split; assumption.
    + apply bind_Ok in H. destruct H as (self1 & Ha & H).
      unfold Parser.read_args in Ha.
      destruct (Parser.duplicates [] _order); [| discriminate Ha].
      destruct (Parser.intersection _order (Parser.vector_node_names self));
        [| discriminate Ha].
      inversion Ha; subst self1.
      destruct (IH _ _ H) as (H0 & H1 & H2 & H3 & H4).
      repeat split; assumption.
    + apply bind_Ok in H. destruct H as (r & Hr & H).
      destruct (IH _ _ H) as (H0 & H1 & H2 & H3 & H4).
      cbn [app fold_left]. rewrite Hr.
      repeat split; assumption.
Qed.

(** Once a wrap was refused, there is no register. *)
Lemma tiled_None ss : Passes.tiled None ss = None.
Proof.
  unfold Passes.tiled. induction ss as [| s ss IH]; [reflexivity |].
  cbn [fold_left ParallelRegister_of]. exact IH.
Qed.

(** ** The passes of a parse *)

Lemma update_names_frame self cb fb self' :
  Parser.update_names self cb fb = Ok self' ->
  Parser.stream self' = Parser.stream self /\
  Passes.outside_sequence self' = Passes.outside_sequence self.
Proof.
  unfold Parser.update_names. intros H.
  apply bind_Ok in H. destruct H as (self0 & H0 & H).
  assert (E0 : Parser.stream self0 = Parser.stream self /\
               Passes.outside_sequence self0 = Passes.outside_sequence self).
  { destruct cb as [c |]; [| inversion H0; split; reflexivity].
    apply bind_Ok in H0. destruct H0 as (v & _ & H0).
    apply bind_Ok in H0. destruct H0 as (c' & _ & H0).
    inversion H0; split; reflexivity. }
  destruct fb as [f |]; [| inversion H; subst; exact E0].
  apply bind_Ok in H. destruct H as (v & _ & H).
  apply bind_Ok in H. destruct H as (f' & _ & H).
  inversion H; subst; exact E0.
Qed.

Lemma merge_drive_frame self head self' :
  Parser.merge_drive self head = Ok self' ->
  Parser.stream self' = Parser.stream self /\
  Passes.outside_sequence self' = Passes.outside_sequence self.
Proof.
  unfold Parser.merge_drive. intros H.
  apply bind_Ok in H. destruct H as (c & _ & H).
  apply bind_Ok in H. destruct H as (f & _ & H).
  apply bind_Ok in H. destruct H as (drive & _ & H).
  inversion H; split; reflexivity.
Qed.

(** The loop of the sequence pass reads a copy of the stream: the
    cursor of the parser stays where it was, and so does every
    attribute that belongs to the register and the pragmas. *)
Lemma read_sequence_loop_frame fuel : forall self stream_curr self',
  Parser.read_sequence_loop fuel self stream_curr = Ok self' ->
  Parser.stream self' = Parser.stream self /\
  Passes.outside_sequence self' = Passes.outside_sequence self.
Proof.
  induction fuel as [| fuel IH]; intros self stream_curr self' H.
  - destruct stream_curr; simpl in H; [| discriminate H].
    inversion H; split; reflexivity.
  - destruct stream_curr as [| b l]; [inversion H; split; reflexivity |].
    cbn [Parser.read_sequence_loop] in H.
    apply bind_Ok in H. destruct H as ([[[cb fb] sp] rest] & _ & H).
    apply bind_Ok in H. destruct H as (self1 & H1 & H).
    destruct (update_names_frame _ _ _ _ H1) as [Es1 Eo1].
    destruct sp as [| s sp'].
    + inversion H; subst. split; assumption.
    + apply bind_Ok in H. destruct H as (self2 & H2 & H).
      destruct (merge_drive_frame _ _ _ H2) as [Es2 Eo2].
      destruct (IH _ _ _ H) as [Es Eo].
      split; congruence.
Qed.

(** After the sequence pass the pragma pass finds the pragma nodes it
    would have found before it. *)
Lemma read_sequence_frame self self' :
  Parser.read_sequence self = Ok self' ->
  Passes.outside_sequence self' = Passes.outside_sequence self /\
  exists s s',
    Parser.stream self = Some s /\ Parser.stream self' = Some s' /\
    read_next pragma_types (curr s') = read_next pragma_types (curr s).
Proof.
  unfold Parser.read_sequence. intros H.
  apply bind_Ok in H. destruct H as (s & Hs & H).
  destruct (Parser.stream self) as [s0 |] eqn:Es; [| discriminate Hs].
  inversion Hs; subst s0. clear Hs.
  destruct (curr s) as [| b l] eqn:Ec; [discriminate H |].
  assert (Hloop : forall fuel c,
             Parser.read_sequence_loop fuel self c = Ok self' ->
             Passes.outside_sequence self' = Passes.outside_sequence self /\
             exists s1 s',
               Some s = Some s1 /\ Parser.stream self' = Some s' /\
               read_next pragma_types (curr s')
               = read_next pragma_types (curr s1)).
  { intros fuel c Hl.
    destruct (read_sequence_loop_frame _ _ _ _ Hl) as [E1 E2].
    split; [exact E2 |]. exists s, s. rewrite E1, Es. repeat split. }
  destruct (node_of b) eqn:Eb; try exact (Hloop _ _ H).
  unfold read in H. rewrite Ec in H. inversion H; subst self'.
  split; [reflexivity |].
  exists s, (mk (head s) l). repeat split.
  cbn [curr]. rewrite Ec. cbn [read_next]. rewrite Eb. reflexivity.
Qed.

Lemma read_register_frame self self' :
  Parser.read_register self = Ok self' ->
  exists s root l,
    Parser.stream self = Some s /\ curr s = root :: l /\
    self' = Parser.set_register
              (Parser.set_stream self (Some (mk (head s) l)))
              (Some (Arrangement root)).
Proof.
  unfold Parser.read_register. intros H.
  apply bind_Ok in H. destruct H as (s & Hs & H).
  destruct (Parser.stream self) as [s0 |] eqn:Es; [| discriminate Hs].
  inversion Hs; subst s0. unfold read in H.
  destruct (curr s) as [| root l] eqn:Ec; [discriminate H |].
  inversion H. exists s, root, l. repeat split; assumption.
Qed.

(** X5.  The routine that [parse] returns, read off the chain: it
    keeps the builder; its register is the root of the chain, or the
    root wrapped in one [ParallelRegister] with the spacing of the
    [Parallelize] node of the first run of pragma nodes behind the
    root; [parse] returns no routine when that run has two
    [Parallelize] nodes, the second wrap being refused.  The parameters
    are those of the last [Assign], of the last [BatchAssign] or
    [ListAssign], and of the last [Args] node of that run, a later node
    replacing an earlier one and not adding to it; without such a node
    they are empty. *)
Theorem parse_reads_pragma_run self b root l r p :
  curr (create b) = root :: l ->
  Parser.parse self b = Ok (r, p) ->
  let run := Passes.pragma_run (fst (read_next pragma_types l)) in
  source r = b /\
  match Passes.spacings run with
  | [] => register (circuit r) = Arrangement root
  | [s] => register (circuit r) = ParallelRegister root s
  | _ :: _ :: _ => False
  end /\
  static_params (params r) = Passes.assigned run [] /\
  batch_params (params r) = Passes.batched run [[]] /\
  args_list (params r) = Passes.ordered run [].
Proof.
  intros Hcurr H run. unfold Parser.parse in H.
  rewrite (read_register_root self b root l Hcurr) in H. cbn [bind] in H.
  apply bind_Ok in H. destruct H as (self2 & H2 & H).
  apply bind_Ok in H. destruct H as (self3 & H3 & H).
  apply bind_Ok in H. destruct H as (c & Hc & H).
  inversion H; subst r p. clear H. cbn [source circuit params
    static_params batch_params args_list].
  destruct (read_sequence_frame _ _ H2) as [Eo (s1 & s2 & Hs1 & Hs2 & Hn)].
  cbn [Parser.set_register Parser.set_stream Parser.stream] in Hs1.
  inversion Hs1; subst s1. clear Hs1. cbn [curr] in Hn.
  unfold Parser.read_pragmas in H3. rewrite Hs2 in H3.
  cbn [Parser.getattr bind] in H3. unfold copy in H3. rewrite Hn in H3.
  subst run.
  destruct (read_next pragma_types l) as [found rest]. cbn [fst].
  destruct (read_pragmas_loop_frame _ _ _ H3) as (_ & Hr & Hst & Hb & Ho).
  unfold Passes.outside_sequence in Eo.
  cbn [Parser.set_register Parser.set_stream Parser.reset
       Parser.vector_node_names Parser.register Parser.batch_params
       Parser.static_params Parser.order] in Eo.
  injection Eo as Ev Er Eb Es Eord.
  rewrite Er in Hr. rewrite Es in Hst. rewrite Eb in Hb. rewrite Eord in Ho.
  unfold Parser.make_circuit in Hc.
  destruct (Parser.register self3) as [reg |]; [| discriminate Hc].
  inversion Hc; subst c. cbn [register].
  repeat split; try assumption.
  destruct (Passes.spacings (Passes.pragma_run found)) as [| c1 [| c2 cs]].
  - cbn in Hr. inversion Hr. reflexivity.
  - cbn in Hr. inversion Hr. reflexivity.
  - unfold Passes.tiled in Hr. cbn [fold_left ParallelRegister_of] in Hr.
    fold (Passes.tiled None cs) in Hr. rewrite tiled_None in Hr.
    discriminate Hr.
Qed.

Lemma parse_reads_pragma_run_witness :
  (exists r p,
     Parser.parse Parser.new Passes.chain_split_pragmas = Ok (r, p) /\
     register (circuit r) = ParallelRegister Examples.start (Literal 2) /\
     static_params (params r) = [("x", 1%Q)] /\
     args_list (params r) = []) /\
  Parser.parse Parser.new Passes.chain_tiled_twice
  = Raise (ValidationError "ParallelRegister").
Proof.
  split; [| reflexivity].
  destruct (Parser.parse Parser.new Passes.chain_split_pragmas)
    as [[r p] | e] eqn:E; [| discriminate E].
  exists r, p. split; [reflexivity |].
  destruct (parse_reads_pragma_run Parser.new Passes.chain_split_pragmas
              Examples.start
              (tl (curr (create Passes.chain_split_pragmas))) r p
              eq_refl E) as (_ & Hr & Hs & _ & Ho).
  repeat split.
  - exact Hr.
  - exact Hs.
  - exact Ho.
Defined.

(** The register that the pragma pass leaves depends on the register
    and the vector-node names it starts from, not on the sequence. *)
Lemma read_pragmas_loop_register curr : forall p q q',
  Parser.register p = Parser.register q ->
  Parser.vector_node_names p = Parser.vector_node_names q ->
  Parser.read_pragmas_loop q curr = Ok q' ->
  exists p',
    Parser.read_pragmas_loop p curr = Ok p' /\
    Parser.register p' = Parser.register q'.
Proof.
  induction curr as [| b next IH]; intros p q q' Hr Hv H.
  - inversion H; subst. exists p. split; [reflexivity | exact Hr].
  - simpl in H |- *.
    destruct (node_of b);
      try (inversion H; subst; exists p; split; [reflexivity | exact Hr]);
      try (eapply IH; [| | exact H]; [exact Hr | exact Hv]).
    + apply bind_Ok in H. destruct H as (q1 & Ha & H).
      unfold Parser.read_args in Ha |- *. rewrite Hv.
      destruct (Parser.duplicates [] _order); [| discriminate Ha].
      destruct (Parser.intersection _order (Parser.vector_node_names q));
        [| discriminate Ha].
      inversion Ha; subst q1. cbn [bind].
      eapply IH; [| | exact H]; [exact Hr | exact Hv].
    + rewrite Hr.
      destruct (ParallelRegister_of (Parser.register q) _cluster_spacing)
        as [r |]; [| discriminate H].
      cbn [bind] in H |- *.
      eapply IH; [| | exact H]; [reflexivity | exact Hv].
Qed.

(** X6.  [parse_register] and [parse] agree on the register: whenever
    [parse] returns a routine for a chain, [parse_register] returns the
    register of the circuit of that routine for the same chain.  The
    sequence pass that [parse] runs in between does not move the place
    where the pragma pass starts. *)
Theorem parse_register_agrees self b r p :
  Parser.parse self b = Ok (r, p) ->
  exists p',
    Parser.parse_register self b = Ok (Some (register (circuit r)), p').
Proof.
  intros H. unfold Parser.parse in H. unfold Parser.parse_register.
  apply bind_Ok in H. destruct H as (self1 & H1 & H).
  apply bind_Ok in H. destruct H as (self2 & H2 & H).
  apply bind_Ok in H. destruct H as (self3 & H3 & H).
  apply bind_Ok in H. destruct H as (c & Hc & H).
  inversion H; subst r p. clear H. cbn [circuit].
  rewrite H1. cbn [bind].
  destruct (read_sequence_frame _ _ H2) as [Eo (s1 & s2 & Hs1 & Hs2 & Hn)].
  unfold Passes.outside_sequence in Eo.
  injection Eo as Ev Er _ _ _.
  unfold Parser.read_pragmas in H3 |- *. rewrite Hs2 in H3. rewrite Hs1.
  cbn [Parser.getattr bind] in H3 |- *. unfold copy in H3 |- *.
  rewrite Hn in H3.
  destruct (read_next pragma_types (curr s1)) as [found rest].
  destruct (read_pragmas_loop_register found self1 self2 self3
              (eq_sym Er) (eq_sym Ev) H3) as (p' & Hp & Hreg).
  rewrite Hp. cbn [bind]. exists p'.
  unfold Parser.make_circuit in Hc.
  destruct (Parser.register self3) as [reg |]; [| discriminate Hc].
  inversion Hc; subst c. cbn [register]. rewrite Hreg. reflexivity.
Qed.

Lemma parse_register_agrees_witness :
  exists r p p',
    Parser.parse Parser.new Passes.chain_tiled = Ok (r, p) /\
    Parser.parse_register Parser.new Passes.chain_tiled
    = Ok (Some (register (circuit r)), p').
Proof.
  destruct (Parser.parse Parser.new Passes.chain_tiled)
    as [[r p] | e] eqn:E; [| discriminate E].
  destruct (parse_register_agrees _ _ _ _ E) as [p' Hp].
  exists r, p, p'. split; [reflexivity | exact Hp].
Defined.

Lemma intersection_nil order : Parser.intersection order [] = [].
Proof.
  unfold Parser.intersection. induction order; simpl; auto.
Qed.

(** A value error of the pragma pass, with no vector-node name
    recorded: an [Args] node of the run repeats a name. *)
Lemma read_pragmas_loop_value_error curr : forall self kind,
  Parser.vector_node_names self = [] ->
  Parser.read_pragmas_loop self curr = Raise (ValueError kind) ->
  exists a _order,
    In a (Passes.pragma_run curr) /\ node_of a = Args _order /\
    Parser.duplicates [] _order <> [] /\
    kind = DuplicateNames (Parser.duplicates [] _order).
Proof.
  induction curr as [| b next IH]; intros self kind Hv H; simpl in H.
  - discriminate H.
  - assert (Hnext : forall self1,
               pragma_types (node_of b) = true ->
               Parser.vector_node_names self1 = [] ->
               Parser.read_pragmas_loop self1 next = Raise (ValueError kind) ->
               exists a _order,
                 In a (Passes.pragma_run (b :: next)) /\
                 node_of a = Args _order /\
                 Parser.duplicates [] _order <> [] /\
                 kind = DuplicateNames (Parser.duplicates [] _order)).
    { intros self1 Hb Hv1 H1.
      destruct (IH _ _ Hv1 H1) as (a & o & Hin & Ha & Hd & He).
      exists a, o. repeat split; try assumption.
      cbn [Passes.pragma_run]. rewrite Hb. right. exact Hin. }
    destruct (node_of b) eqn:Eb; try discriminate H;
      try (eapply Hnext; [reflexivity | | exact H]; exact Hv).
    + apply bind_Raise in H. destruct H as [H | (self1 & Ha & H)].
      * unfold Parser.read_args in H. rewrite Hv in H.
        destruct (Parser.duplicates [] _order) as [| d ds] eqn:Ed.
        -- rewrite intersection_nil in H. discriminate H.
        -- inversion H; subst kind. exists b, _order.
           repeat split.
           ++ cbn [Passes.pragma_run]. rewrite Eb. left. reflexivity.
           ++ exact Eb.
           ++ rewrite Ed. discriminate.
           ++ rewrite Ed. reflexivity.
      * unfold Parser.read_args in Ha.
        destruct (Parser.duplicates [] _order); [| discriminate Ha].
        destruct (Parser.intersection _order (Parser.vector_node_names self));
          [| discriminate Ha].
        inversion Ha; subst self1.
        eapply Hnext; [reflexivity | | exact H]; exact Hv.
    + apply bind_Raise in H. destruct H as [H | (r & _ & H)].
      * unfold ParallelRegister_of in H.
        destruct (Parser.register self) as [[head | r s] |];
          discriminate H.
      * eapply Hnext; [reflexivity | | exact H]; exact Hv.
Qed.

(** X7.  The value errors of the parser in [parse]: of the two
    [ValueError]s that [read_pragmas] raises itself, at the lines 184
    and 190, [parse] raises only the first, the duplicate-names error,
    and only for an [Args] node of the first run of pragma nodes behind
    the register, with the repeated names of that node.  The error of
    line 190 is not raised by [parse], for any parser and any chain. *)
Theorem parse_value_error self b kind :
  Parser.parse self b = Raise (ValueError kind) ->
  exists a _order,
    In a (Passes.pragma_run
            (fst (read_next pragma_types (tl (curr (create b)))))) /\
    node_of a = Args _order /\
    Parser.duplicates [] _order <> [] /\
    kind = DuplicateNames (Parser.duplicates [] _order).
Proof.
  unfold Parser.parse. intros H.
  apply bind_Raise in H. destruct H as [H | (self1 & H1 & H)].
  { destruct (read_register_raises _ _ H). }
  apply bind_Raise in H. destruct H as [H | (self2 & H2 & H)].
  { destruct (read_sequence_raises _ _ H). }
  apply bind_Raise in H. destruct H as [H | (self3 & _ & H)].
  - destruct (read_register_frame _ _ H1) as (s & root & l & Hs & Hcurr & ->).
    cbn [Parser.reset Parser.stream] in Hs. inversion Hs; subst s. clear Hs.
    destruct (read_sequence_frame _ _ H2) as [Eo (s1 & s2 & Hs1 & Hs2 & Hn)].
    cbn [Parser.set_register Parser.set_stream Parser.stream] in Hs1.
    inversion Hs1; subst s1. clear Hs1. cbn [curr] in Hn.
    unfold Passes.outside_sequence in Eo. injection Eo as Ev _ _ _ _.
    cbn in Ev.
    unfold Parser.read_pragmas in H. rewrite Hs2 in H.
    cbn [Parser.getattr bind] in H. unfold copy in H. rewrite Hn in H.
    rewrite Hcurr. cbn [tl].
    destruct (read_next pragma_types l) as [found rest]. cbn [fst].
    exact (read_pragmas_loop_value_error _ _ _ Ev H).
  - apply bind_Raise in H. destruct H as [H | (c & _ & H)].
    + unfold Parser.make_circuit in H.
      destruct (Parser.register self3); discriminate H.
    + discriminate H.
Qed.

Lemma parse_value_error_witness :
  Parser.parse Parser.new Examples.chain_duplicate_args
  = Raise (ValueError (DuplicateNames ["a"])) /\
  exists a,
    In a (curr (create Examples.chain_duplicate_args)) /\
    node_of a = Args ["a"; "b"; "a"].
Proof.
  split; [reflexivity |].
  destruct (parse_value_error Parser.new Examples.chain_duplicate_args
              (DuplicateNames ["a"]) eq_refl)
    as (a & o & Hin & Ha & _ & _).
  cbn in Hin. destruct Hin as [<- | []].
  exists Examples.chain_duplicate_args.
  split; [right; left; reflexivity | reflexivity].
Defined.

(** The names that an [Args] node repeats, counted: a name in the list
    of duplicates once for each occurrence but the first that was not
    seen before. *)
Lemma duplicates_count order x : forall seen,
  count_occ string_dec (Parser.duplicates seen order) x
  = if existsb (String.eqb x) seen
    then count_occ string_dec order x
    else pred (count_occ string_dec order x).
Proof.
  induction order as [| y order IH]; intros seen.
  - simpl. destruct (existsb (String.eqb x) seen); reflexivity.
  - cbn [Parser.duplicates].
    destruct (existsb (String.eqb y) seen) eqn:Ey; cbn [negb].
    + cbn [count_occ]. destruct (string_dec y x) as [-> | Hne].
      * rewrite IH, Ey. reflexivity.
      * rewrite IH. reflexivity.
    + rewrite IH. cbn [existsb count_occ].
      destruct (string_dec y x) as [-> | Hne].
      * rewrite String.eqb_refl, Ey. reflexivity.
      * assert (E : String.eqb x y = false).
        { apply String.eqb_neq. intros ->. apply Hne. reflexivity. }
        rewrite E. reflexivity.
Qed.

(** X8.  The names in the duplicate-names error of an [Args] node: a
    name that the node lists [n] times is reported [n - 1] times, so a
    name listed once is not reported and one listed three times is
    reported twice. *)
Theorem duplicates_reported order x :
  count_occ string_dec (Parser.duplicates [] order) x
  = pred (count_occ string_dec order x).
Proof.
  rewrite duplicates_count. reflexivity.
Qed.

(** ** Parses that do not depend on earlier parses *)

Ltac same_attributes H p q :=
  destruct p, q; unfold Passes.reset_attributes in H; cbn in H;
  injection H as ? ? ? ? ? ? ?; subst.

Lemma bind_attributes {B C : Type} (m1 m2 : Res Parser.Parser)
    (k1 k2 : Parser.Parser -> Res B) (f : B -> C) :
  Passes.attributes_of m1 = Passes.attributes_of m2 ->
  (forall p q,
     Passes.reset_attributes p = Passes.reset_attributes q ->
     bind (k1 p) (fun x => Ok (f x)) = bind (k2 q) (fun x => Ok (f x))) ->
  bind (bind m1 k1) (fun x => Ok (f x))
  = bind (bind m2 k2) (fun x => Ok (f x)).
Proof.
  unfold Passes.attributes_of.
  destruct m1 as [p | e1], m2 as [q | e2]; simpl; intros H Hk;
    try discriminate H.
  - apply Hk. congruence.
  - congruence.
Qed.

(** Two parsers that differ in the two sticky names only stay so
    through [update_names], and are the same after it when both names
    were assigned. *)
Lemma update_names_attributes p q cb fb :
  Passes.reset_attributes p = Passes.reset_attributes q ->
  Passes.attributes_of (Parser.update_names p cb fb)
  = Passes.attributes_of (Parser.update_names q cb fb).
Proof.
  intros H. same_attributes H p q. unfold Parser.update_names.
  destruct cb as [c |], fb as [f |]; cbn [bind];
    repeat match goal with
      | |- context [__bloqade_ir__ ?b] => destruct (__bloqade_ir__ b); cbn
      | |- context [Parser.as_coupling ?v] =>
          destruct (Parser.as_coupling v); cbn
      | |- context [Parser.as_field_name ?v] =>
          destruct (Parser.as_field_name v); cbn
      end; reflexivity.
Qed.

Lemma update_names_both p q cb fb :
  Passes.reset_attributes p = Passes.reset_attributes q ->
  Parser.update_names p (Some cb) (Some fb)
  = Parser.update_names q (Some cb) (Some fb).
Proof.
  intros H. same_attributes H p q. unfold Parser.update_names.
  destruct (__bloqade_ir__ cb) as [v |]; [| reflexivity]. cbn [bind].
  destruct (Parser.as_coupling v) as [c' |]; [| reflexivity]. cbn [bind].
  destruct (__bloqade_ir__ fb) as [v' |]; [| reflexivity]. cbn [bind].
  destruct (Parser.as_field_name v') as [f' |]; reflexivity.
Qed.

Lemma read_sequence_loop_attributes fuel p q stream_curr :
  Passes.reset_attributes p = Passes.reset_attributes q ->
  Passes.first_drive_scoped stream_curr = true ->
  Passes.attributes_of (Parser.read_sequence_loop fuel p stream_curr)
  = Passes.attributes_of (Parser.read_sequence_loop fuel q stream_curr).
Proof.
  intros H Hd. destruct stream_curr as [| b l].
  { destruct fuel; simpl; rewrite H; reflexivity. }
  destruct fuel as [| fuel]; [reflexivity |].
  cbn [Parser.read_sequence_loop]. unfold Passes.first_drive_scoped in Hd.
  destruct (Parser.read_address (b :: l)) as [[[[cb fb] sp] rest] | e];
    [| reflexivity].
  cbn [bind].
  destruct sp as [| s sp'].
  - pose proof (update_names_attributes p q cb fb H) as Hu.
    unfold Passes.attributes_of in *.
    destruct (Parser.update_names p cb fb), (Parser.update_names q cb fb);
      exact Hu.
  - destruct cb as [c |]; [| discriminate Hd].
    destruct fb as [f |]; [| discriminate Hd].
    rewrite (update_names_both p q c f H). reflexivity.
Qed.

Lemma read_sequence_attributes p q s :
  Passes.reset_attributes p = Passes.reset_attributes q ->
  Parser.stream p = Some s ->
  type_in is_SequenceBuilder (hd_error (curr s))
  || Passes.first_drive_scoped (curr s) = true ->
  Passes.attributes_of (Parser.read_sequence p)
  = Passes.attributes_of (Parser.read_sequence q).
Proof.
  intros H Hs Hd.
  assert (Hsq : Parser.stream q = Some s).
  { rewrite <- Hs. unfold Passes.reset_attributes in H. congruence. }
  unfold Parser.read_sequence. rewrite Hs, Hsq. cbn [Parser.getattr bind].
  unfold copy. destruct (curr s) as [| b l] eqn:Ec; [reflexivity |].
  cbn [hd_error type_in] in Hd.
  destruct (node_of b);
    try (apply read_sequence_loop_attributes; [exact H | exact Hd]).
  unfold read. rewrite Ec. same_attributes H p q. reflexivity.
Qed.

Lemma read_pragmas_loop_attributes curr : forall p q,
  Passes.reset_attributes p = Passes.reset_attributes q ->
  Passes.attributes_of (Parser.read_pragmas_loop p curr)
  = Passes.attributes_of (Parser.read_pragmas_loop q curr).
Proof.
  induction curr as [| b next IH]; intros p q H.
  - simpl. rewrite H. reflexivity.
  - simpl. destruct (node_of b);
      try (simpl; rewrite H; reflexivity);
      try (apply IH; same_attributes H p q; reflexivity).
    + assert (Hv : Parser.vector_node_names p = Parser.vector_node_names q).
      { unfold Passes.reset_attributes in H. congruence. }
      unfold Parser.read_args. rewrite Hv.
      destruct (Parser.duplicates [] _order); [| reflexivity].
      destruct (Parser.intersection _order (Parser.vector_node_names q));
        [| reflexivity].
      cbn [bind]. apply IH. same_attributes H p q. reflexivity.
    + assert (Hr : Parser.register p = Parser.register q).
      { unfold Passes.reset_attributes in H. congruence. }
      rewrite Hr.
      destruct (ParallelRegister_of (Parser.register q) _cluster_spacing);
        [| reflexivity].
      cbn [bind]. apply IH. same_attributes H p q. reflexivity.
Qed.

Lemma read_pragmas_attributes p q :
  Passes.reset_attributes p = Passes.reset_attributes q ->
  Passes.attributes_of (Parser.read_pragmas p)
  = Passes.attributes_of (Parser.read_pragmas q).
Proof.
  intros H.
  assert (Hs : Parser.stream p = Parser.stream q).
  { unfold Passes.reset_attributes in H. congruence. }
  unfold Parser.read_pragmas. rewrite Hs.
  destruct (Parser.stream q) as [s |]; [| reflexivity].
  cbn [Parser.getattr bind].
  destruct (read_next pragma_types (curr (copy s))) as [c r].
  apply read_pragmas_loop_attributes. exact H.
Qed.

(** X9.  When a parse is independent of the parses before it: for a
    chain whose second node is a precomputed sequence, or whose first
    drive selects both a coupling and a field, or that has no drive,
    [parse] returns the same routine, or raises the same exception, on
    every two parsers, whatever they have parsed before. *)
Theorem parse_independent_of_history self1 self2 b :
  (let stream_curr := tl (curr (create b)) in
   type_in is_SequenceBuilder (hd_error stream_curr)
   || Passes.first_drive_scoped stream_curr = true) ->
  Passes.returned (Parser.parse self1 b)
  = Passes.returned (Parser.parse self2 b).
Proof.
  intros Hd. unfold Passes.returned, Parser.parse.
  destruct (curr (create b)) as [| root l] eqn:Hcurr.
  { exfalso. exact (create_not_empty b Hcurr). }
  rewrite !(read_register_root _ b root l Hcurr). cbn [bind].
  cbn [tl] in Hd.
  apply bind_attributes.
  { apply (read_sequence_attributes _ _ (mk (head (create b)) l));
      [reflexivity | reflexivity | exact Hd]. }
  intros p2 q2 H2. apply bind_attributes.
  { apply read_pragmas_attributes. exact H2. }
  intros p3 q3 H3. same_attributes H3 p3 q3.
  unfold Parser.make_circuit. cbn [Parser.register].
  match goal with
  | |- context [match ?r with Some _ => _ | None => _ end] => destruct r
  end; reflexivity.
Qed.

Lemma parse_independent_of_history_witness :
  Passes.returned
    (Parser.parse
       (Examples.parser_after
          (Parser.parse Parser.new Examples.chain_phase_sample))
       Examples.chain_scoped)
  = Passes.returned (Parser.parse Parser.new Examples.chain_scoped).
Proof.
  apply (parse_independent_of_history _ _ Examples.chain_scoped).
  reflexivity.
Defined.

Lemma read_next_no_match types (l : BuilderNode) :
  Forall (fun x => types (node_of x) = false) l ->
  read_next types l = ([], []).
Proof.
  induction l as [| b next IH]; intros H; [reflexivity |].
  inversion H as [| ? ? Hb Hnext]; subst. simpl. rewrite Hb.
  apply IH. exact Hnext.
Qed.

(** X10.  [parse_sequence] does not adopt a precomputed sequence that
    was applied to the register: its sequence pass starts at the root
    of the chain, where [parse] and [parse_circuit] start behind it, so
    it does not find the sequence at its cursor.  For a chain
    [root.apply(sequence)] with no drive of its own behind, it returns
    the empty sequence, where [parse_circuit] returns [sequence]. *)
Theorem parse_sequence_skips_applied self b root sb l _sequence :
  curr (create b) = root :: sb :: l ->
  is_SequenceBuilder (node_of root) = false ->
  node_of sb = SequenceBuilder _sequence ->
  Forall (fun x => SpatialModulation (node_of x) = false) (root :: l) ->
  Passes.returned (Parser.parse_sequence self b) = Ok (ir.mkSequence []) /\
  Passes.returned (Parser.parse_circuit self b)
  = Ok (mkAnalogCircuit (Arrangement root) _sequence).
Proof.
  intros Hc Hroot Hsb Hall. split.
  - unfold Passes.returned, Parser.parse_sequence.
    rewrite (read_sequence_scans (Parser.reset self b) (create b) root
               (sb :: l) eq_refl Hc Hroot).
    cbn [Parser.read_sequence_loop]. unfold Parser.read_address.
    rewrite (read_next_no_match SpatialModulation (root :: sb :: l)).
    + reflexivity.
    + inversion Hall as [| ? ? Hr Hl]; subst.
      constructor; [exact Hr |]. constructor; [| exact Hl].
      rewrite Hsb. reflexivity.
  - unfold Passes.returned, Parser.parse_circuit.
    rewrite (read_register_root self b root (sb :: l) Hc). cbn [bind].
    unfold Parser.read_sequence.
    cbn [Parser.set_register Parser.set_stream Parser.stream Parser.getattr
         bind curr].
    rewrite Hsb. reflexivity.
Qed.

Lemma parse_sequence_skips_applied_witness :
  let s :=
    Examples.one_drive ir.rydberg ir.detuning ir.Uniform Examples.linear01 in
  Passes.returned (Parser.parse_sequence Parser.new (Passes.chain_applied_tiled s))
  = Ok (ir.mkSequence []) /\
  Passes.returned (Parser.parse_circuit Parser.new (Passes.chain_applied_tiled s))
  = Ok (mkAnalogCircuit (Arrangement Examples.start) s).
Proof.
  intros s.
  apply (parse_sequence_skips_applied Parser.new (Passes.chain_applied_tiled s)
           Examples.start
           (Build (SequenceBuilder s) (Some Examples.start))
           [Passes.chain_applied_tiled s] s).
  - reflexivity.
  - reflexivity.
  - reflexivity.
  - repeat constructor.
Defined.

(* ================================================================== *)
(** * Further properties of the constant-waveform analysis *)

(** Induction on a waveform with the parts of an [Append]. *)
Lemma Waveform_parts_ind (P : ir.Waveform -> Prop) :
  (forall value duration, P (ir.Constant value duration)) ->
  (forall start stop duration, P (ir.Linear start stop duration)) ->
  (forall coeffs duration, P (ir.Poly coeffs duration)) ->
  (forall fn duration, P (ir.PythonFn fn duration)) ->
  (forall waveforms, Forall P waveforms -> P (ir.Append waveforms)) ->
  (forall ast_left ast_right,
     P ast_left -> P ast_right -> P (ir.Add ast_left ast_right)) ->
  (forall waveform alignment,
     P waveform -> P (ir.AlignedWaveform waveform alignment)) ->
  (forall waveform, P waveform -> P (ir.Negative waveform)) ->
  (forall waveform var, P waveform -> P (ir.Record_ waveform var)) ->
  (forall waveform interpolation dt,
     P waveform -> P (ir.Sample waveform interpolation dt)) ->
  (forall waveform scalar, P waveform -> P (ir.Scale_ waveform scalar)) ->
  (forall waveform start stop,
     P waveform -> P (ir.Slice waveform start stop)) ->
  (forall waveform kernel, P waveform -> P (ir.Smooth waveform kernel)) ->
  forall w, P w.
Proof.
  intros HC HL HP HF HAp HAdd HAl HN HR HSa HSc HSl HSm.
  fix IH 1. intros w. destruct w.
  - apply HC.
  - apply HL.
  - apply HP.
  - apply HF.
  - apply HAp. induction waveforms as [| wf wfs IHwfs].
    + constructor.
    + constructor; [apply IH | exact IHwfs].
  - apply HAdd; apply IH.
  - apply HAl, IH.
  - apply HN, IH.
  - apply HR, IH.
  - apply HSa, IH.
  - apply HSc, IH.
  - apply HSl, IH.
  - apply HSm, IH.
Qed.

Section Verdicts.
Context {layer : WaveformLayer}.
Variable assignments : Assignments.

(** The loop of [visit_append] on a visitor that is not constant any
    more: it analyses the first part and returns. *)
Lemma visit_append_false wfs value b :
  IsConstantWaveform.visit_append assignments wfs value false = Ok b ->
  b = false.
Proof.
  destruct wfs as [| wf wfs]; simpl; intros H.
  - inversion H. reflexivity.
  - apply bind_Ok in H. destruct H as (r & _ & H).
    simpl in H. inversion H. reflexivity.
Qed.

(** A visitor that is not constant does not become constant again. *)
Lemma visit_false w : forall b,
  IsConstantWaveform.visit assignments w false = Ok b -> b = false.
Proof.
  induction w; intros b H;
    try (cbn [IsConstantWaveform.visit] in H; apply IHw; exact H).
  - inversion H. reflexivity.
  - cbn [IsConstantWaveform.visit] in H.
    apply bind_Ok in H. destruct H as (e & _ & H).
    apply bind_Ok in H. destruct H as (s & _ & H).
    inversion H. reflexivity.
  - cbn [IsConstantWaveform.visit] in H.
    apply bind_Ok in H. destruct H as (cs & _ & H).
    destruct (existsb (fun coeff => negb (Qeq_bool coeff 0)) (tl cs)); inversion H; reflexivity.
  - inversion H. reflexivity.
  - rewrite visit_Append in H. exact (visit_append_false _ _ _ H).
  - cbn [IsConstantWaveform.visit] in H.
    apply bind_Ok in H. destruct H as (dl & _ & H).
    apply bind_Ok in H. destruct H as (dr & _ & H).
    destruct (negb (Qeq_bool dl dr)); [inversion H; reflexivity |].
    apply bind_Ok in H. destruct H as (bl & Hl & H).
    rewrite (IHw1 _ Hl) in H. exact (IHw2 _ H).
Qed.

Lemma visit_append_factor wfs value ic b :
  IsConstantWaveform.visit_append assignments wfs value true = Ok b ->
  IsConstantWaveform.visit_append assignments wfs value ic = Ok (ic && b).
Proof.
  destruct ic; [intros H; exact H |].
  destruct wfs as [| wf wfs]; simpl; intros H; [reflexivity |].
  apply bind_Ok in H. destruct H as (r & Hr & _).
  rewrite Hr. reflexivity.
Qed.

(** X11.  The verdict of the waveform visitor only falls: a visit that
    starts from a verdict that is false ends with false, and a visit
    that starts from any verdict ends with the conjunction of that
    verdict and the verdict of the visit of a new visitor, whenever the
    latter returns. *)
Theorem visit_verdict_falls w :
  (forall b,
     IsConstantWaveform.visit assignments w false = Ok b -> b = false) /\
  (forall ic b,
     IsConstantWaveform.visit assignments w true = Ok b ->
     IsConstantWaveform.visit assignments w ic = Ok (ic && b)).
Proof.
  split; [apply visit_false |].
  induction w; intros ic b H;
    try (cbn [IsConstantWaveform.visit] in H |- *; apply IHw; exact H).
  - inversion H. rewrite andb_true_r. reflexivity.
  - cbn [IsConstantWaveform.visit] in H |- *.
    apply bind_Ok in H. destruct H as (e & He & H).
    apply bind_Ok in H. destruct H as (s & Hs & H).
    rewrite He, Hs. inversion H. reflexivity.
  - cbn [IsConstantWaveform.visit] in H |- *.
    apply bind_Ok in H. destruct H as (cs & Hcs & H).
    rewrite Hcs. cbn [bind].
    destruct (existsb (fun coeff => negb (Qeq_bool coeff 0)) (tl cs)); inversion H;
      rewrite ?andb_true_r, ?andb_false_r; reflexivity.
  - inversion H. rewrite andb_false_r. reflexivity.
  - rewrite visit_Append in H |- *. exact (visit_append_factor _ _ _ _ H).
  - cbn [IsConstantWaveform.visit] in H |- *.
    apply bind_Ok in H. destruct H as (dl & Hdl & H).
    apply bind_Ok in H. destruct H as (dr & Hdr & H).
    rewrite Hdl, Hdr. cbn [bind].
    destruct (negb (Qeq_bool dl dr));
      [inversion H; rewrite andb_false_r; reflexivity |].
    apply bind_Ok in H. destruct H as (bl & Hl & H).
    rewrite (IHw1 _ _ Hl). cbn [bind].
    destruct bl.
    + rewrite andb_true_r. exact (IHw2 _ _ H).
    + rewrite andb_false_r. rewrite (visit_false _ _ H) in H |- *.
      rewrite andb_false_r. exact H.
Qed.

End Verdicts.

Lemma visit_verdict_falls_witness :
  let w :=
    ir.Add (ir.Linear (Literal 1) (Literal 1) (Literal 2))
      (ir.Append [ir.Constant (Literal 1) (Literal 1);
                  ir.Poly [Literal 1; Literal 0] (Literal 1)]) in
  @IsConstantWaveform.visit spec_layer.layer [] w true = Ok true /\
  @IsConstantWaveform.visit spec_layer.layer [] w false = Ok false.
Proof.
  intros w. split; [reflexivity |].
  exact (proj2 (@visit_verdict_falls spec_layer.layer [] w) false true
           eq_refl).
Defined.

Section VerdictRules.
Context {layer : WaveformLayer}.
Variable assignments : Assignments.

(** The loop of [visit_append] once the value of the first part is
    known, over parts that the analysis evaluates. *)
Lemma visit_append_from_value wfs : forall rs x ic,
  mapM (IsConstantWaveform.emit assignments) wfs = Ok rs ->
  IsConstantWaveform.visit_append assignments wfs (Some x) ic
  = Ok (ic && forallb
                (fun r => IsConstantWaveform.is_constant r
                          && Qeq_bool (Leaves.end_value r) x) rs).
Proof.
  induction wfs as [| wf wfs IH]; intros rs x ic H.
  - inversion H. simpl. rewrite andb_true_r. reflexivity.
  - cbn [mapM] in H.
    apply bind_Ok in H. destruct H as (r & Hr & H).
    apply bind_Ok in H. destruct H as (rs' & Hrs & H).
    inversion H; subst rs. clear H.
    cbn [IsConstantWaveform.visit_append]. rewrite Hr. cbn [bind forallb].
    fold (Leaves.end_value r).
    destruct (negb (ic && IsConstantWaveform.is_constant r
                    && Qeq_bool (Leaves.end_value r) x)) eqn:E.
    + apply negb_true_iff in E. rewrite E.
      destruct ic, (IsConstantWaveform.is_constant r),
        (Qeq_bool (Leaves.end_value r) x); try discriminate E; reflexivity.
    + apply negb_false_iff in E. rewrite (IH rs' x _ Hrs), E.
      apply andb_true_iff in E. destruct E as [E1 E3].
      apply andb_true_iff in E1. destruct E1 as [E1 E2].
      rewrite E1, E2, E3. reflexivity.
Qed.

(** X12.  The verdict of an [Append] whose parts the analysis
    evaluates: it is true exactly when the visitor was constant before,
    every part is constant for a new visitor, and any two parts end at
    the same value.  Only the value at the end of each part is
    compared. *)
Theorem visit_append_verdict wfs rs ic :
  mapM (IsConstantWaveform.emit assignments) wfs = Ok rs ->
  exists verdict,
    IsConstantWaveform.visit assignments (ir.Append wfs) ic = Ok verdict /\
    (verdict = true <->
     ic = true /\
     (forall r, In r rs -> IsConstantWaveform.is_constant r = true) /\
     (forall r1 r2, In r1 rs -> In r2 rs ->
        Leaves.end_value r1 == Leaves.end_value r2)).
Proof.
  intros H. rewrite visit_Append.
  destruct wfs as [| wf wfs].
  - inversion H; subst rs. exists ic. split; [reflexivity |].
    split; [| intros [-> _]; reflexivity].
    intros ->. split; [reflexivity |].
    split; [intros r [] | intros r1 r2 []].
  - assert (Hall := H). cbn [mapM] in H.
    apply bind_Ok in H. destruct H as (r & Hr & H).
    apply bind_Ok in H. destruct H as (rs' & Hrs & H).
    inversion H; subst rs. clear H.
    cbn [IsConstantWaveform.visit_append]. rewrite Hr. cbn [bind].
    fold (Leaves.end_value r). rewrite Qeq_bool_refl, andb_true_r.
    exists (ic && IsConstantWaveform.is_constant r
            && forallb
                 (fun r' => IsConstantWaveform.is_constant r'
                            && Qeq_bool (Leaves.end_value r')
                                 (Leaves.end_value r)) rs').
    split.
    + destruct (ic && IsConstantWaveform.is_constant r) eqn:E; cbn [negb].
      * rewrite (visit_append_from_value wfs rs' _ true Hrs). reflexivity.
      * reflexivity.
    + rewrite !andb_true_iff, forallb_forall. split.
      * intros [[Hic Er] Hf]. split; [exact Hic |].
        assert (Hboth : forall r', In r' (r :: rs') ->
                  IsConstantWaveform.is_constant r' = true /\
                  Leaves.end_value r' == Leaves.end_value r).
        { intros r' [<- | Hin]; [split; [exact Er | reflexivity] |].
          specialize (Hf r' Hin). apply andb_true_iff in Hf.
          destruct Hf as [Hc Hv]. split; [exact Hc |].
          apply Qeq_bool_iff, Hv. }
        split; [intros r' Hin; exact (proj1 (Hboth r' Hin)) |].
        intros r1 r2 H1 H2.
        rewrite (proj2 (Hboth r1 H1)), (proj2 (Hboth r2 H2)). reflexivity.
      * intros (Hic & Hc & Hv). split.
        -- split; [exact Hic | apply Hc; left; reflexivity].
        -- intros r' Hin. apply andb_true_iff. split.
           ++ apply Hc. right. exact Hin.
           ++ apply Qeq_bool_iff.
              apply Hv; [right; exact Hin | left; reflexivity].
Qed.

Lemma visit_append_stops_loop rest wfs : forall value ic,
  wfs <> [] ->
  IsConstantWaveform.visit_append assignments wfs value ic = Ok false ->
  IsConstantWaveform.visit_append assignments (wfs ++ rest) value ic
  = Ok false.
Proof.
  induction wfs as [| wf wfs IH]; intros value ic Hne H; [contradiction |].
  cbn [app IsConstantWaveform.visit_append] in H |- *.
  destruct (IsConstantWaveform.emit assignments wf) as [r | e];
    [| discriminate H].
  cbn [bind] in H |- *.
  match goal with
  | |- context [negb ?c] => destruct (negb c) eqn:E
  end; [exact H |].
  destruct wfs as [| wf' wfs'].
  - apply negb_false_iff in E. cbn in H. rewrite E in H. discriminate H.
  - apply IH; [discriminate | exact H].
Qed.

(** X13.  The visit of an [Append] stops at the first part that makes
    the verdict false: once the parts read so far give false, no part
    behind them is analysed, so the verdict stays false whatever those
    parts are, also where their analysis would raise. *)
Theorem visit_append_stops wfs rest ic :
  wfs <> [] ->
  IsConstantWaveform.visit assignments (ir.Append wfs) ic = Ok false ->
  IsConstantWaveform.visit assignments (ir.Append (wfs ++ rest)) ic
  = Ok false.
Proof.
  intros Hne H. rewrite visit_Append in H |- *.
  exact (visit_append_stops_loop rest wfs None ic Hne H).
Qed.

Lemma existsb_nonzero (cs : list Decimal) :
  existsb (fun coeff => negb (Qeq_bool coeff 0)) cs = false ->
  Forall (fun c => c == 0) cs.
Proof.
  induction cs as [| c cs IH]; simpl; intros H; [constructor |].
  apply orb_false_iff in H. destruct H as [Hc Hcs].
  constructor; [| exact (IH Hcs)].
  apply negb_false_iff in Hc. apply Qeq_bool_iff, Hc.
Qed.

Lemma visit_append_leaves wfs :
  Forall (fun wf =>
            forall ic,
              IsConstantWaveform.visit assignments wf ic = Ok true ->
              Forall (Leaves.constant_shape assignments) (Leaves.leaves wf))
    wfs ->
  forall value ic,
    IsConstantWaveform.visit_append assignments wfs value ic = Ok true ->
    Forall (Leaves.constant_shape assignments)
      (Leaves.leaves (ir.Append wfs)).
Proof.
  intros Hall. induction Hall as [| wf wfs Hwf _ IH]; intros value ic H.
  - constructor.
  - cbn [IsConstantWaveform.visit_append] in H.
    apply bind_Ok in H. destruct H as (r & Hr & H). cbn zeta in H.
    match type of H with
    | (if negb ?c then _ else _) = _ => destruct c eqn:E; cbn [negb] in H
    end; [| discriminate H].
    apply andb_true_iff in E. destruct E as [E _].
    apply andb_true_iff in E. destruct E as [_ Er].
    change (Leaves.leaves (ir.Append (wf :: wfs)))
      with (Leaves.leaves wf ++ Leaves.leaves (ir.Append wfs)).
    apply Forall_app. split.
    + apply (Hwf true).
      unfold IsConstantWaveform.emit, IsConstantWaveform.emit_from in Hr.
      apply bind_Ok in Hr. destruct Hr as (b & Hb & Hr).
      apply bind_Ok in Hr. destruct Hr as (d & _ & Hr).
      apply bind_Ok in Hr. destruct Hr as (v & _ & Hr).
      inversion Hr; subst r. cbn in Er. subst b. exact Hb.
    + exact (IH _ _ H).
Qed.

(** X14.  A verdict that is true speaks for every leaf: when a visit of
    a waveform ends with the verdict true, every leaf of the waveform
    is a [Constant], a [Linear] with equal [start] and [stop], or a
    [Poly] that is zero above the order 0.  A waveform with a
    [PythonFn] leaf is never found constant. *)
Theorem true_verdict_leaves w : forall ic,
  IsConstantWaveform.visit assignments w ic = Ok true ->
  Forall (Leaves.constant_shape assignments) (Leaves.leaves w).
Proof.
  induction w using Waveform_parts_ind; intros ic Hv;
    try (cbn [IsConstantWaveform.visit] in Hv; exact (IHw _ Hv)).
  - repeat constructor.
  - cbn [IsConstantWaveform.visit] in Hv.
    apply bind_Ok in Hv. destruct Hv as (e & He & Hv).
    apply bind_Ok in Hv. destruct Hv as (s & Hs & Hv).
    inversion Hv as [Hb]. apply andb_true_iff in Hb. destruct Hb as [_ Hb].
    constructor; [| constructor].
    exists s, e. repeat split; [exact Hs | exact He |].
    apply Qeq_bool_diff, Hb.
  - cbn [IsConstantWaveform.visit] in Hv.
    apply bind_Ok in Hv. destruct Hv as (cs & Hcs & Hv).
    destruct (existsb (fun coeff => negb (Qeq_bool coeff 0)) (tl cs)) eqn:E;
      [discriminate Hv |].
    constructor; [| constructor].
    exists cs. split; [exact Hcs | exact (existsb_nonzero _ E)].
  - discriminate Hv.
  - rewrite visit_Append in Hv.
    exact (visit_append_leaves waveforms H _ _ Hv).
  - cbn [IsConstantWaveform.visit] in Hv.
    apply bind_Ok in Hv. destruct Hv as (dl & _ & Hv).
    apply bind_Ok in Hv. destruct Hv as (dr & _ & Hv).
    destruct (negb (Qeq_bool dl dr)); [discriminate Hv |].
    apply bind_Ok in Hv. destruct Hv as (bl & Hl & Hv).
    destruct bl; [| discriminate (visit_false assignments _ _ Hv)].
    cbn [Leaves.leaves]. apply Forall_app. split.
    + exact (IHw1 _ Hl).
    + exact (IHw2 _ Hv).
Qed.

Lemma existsb_nonzero_iff (cs : list Decimal) :
  existsb (fun coeff => negb (Qeq_bool coeff 0)) cs = false <->
  Forall (fun c => c == 0) cs.
Proof.
  split; [apply existsb_nonzero |].
  induction 1 as [| c cs Hc _ IH]; [reflexivity |].
  simpl. rewrite IH, orb_false_r. apply negb_false_iff.
  apply Qeq_bool_iff, Hc.
Qed.

(** X15.  The verdict of a [Poly]: every coefficient is evaluated, and
    an exception of a coefficient is the exception of the visit, also
    for the coefficient of order 0; when they evaluate, the verdict is
    true exactly when the visitor was constant before and every
    coefficient above the order 0 is zero.  The coefficient of order 0
    is not tested, and a [Poly] without coefficients is constant. *)
Theorem visit_poly_verdict coeffs dur ic :
  (forall e,
     mapM (fun coeff => call coeff assignments) coeffs = Raise e ->
     IsConstantWaveform.visit assignments (ir.Poly coeffs dur) ic = Raise e) /\
  (forall cs,
     mapM (fun coeff => call coeff assignments) coeffs = Ok cs ->
     exists verdict,
       IsConstantWaveform.visit assignments (ir.Poly coeffs dur) ic
       = Ok verdict /\
       (verdict = true <-> ic = true /\ Forall (fun c => c == 0) (tl cs))).
Proof.
  split.
  - intros e H. cbn [IsConstantWaveform.visit]. rewrite H. reflexivity.
  - intros cs H. cbn [IsConstantWaveform.visit]. rewrite H. cbn [bind].
    destruct (existsb (fun coeff => negb (Qeq_bool coeff 0)) (tl cs)) eqn:E.
    + exists false. split; [reflexivity |]. split; [discriminate |].
      intros [_ Hz]. apply existsb_nonzero_iff in Hz. congruence.
    + exists ic. split; [reflexivity |]. split.
      * intros ->. split; [reflexivity |]. apply existsb_nonzero_iff, E.
      * intros [-> _]. reflexivity.
Qed.

End VerdictRules.

Lemma visit_append_verdict_witness :
  @IsConstantWaveform.visit spec_layer.layer []
    (ir.Append [ir.Constant (Literal 1) (Literal 1);
                ir.Linear (Literal 1) (Literal 1) (Literal 2)]) true
  = Ok true.
Proof.
  destruct (@visit_append_verdict spec_layer.layer []
              [ir.Constant (Literal 1) (Literal 1);
               ir.Linear (Literal 1) (Literal 1) (Literal 2)]
              [IsConstantWaveform.mkResult true
                 (ir.Constant (Literal 1) (Literal 1));
               IsConstantWaveform.mkResult true
                 (ir.Constant (Literal 1) (Literal 2))]
              true eq_refl) as (verdict & Hv & Hiff).
  rewrite Hv. f_equal. apply Hiff. split; [reflexivity |]. split.
  - intros r [<- | [<- | []]]; reflexivity.
  - intros r1 r2 [<- | [<- | []]] [<- | [<- | []]]; reflexivity.
Defined.

Lemma visit_append_stops_witness :
  let unbound := ir.Linear (Variable_ "x") (Literal 1) (Literal 1) in
  @IsConstantWaveform.visit spec_layer.layer []
    (ir.Append [unbound]) true
  = Raise (EvaluationError "x") /\
  @IsConstantWaveform.visit spec_layer.layer []
    (ir.Append [ir.Linear (Literal 0) (Literal 1) (Literal 1); unbound]) true
  = Ok false.
Proof.
  intros unbound. split; [reflexivity |].
  apply (@visit_append_stops spec_layer.layer []
           [ir.Linear (Literal 0) (Literal 1) (Literal 1)] [unbound] true).
  - discriminate.
  - reflexivity.
Defined.

Lemma true_verdict_leaves_witness :
  Forall (Leaves.constant_shape [])
    [ir.Linear (Literal 1) (Literal 1) (Literal 2);
     ir.Constant (Literal 1) (Literal 1);
     ir.Poly [Literal 1; Literal 0] (Literal 1)].
Proof.
  exact (@true_verdict_leaves spec_layer.layer []
           (ir.Add (ir.Linear (Literal 1) (Literal 1) (Literal 2))
              (ir.Append [ir.Constant (Literal 1) (Literal 1);
                          ir.Poly [Literal 1; Literal 0] (Literal 1)]))
           true eq_refl).
Defined.

Lemma visit_poly_verdict_witness :
  @IsConstantWaveform.visit spec_layer.layer []
    (ir.Poly [Literal 3; Literal 0; Literal 0] (Literal 1)) true
  = Ok true /\
  @IsConstantWaveform.visit spec_layer.layer []
    (ir.Poly [Variable_ "x"; Literal 0] (Literal 1)) true
  = Raise (EvaluationError "x").
Proof.
  split.
  - destruct (proj2 (@visit_poly_verdict spec_layer.layer []
                       [Literal 3; Literal 0; Literal 0] (Literal 1) true)
                [3; 0; 0]%Q eq_refl) as (verdict & Hv & Hiff).
    rewrite Hv. f_equal. apply Hiff. split; [reflexivity |].
    repeat constructor.
  - apply (proj1 (@visit_poly_verdict spec_layer.layer []
                    [Variable_ "x"; Literal 0] (Literal 1) true)).
    reflexivity.
Defined.

(* ================================================================== *)
(** * The exceptions of the constant-circuit analysis *)

Lemma app_split_first {A : Type} (l1 : list A) : forall R pre w rest,
  l1 ++ R = pre ++ w :: rest ->
  (exists l', l1 = pre ++ w :: l') \/
  (exists pre', pre = l1 ++ pre' /\ R = pre' ++ w :: rest).
Proof.
  induction l1 as [| x l1 IH]; intros R pre w rest H.
  - right. exists pre. split; [reflexivity | exact H].
  - destruct pre as [| y pre].
    + left. exists l1. simpl in *. inversion H. reflexivity.
    + simpl in H. inversion H as [[Hx Hl]]. subst y.
      destruct (IH _ _ _ _ Hl) as [[l' ->] | (pre' & -> & ->)].
      * left. exists l'. reflexivity.
      * right. exists pre'. split; reflexivity.
Qed.

Section CircuitErrors.
Context {layer : WaveformLayer}.
Variable assignments : Assignments.

Hypothesis duration_Constant :
  forall v d,
    duration (ir.Constant (Literal v) (Literal d)) assignments = Ok d.

Lemma visit_waveform_raises self w e :
  IsConstantWaveform.emit assignments w = Raise e ->
  IsConstantAnalogCircuit.visit_waveform assignments self w = Raise e.
Proof.
  intros H. unfold IsConstantAnalogCircuit.visit_waveform. rewrite H.
  reflexivity.
Qed.

Lemma visit_drives_returns items : forall self acc,
  Spec.emits assignments (map snd items) ->
  exists r,
    IsConstantAnalogCircuit.visit_drives assignments self acc items = Ok r.
Proof.
  induction items as [| [k w] items IH]; intros self acc He.
  - eexists. reflexivity.
  - cbn [IsConstantAnalogCircuit.visit_drives].
    destruct (He w (or_introl eq_refl)) as [r Hr].
    rewrite (visit_waveform_step assignments duration_Constant self w r Hr).
    cbn [bind]. apply IH. intros w' Hw'. apply He. right. exact Hw'.
Qed.

Lemma visit_drives_raises items : forall self acc pre w rest e,
  map snd items = pre ++ w :: rest ->
  Spec.emits assignments pre ->
  IsConstantWaveform.emit assignments w = Raise e ->
  IsConstantAnalogCircuit.visit_drives assignments self acc items = Raise e.
Proof.
  induction items as [| [k w0] items IH]; intros self acc pre w rest e H He Hw.
  - destruct pre; discriminate H.
  - cbn [IsConstantAnalogCircuit.visit_drives].
    destruct pre as [| w1 pre]; simpl in H; inversion H as [[H0 Hitems]].
    + rewrite (visit_waveform_raises self w e Hw). reflexivity.
    + destruct (He w1 (or_introl eq_refl)) as [r Hr].
      rewrite (visit_waveform_step assignments duration_Constant self w1 r Hr).
      cbn [bind]. apply (IH _ _ pre w rest e Hitems); [| exact Hw].
      intros w' Hw'. apply He. right. exact Hw'.
Qed.

Lemma visit_fields_returns items : forall self acc,
  Spec.emits assignments
    (flat_map (fun kv => Spec.waveforms_of_field (snd kv)) items) ->
  exists r,
    IsConstantAnalogCircuit.visit_fields assignments self acc items = Ok r.
Proof.
  induction items as [| [k fd] items IH]; intros self acc He.
  - eexists. reflexivity.
  - cbn [IsConstantAnalogCircuit.visit_fields].
    cbn [flat_map snd] in He. apply emits_app in He. destruct He as [He1 He2].
    unfold IsConstantAnalogCircuit.visit_field.
    destruct (visit_drives_returns (ir.drives fd) self (ir.mkField []) He1)
      as [[self1 field] Hr].
    rewrite Hr. cbn [bind]. apply IH. exact He2.
Qed.

Lemma visit_fields_raises items : forall self acc pre w rest e,
  flat_map (fun kv => Spec.waveforms_of_field (snd kv)) items
  = pre ++ w :: rest ->
  Spec.emits assignments pre ->
  IsConstantWaveform.emit assignments w = Raise e ->
  IsConstantAnalogCircuit.visit_fields assignments self acc items = Raise e.
Proof.
  induction items as [| [k fd] items IH]; intros self acc pre w rest e H He Hw.
  - destruct pre; discriminate H.
  - cbn [IsConstantAnalogCircuit.visit_fields].
    cbn [flat_map snd] in H.
    unfold IsConstantAnalogCircuit.visit_field.
    destruct (app_split_first _ _ _ _ _ H) as [[l' Hl] | (pre' & -> & HR)].
    + rewrite (visit_drives_raises (ir.drives fd) self (ir.mkField [])
                 pre w l' e Hl He Hw).
      reflexivity.
    + apply emits_app in He. destruct He as [He1 He2].
      destruct (visit_drives_returns (ir.drives fd) self (ir.mkField []) He1)
        as [[self1 field] Hr].
      rewrite Hr. cbn [bind]. exact (IH _ _ pre' w rest e HR He2 Hw).
Qed.

Lemma visit_pulses_raises items : forall self acc pre w rest e,
  flat_map (fun kv => Spec.waveforms_of_pulse (snd kv)) items
  = pre ++ w :: rest ->
  Spec.emits assignments pre ->
  IsConstantWaveform.emit assignments w = Raise e ->
  IsConstantAnalogCircuit.visit_pulses assignments self acc items = Raise e.
Proof.
  induction items as [| [k p] items IH]; intros self acc pre w rest e H He Hw.
  - destruct pre; discriminate H.
  - cbn [IsConstantAnalogCircuit.visit_pulses].
    cbn [flat_map snd] in H.
    unfold IsConstantAnalogCircuit.visit_pulse.
    destruct (app_split_first _ _ _ _ _ H) as [[l' Hl] | (pre' & -> & HR)].
    + rewrite (visit_fields_raises (ir.fields p) self (ir.mkPulse [])
                 pre w l' e Hl He Hw).
      reflexivity.
    + apply emits_app in He. destruct He as [He1 He2].
      destruct (visit_fields_returns (ir.fields p) self (ir.mkPulse []) He1)
        as [[self1 pulse] Hr].
      rewrite Hr. cbn [bind]. exact (IH _ _ pre' w rest e HR He2 Hw).
Qed.

(** X16.  The exception of the circuit analysis is the exception of
    the first waveform of the circuit, in the order of its
    dictionaries, whose analysis raises: the waveforms before it are
    analysed, it is the one that raises, and what the waveforms behind
    it would give or raise does not matter. *)
Theorem emit_circuit_raises (c : AnalogCircuit) pre w rest e :
  Spec.waveforms_of_sequence (sequence c) = pre ++ w :: rest ->
  Spec.emits assignments pre ->
  IsConstantWaveform.emit assignments w = Raise e ->
  IsConstantAnalogCircuit.emit assignments c = Raise e.
Proof.
  intros H He Hw.
  unfold IsConstantAnalogCircuit.emit,
    IsConstantAnalogCircuit.visit_analog_circuit,
    IsConstantAnalogCircuit.visit_sequence.
  rewrite (visit_pulses_raises (ir.pulses (sequence c))
             IsConstantAnalogCircuit.init (ir.mkSequence []) pre w rest e
             H He Hw).
  reflexivity.
Qed.

End CircuitErrors.

Lemma emit_circuit_raises_witness :
  @IsConstantAnalogCircuit.emit spec_layer.layer [] Leaves.unbound_circuit
  = Raise (EvaluationError "x").
Proof.
  apply (@emit_circuit_raises spec_layer.layer [] (fun v d => eq_refl)
           Leaves.unbound_circuit
           [ir.Constant (Literal 3) (Literal 2)]
           (ir.Linear (Variable_ "x") (Literal 1) (Literal 2))
           [ir.Linear (Variable_ "y") (Literal 1) (Literal 2)]).
  - reflexivity.
  - intros w [<- | []]. eexists. reflexivity.
  - reflexivity.
Defined.

(* ================================================================== *)
(** * Properties of the Braket task *)

Section TaskCalls.
Context {types : braket.TaskTypes} {service : braket.Service}.

(** X17.  A task is submitted once: after a call of [submit] that
    returned, the task has the id that the service gave, and a call of
    [submit] without [force] raises the value error that names this
    id, before the service is reached and with the task as it was. *)
Theorem submit_refuses_resubmission self force w self' w' :
  braket.submit self force w = braket.Return tt self' w' ->
  exists id,
    braket.task_id self' = Some id /\
    fst (braket.submit_task (braket.backend self) (braket.task_ir self) w)
    = inr id /\
    forall w1,
      braket.submit self' false w1
      = braket.Raise
          (braket.ValueError ("the task is already submitted with " ++ id))
          self' w1.
Proof.
  intros H.
  assert (Hs : match braket.submit_task (braket.backend self)
                       (braket.task_ir self) w with
               | (inl e, w0) => braket.Raise e self w0
               | (inr id, w0) =>
                   braket.Return tt
                     (braket.set_task_result_ir
                        (braket.set_task_id self (Some id))
                        (Some (braket.results_of_status braket.Enqueued))) w0
               end = braket.Return tt self' w').
  { unfold braket.submit in H.
    destruct force; cbn [negb] in H; [exact H |].
    destruct (braket.task_id self); [discriminate H | exact H]. }
  destruct (braket.submit_task (braket.backend self) (braket.task_ir self) w)
    as [[e | id] w0]; [discriminate Hs |].
  inversion Hs; subst self' w'. exists id.
  repeat split.
Qed.

(** X18.  [fetch] decides on the stored status and not on the id: on a
    task that was built with an id and the default results, [fetch]
    raises the value error [Task ID not found.] without reaching the
    service, where [pull] and [result] ask the service for the results
    of that id and store them. *)
Theorem fetch_ignores_task_id id backend task_ir metadata w :
  let self := braket.new_task (Some id) backend task_ir metadata in
  braket.fetch self w
  = braket.Raise (braket.ValueError "Task ID not found.") self w /\
  forall r w',
    braket.task_results backend id w = (inr r, w') ->
    braket.pull self w
    = braket.Return tt (braket.set_task_result_ir self (Some r)) w' /\
    braket.result self w
    = braket.Return (Some r) (braket.set_task_result_ir self (Some r)) w'.
Proof.
  intros self. split.
  - unfold braket.fetch, self, braket.new_task. cbn [braket.task_result_ir].
    rewrite braket.task_status_of_status. reflexivity.
  - intros r w' Hr.
    assert (Hp : braket.pull self w
                 = braket.Return tt
                     (braket.set_task_result_ir self (Some r)) w').
    { unfold braket.pull, self, braket.new_task.
      cbn [braket.task_id braket.backend]. rewrite Hr. reflexivity. }
    split; [exact Hp |].
    unfold braket.result. rewrite Hp. unfold self, braket.new_task.
    cbn [braket.task_result_ir braket.task_id].
    rewrite braket.task_status_of_status. reflexivity.
Qed.

(** X19.  [fetch] after [submit] does not block: it asks the service
    for the state of the task; when the service raises, so does
    [fetch]; with a state other than [Completed] and [Partial] it
    stores the results of that state alone and does not ask the
    service for results. *)
Theorem fetch_after_submit self force w self' w' w1 :
  braket.submit self force w = braket.Return tt self' w' ->
  exists id,
    braket.task_id self' = Some id /\
    (forall e w2,
       braket.task_status_of (braket.backend self') id w1 = (inl e, w2) ->
       braket.fetch self' w1 = braket.Raise e self' w2) /\
    (forall code w2,
       braket.task_status_of (braket.backend self') id w1 = (inr code, w2) ->
       code <> braket.Completed -> code <> braket.Partial ->
       braket.fetch self' w1
       = braket.Return tt
           (braket.set_task_result_ir self'
              (Some (braket.results_of_status code))) w2).
Proof.
  intros H.
  assert (Hs : exists id,
             self' = braket.set_task_result_ir
                       (braket.set_task_id self (Some id))
                       (Some (braket.results_of_status braket.Enqueued))).
  { unfold braket.submit in H.
    destruct (braket.submit_task (braket.backend self) (braket.task_ir self) w)
      as [[e | id] w0];
      destruct force; cbn [negb] in H;
      try destruct (braket.task_id self); try discriminate H;
      inversion H; exists id; reflexivity. }
  destruct Hs as [id ->]. exists id. split; [reflexivity |].
  unfold braket.fetch, braket.status.
  cbn [braket.task_result_ir braket.set_task_result_ir braket.task_id
       braket.set_task_id braket.backend].
  rewrite braket.task_status_of_status. cbn.
  split.
  - intros e w2 Hst. rewrite Hst. reflexivity.
  - intros code w2 Hst Hc Hp. rewrite Hst.
    destruct code; try reflexivity; contradiction.
Qed.

Lemma result_returns_stored self w v self' w' :
  braket.result self w = braket.Return v self' w' ->
  v = braket.task_result_ir self'.
Proof.
  unfold braket.result. intros H.
  destruct (braket.task_result_ir self) as [r |] eqn:Er.
  - destruct (braket.task_id self) as [id |].
    + destruct (negb (braket.QuEraTaskStatusCode_eqb (braket.task_status r)
                        braket.Completed)).
      * destruct (braket.pull self w); inversion H; reflexivity.
      * inversion H; subst. symmetry. exact Er.
    + inversion H; subst. symmetry. exact Er.
  - inversion H; subst. symmetry. exact Er.
Qed.

(** X20.  [result] keeps completed results: once a call of [result]
    has returned results whose status is [Completed], the task holds
    them, [_result_exists] is true, and every later call of [result]
    returns them, and every later call of [fetch] returns, without
    reaching the service. *)
Theorem result_keeps_completed self w r self' w' :
  braket.result self w = braket.Return (Some r) self' w' ->
  braket.task_status r = braket.Completed ->
  braket._result_exists self' = true /\
  forall w1,
    braket.result self' w1 = braket.Return (Some r) self' w1 /\
    braket.fetch self' w1 = braket.Return tt self' w1.
Proof.
  intros H Hc. apply result_returns_stored in H. symmetry in H.
  split.
  - unfold braket._result_exists. rewrite H, Hc. reflexivity.
  - intros w1. split.
    + unfold braket.result. rewrite H, Hc. cbn.
      destruct (braket.task_id self'); reflexivity.
    + unfold braket.fetch. rewrite H, Hc. reflexivity.
Qed.

(** X21.  What a call leaves of the task: every method leaves the
    backend, the task specification, the metadata and the decoder as
    they were; a method that raises leaves the whole task as it was;
    and no method but [submit] assigns the id. *)
Theorem calls_keep_task m self w :
  braket.fixed_attributes (braket.task_after (braket.call_method m self w))
  = braket.fixed_attributes self /\
  (braket.raised (braket.call_method m self w) <> None ->
   braket.task_after (braket.call_method m self w) = self) /\
  (braket.is_Submit m = false ->
   braket.task_id (braket.task_after (braket.call_method m self w))
   = braket.task_id self).
Proof.
  destruct m; cbn [braket.call_method braket.is_Submit];
    unfold braket.submit, braket.validate, braket.validate_task,
      braket.fetch, braket.result, braket.pull, braket.status, braket.cancel;
    repeat match goal with
      | |- context [match ?x with _ => _ end] =>
          lazymatch x with
          | context [match _ with _ => _ end] => fail
          | _ => destruct x eqn:?
          end
      end;
    cbn; repeat split; intros; try assumption; try reflexivity;
    try discriminate; try congruence.
Qed.

(** X22.  A task without an id reaches the service through [submit]
    only: every other method returns or raises with the service as it
    was.  [validate] does so for every task, and returns the empty
    string: the backend accepts every task specification. *)
Theorem no_id_no_service m self w :
  (braket.is_Submit m = false -> braket.task_id self = None ->
   braket.world_after (braket.call_method m self w) = w) /\
  braket.validate self w = braket.Return EmptyString self w.
Proof.
  split; [| reflexivity].
  intros Hm Hid. destruct m; try discriminate Hm;
    cbn [braket.call_method].
  - reflexivity.
  - unfold braket.fetch, braket.status. rewrite Hid.
    destruct (braket.task_result_ir self) as [r |]; [| reflexivity].
    destruct (braket.QuEraTaskStatusCode_eqb (braket.task_status r)
                braket.Unsubmitted); [reflexivity |].
    destruct (braket.settled (braket.task_status r)); reflexivity.
  - unfold braket.pull. rewrite Hid. reflexivity.
  - unfold braket.result. rewrite Hid.
    destruct (braket.task_result_ir self); reflexivity.
  - unfold braket.status. rewrite Hid. reflexivity.
  - unfold braket.cancel. rewrite Hid. reflexivity.
Qed.

End TaskCalls.

Lemma submit_refuses_resubmission_witness :
  let first :=
    @braket.submit braket.example_types braket.example_service
      braket.example_task false [] in
  @braket.submit braket.example_types braket.example_service
    (braket.task_after first) false (braket.world_after first)
  = braket.Raise (braket.ValueError "the task is already submitted with 0")
      (braket.task_after first) (braket.world_after first).
Proof.
  intros first.
  destruct (@submit_refuses_resubmission braket.example_types
              braket.example_service braket.example_task false []
              (braket.task_after first) (braket.world_after first) eq_refl)
    as (id & Hid & _ & Hre).
  injection Hid as <-. apply Hre.
Defined.

Lemma fetch_ignores_task_id_witness :
  let self :=
    @braket.new_task braket.example_types (Some "0"%string)
      (braket.mkBackend "arn") 100%nat tt in
  let w := (braket.example_world [("0"%string, 100%nat)]) in
  @braket.fetch braket.example_types braket.example_service self w
  = braket.Raise (braket.ValueError "Task ID not found.") self w /\
  @braket.result braket.example_types braket.example_service self w
  = braket.Return (Some (braket.Completed, 100%nat))
      (braket.set_task_result_ir self (Some (braket.Completed, 100%nat))) w.
Proof.
  intros self w.
  destruct (@fetch_ignores_task_id braket.example_types
              braket.example_service "0"%string (braket.mkBackend "arn")
              100%nat tt w) as [Hf Hp].
  split; [exact Hf |].
  exact (proj2 (Hp (braket.Completed, 100%nat) w eq_refl)).
Defined.

Lemma result_keeps_completed_witness :
  let self :=
    @braket.new_task braket.example_types (Some "0"%string)
      (braket.mkBackend "arn") 100%nat tt in
  let w := (braket.example_world [("0"%string, 100%nat)]) in
  let self' := braket.set_task_result_ir self (Some (braket.Completed, 100%nat)) in
  @braket.result braket.example_types braket.example_service self' (braket.example_world [])
  = braket.Return (Some (braket.Completed, 100%nat)) self' (braket.example_world []) /\
  @braket.pull braket.example_types braket.example_service self' (braket.example_world [])
  = braket.Raise (braket.ServiceError "unknown task") self' (braket.example_world []).
Proof.
  intros self w self'.
  destruct (@result_keeps_completed braket.example_types
              braket.example_service self w (braket.Completed, 100%nat)
              self' w eq_refl eq_refl) as [_ Hlater].
  split; [exact (proj1 (Hlater (braket.example_world []))) | reflexivity].
Defined.

Lemma calls_keep_task_witness :
  let self :=
    @braket.new_task braket.example_types (Some "7"%string)
      (braket.mkBackend "arn") 100%nat tt in
  braket.raised
    (@braket.call_method braket.example_types braket.example_service
       braket.Pull self (braket.example_world []))
  = Some (braket.ServiceError "unknown task") /\
  braket.task_after
    (@braket.call_method braket.example_types braket.example_service
       braket.Pull self (braket.example_world []))
  = self.
Proof.
  intros self. split; [reflexivity |].
  apply (@calls_keep_task braket.example_types braket.example_service
           braket.Pull self (braket.example_world [])).
  discriminate.
Defined.

Lemma no_id_no_service_witness :
  braket.world_after
    (@braket.call_method braket.example_types braket.example_service
       braket.Fetch
       (braket.set_task_result_ir braket.example_task
          (Some (braket.Enqueued, O)))
       (braket.example_world [("0"%string, 100%nat)]))
  = (braket.example_world [("0"%string, 100%nat)]).
Proof.
  apply (@no_id_no_service braket.example_types braket.example_service
           braket.Fetch); reflexivity.
Defined.

Lemma fetch_after_submit_witness :
  let first :=
    @braket.submit braket.example_types braket.example_service
      braket.example_task false [] in
  @braket.fetch braket.example_types braket.example_service
    (braket.task_after first) (braket.example_world [])
  = braket.Raise (braket.ServiceError "unknown task")
      (braket.task_after first) (braket.example_world []).
Proof.
  intros first.
  destruct (@fetch_after_submit braket.example_types braket.example_service
              braket.example_task false [] (braket.task_after first)
              (braket.world_after first) (braket.example_world []) eq_refl)
    as (id & Hid & Hraise & _).
  injection Hid as <-. apply Hraise. reflexivity.
Defined.
